(** * MR viewer: multi-series synchronisation and playback engine

    A shallow embedding of [src/MRViewerView.ts] (class [MRViewerView]):
    the series catalogue, the position index, the image cache, the
    double-buffered frame switch, the synchronisation handlers, the wheel
    accumulator and the playback loop, followed by the properties of the
    specification that concern them.

    Modelling conventions.
    - Objects used as dictionaries ([seriesData], [activeViewers],
      [imageCache], the per-series tables of [positionMap]) are finite maps.
      A [for ... in] loop over such an object is a fold over the map; every
      loop of the source that is folded this way computes a result that does
      not depend on the order of the keys.
    - Frame indices are integers ([Z]): the source lets them become [-1].
      Reading an array out of range gives [undefined], here [None].
    - Each handler runs to the end of its synchronous part before the next
      event is taken; the asynchronous tail of a frame switch (image load,
      two paint callbacks, a zero timer) is run as one step.
    - Wall-clock readings of the playback loop are exact rationals. *)

From Stdlib Require Import ZArith QArith Qround Lqa String Ascii Sorted.
From stdpp Require Import gmap strings list fin_maps pretty.

Close Scope Q_scope.
Local Open Scope Z_scope.

(** ** JavaScript values *)

(** A number that may be [Infinity] ([Math.min()] of no arguments). *)
Inductive JsNum :=
  | Num (z : Z)
  | Infinity.

Coercion Num : Z >-> JsNum.

(** [arr[i]] for a JavaScript array and an integer index. *)
Definition js_index {A} (arr : list A) (i : Z) : option A :=
  if i <? 0 then None else arr !! Z.to_nat i.

(** [Math.min(...xs)]. *)
Definition js_min (xs : list Z) : JsNum :=
  match xs with
  | [] => Infinity
  | x :: xs' => Num (foldl Z.min x xs')
  end.

(** ** File names and the regular expressions applied to them

    File names are byte strings (UTF-8).  All patterns of the source are
    ASCII, and the [i] flag folds ASCII letters only. *)

Definition upper (c : ascii) : ascii :=
  let n := nat_of_ascii c in
  if ((97 <=? n) && (n <=? 122))%nat then ascii_of_nat (n - 32) else c.

Definition is_digit (c : ascii) : bool :=
  let n := nat_of_ascii c in ((48 <=? n) && (n <=? 57))%nat.

(** The literal [pat], ignoring case, matches at the start of [s]. *)
Fixpoint prefix_ci (pat s : string) : bool :=
  match pat, s with
  | EmptyString, _ => true
  | String p pat', String c s' => Ascii.eqb (upper p) (upper c) && prefix_ci pat' s'
  | String _ _, EmptyString => false
  end.

(** [s.match(/pat/i)] is not null, for a literal [pat]. *)
Fixpoint test_ci (pat s : string) : bool :=
  prefix_ci pat s ||
  match s with
  | EmptyString => false
  | String _ s' => test_ci pat s'
  end.

(** Greedy [\d*] at the start of [s]: the digits and what follows them. *)
Fixpoint digits_prefix (s : string) : string * string :=
  match s with
  | String c s' =>
      if is_digit c
      then let '(run, rest) := digits_prefix s' in (String c run, rest)
      else (EmptyString, s)
  | EmptyString => (EmptyString, EmptyString)
  end.

Definition digit_value (c : ascii) : Z := Z.of_nat (nat_of_ascii c) - 48.

Fixpoint parseInt_acc (acc : Z) (digits : string) : Z :=
  match digits with
  | EmptyString => acc
  | String c ds => parseInt_acc (10 * acc + digit_value c) ds
  end.

(** [parseInt] of a non-empty run of decimal digits. *)
Definition parseInt (digits : string) : Z := parseInt_acc 0 digits.

Definition byte_is (n : nat) (c : ascii) : bool := (nat_of_ascii c =? n)%nat.

(** A line terminator (LF, CR, U+2028, U+2029) starts at [s]: the
    characters that [.] does not match. *)
Definition line_terminator_at (s : string) : bool :=
  match s with
  | String c (String c1 (String c2 _)) =>
      byte_is 10 c || byte_is 13 c ||
      (byte_is 226 c && byte_is 128 c1 && (byte_is 168 c2 || byte_is 169 c2))
  | String c _ => byte_is 10 c || byte_is 13 c
  | EmptyString => false
  end.

(** [.*\d] matches at the start of [s]. *)
Fixpoint digit_on_line (s : string) : bool :=
  match s with
  | EmptyString => false
  | String c s' =>
      if is_digit c then true
      else if line_terminator_at s then false
      else digit_on_line s'
  end.

(** [s.match(/(\d+)(?!.*\d)/)]: the first run of digits that no digit
    follows on its line; group 1 of the match. *)
Fixpoint last_number (s : string) : option string :=
  match s with
  | EmptyString => None
  | String c s' =>
      if is_digit c then
        let '(run, rest) := digits_prefix s in
        if digit_on_line rest then last_number s' else Some run
      else last_number s'
  end.

(** Number of bytes of the character of class [[_\s]] that starts [s],
    [0] when there is none. *)
Definition separator_width (s : string) : nat :=
  match s with
  | EmptyString => 0%nat
  | String c s1 =>
      let n := nat_of_ascii c in
      if ((n =? 95) || (n =? 32) || ((9 <=? n) && (n <=? 13)))%nat then 1%nat
      else match s1 with
      | String c1 s2 =>
          let n1 := nat_of_ascii c1 in
          if ((n =? 194) && (n1 =? 160))%nat then 2%nat
          else match s2 with
          | String c2 _ =>
              let n2 := nat_of_ascii c2 in
              if ((n =? 225) && (n1 =? 154) && (n2 =? 128))%nat then 3%nat
              else if ((n =? 226) && (n1 =? 128) &&
                       (((128 <=? n2) && (n2 <=? 138)) || (n2 =? 168) ||
                        (n2 =? 169) || (n2 =? 175)))%nat then 3%nat
              else if ((n =? 226) && (n1 =? 129) && (n2 =? 159))%nat then 3%nat
              else if ((n =? 227) && (n1 =? 128) && (n2 =? 128))%nat then 3%nat
              else if ((n =? 239) && (n1 =? 187) && (n2 =? 191))%nat then 3%nat
              else 0%nat
          | EmptyString => 0%nat
          end
      | EmptyString => 0%nat
      end
  end.

Fixpoint drop_bytes (n : nat) (s : string) : string :=
  match n, s with
  | S n', String _ s' => drop_bytes n' s'
  | _, _ => s
  end.

(** Greedy [[_\s]*]: what remains of [s] after it. *)
Fixpoint skip_separators (fuel : nat) (s : string) : string :=
  match fuel with
  | O => s
  | S fuel' =>
      match separator_width s with
      | O => s
      | w => skip_separators fuel' (drop_bytes w s)
      end
  end.

(** One alternative [kw] of [(SER|Seq|Series)[_\s]*(\d+)] tried at the
    start of [s]: group 2 when it matches. *)
Definition series_keyword (kw s : string) : option string :=
  if prefix_ci kw s then
    let rest := drop_bytes (String.length kw) s in
    let '(run, _) := digits_prefix (skip_separators (String.length rest) rest) in
    match run with
    | EmptyString => None
    | _ => Some run
    end
  else None.

Definition series_pattern_at (s : string) : option string :=
  match series_keyword "SER" s with
  | Some run => Some run
  | None =>
      match series_keyword "Seq" s with
      | Some run => Some run
      | None => series_keyword "Series" s
      end
  end.

(** [s.match(/(SER|Seq|Series)[_\s]*(\d+)/i)]: group 2 of the leftmost match. *)
Fixpoint series_pattern (s : string) : option string :=
  match series_pattern_at s with
  | Some run => Some run
  | None =>
      match s with
      | EmptyString => None
      | String _ s' => series_pattern s'
      end
  end.

(** ** Series detection *)

Record SeriesInfo := { info_name : string; info_number : Z }.

Definition detectSeriesFromFileName (fileName : string) : SeriesInfo :=
  if test_ci "T1" fileName || test_ci "T1_" fileName || test_ci "_T1" fileName then
    {| info_name := "T1加权像 (T1WI)"; info_number := 1 |}
  else if test_ci "T2" fileName || test_ci "T2_" fileName || test_ci "_T2" fileName then
    {| info_name := "T2加权像 (T2WI)"; info_number := 2 |}
  else if test_ci "FLAIR" fileName then
    {| info_name := "FLAIR序列"; info_number := 3 |}
  else if test_ci "DWI" fileName then
    {| info_name := "弥散加权像 (DWI)"; info_number := 4 |}
  else if test_ci "SWI" fileName then
    {| info_name := "磁敏感加权成像 (SWI)"; info_number := 5 |}
  else if test_ci "ADC" fileName then
    {| info_name := "ADC图"; info_number := 6 |}
  else
    match series_pattern fileName with
    | Some digits =>
        let num := parseInt digits in
        {| info_name := "序列 " +:+ pretty num; info_number := num |}
    | None => {| info_name := "未知序列"; info_number := 999 |}
    end.

(** ** Data model *)

(** What the browser makes of the bytes behind a resource: they load and
    decode, they load but [decode()] rejects, or loading fails ([onerror]). *)
Inductive ImageContent :=
  | Decodable
  | Undecodable
  | Unloadable.

(** An object URL, by its allocation number. *)
Definition Url := nat.

Module File.
Record t := { name : string; content : ImageContent }.
End File.

Module SeriesFrame.
Record t := {
  file : File.t;
  name : string;
  url : Url;
  frameNumber : Z;
  position : Z
}.
End SeriesFrame.

Module SeriesData.
Record t := {
  name : string;
  frames : list SeriesFrame.t;
  sliceThickness : Z;
  sliceSpacing : Z;
  positions : list Z
}.
End SeriesData.

(** An image held by the cache ([new Image()] after its [onload]). *)
Module Image.
Record t := { src : Url; complete : bool; decoded : bool }.
End Image.

(** One of the two [<img>] buffers of a viewer. *)
Module Buffer.
Record t := { src : option Url; opacity : option Z; active : bool }.

Definition show (u : option Url) (b : t) : t :=
  {| src := u; opacity := Some 1; active := active b |}.
Definition load (u : Url) (b : t) : t :=
  {| src := Some u; opacity := opacity b; active := active b |}.
Definition fade (o : Z) (b : t) : t :=
  {| src := src b; opacity := Some o; active := active b |}.
Definition classify (a : bool) (b : t) : t :=
  {| src := src b; opacity := opacity b; active := a |}.
End Buffer.

Module ViewerData.
Record t := {
  images : list Buffer.t;
  currentActive : nat;
  currentFrame : Z;
  currentPosition : Z;
  filenameDisplay : string
}.

Definition with_images (x : list Buffer.t) (v : t) : t :=
  {| images := x; currentActive := currentActive v; currentFrame := currentFrame v;
     currentPosition := currentPosition v; filenameDisplay := filenameDisplay v |}.
Definition with_currentActive (x : nat) (v : t) : t :=
  {| images := images v; currentActive := x; currentFrame := currentFrame v;
     currentPosition := currentPosition v; filenameDisplay := filenameDisplay v |}.
Definition with_currentFrame (x : Z) (v : t) : t :=
  {| images := images v; currentActive := currentActive v; currentFrame := x;
     currentPosition := currentPosition v; filenameDisplay := filenameDisplay v |}.
Definition with_currentPosition (x : Z) (v : t) : t :=
  {| images := images v; currentActive := currentActive v; currentFrame := currentFrame v;
     currentPosition := x; filenameDisplay := filenameDisplay v |}.
Definition with_filenameDisplay (x : string) (v : t) : t :=
  {| images := images v; currentActive := currentActive v; currentFrame := currentFrame v;
     currentPosition := currentPosition v; filenameDisplay := x |}.
End ViewerData.

(** [positionMap]: the global positions, the (always empty) [indexMap], and
    one position-to-frame-index table per series name.  In the source the
    tables are further properties of the same object; no series name that
    [detectSeriesFromFileName] produces is ["positions"] or ["indexMap"]. *)
Module PositionMap.
Record t := {
  positions : list Z;
  indexMap : gmap Z Z;
  tables : gmap string (gmap Z Z)
}.
End PositionMap.

Inductive SyncMode :=
  | FrameMode
  | PositionMode.

Global Instance SyncMode_eq_dec : EqDecision SyncMode.
Proof. solve_decision. Defined.

(** The variables that the [framePlayback] closure captures. *)
Module Playback.
Record t := { maxFrames : Z; delay : Q; lastTime : Q }.
End Playback.

(** The fields of the view, followed by the part of the browser it talks
    to: the object URLs handed out by [URL.createObjectURL], the image
    loads started so far, and the animation-frame callback that is
    scheduled, if any, with the next handle to hand out. *)
Record MRViewerView := {
  seriesData : gmap string SeriesData.t;
  activeViewers : gmap string ViewerData.t;
  imageCache : gmap Url Image.t;
  currentFrameIndex : Z;
  currentPosition : option Z;
  isPlaying : bool;
  playInterval : option nat;
  playbackSpeed : positive;
  syncEnabled : bool;
  syncMode : SyncMode;
  activeSeries : option string;
  lastWheelTime : Z;
  wheelDelta : Z;
  positionMap : PositionMap.t;
  objectUrls : list ImageContent;
  imageRequests : list Url;
  scheduledFrame : option Playback.t;
  nextHandle : nat
}.

Definition with_seriesData x st :=
  {| seriesData := x; activeViewers := activeViewers st; imageCache := imageCache st;
     currentFrameIndex := currentFrameIndex st; currentPosition := currentPosition st;
     isPlaying := isPlaying st; playInterval := playInterval st;
     playbackSpeed := playbackSpeed st; syncEnabled := syncEnabled st;
     syncMode := syncMode st; activeSeries := activeSeries st;
     lastWheelTime := lastWheelTime st; wheelDelta := wheelDelta st;
     positionMap := positionMap st; objectUrls := objectUrls st;
     imageRequests := imageRequests st; scheduledFrame := scheduledFrame st;
     nextHandle := nextHandle st |}.
Definition with_activeViewers x st :=
  {| seriesData := seriesData st; activeViewers := x; imageCache := imageCache st;
     currentFrameIndex := currentFrameIndex st; currentPosition := currentPosition st;
     isPlaying := isPlaying st; playInterval := playInterval st;
     playbackSpeed := playbackSpeed st; syncEnabled := syncEnabled st;
     syncMode := syncMode st; activeSeries := activeSeries st;
     lastWheelTime := lastWheelTime st; wheelDelta := wheelDelta st;
     positionMap := positionMap st; objectUrls := objectUrls st;
     imageRequests := imageRequests st; scheduledFrame := scheduledFrame st;
     nextHandle := nextHandle st |}.
Definition with_imageCache x st :=
  {| seriesData := seriesData st; activeViewers := activeViewers st; imageCache := x;
     currentFrameIndex := currentFrameIndex st; currentPosition := currentPosition st;
     isPlaying := isPlaying st; playInterval := playInterval st;
     playbackSpeed := playbackSpeed st; syncEnabled := syncEnabled st;
     syncMode := syncMode st; activeSeries := activeSeries st;
     lastWheelTime := lastWheelTime st; wheelDelta := wheelDelta st;
     positionMap := positionMap st; objectUrls := objectUrls st;
     imageRequests := imageRequests st; scheduledFrame := scheduledFrame st;
     nextHandle := nextHandle st |}.
Definition with_cursor (i : Z) (p : option Z) st :=
  {| seriesData := seriesData st; activeViewers := activeViewers st;
     imageCache := imageCache st;
     currentFrameIndex := i; currentPosition := p;
     isPlaying := isPlaying st; playInterval := playInterval st;
     playbackSpeed := playbackSpeed st; syncEnabled := syncEnabled st;
     syncMode := syncMode st; activeSeries := activeSeries st;
     lastWheelTime := lastWheelTime st; wheelDelta := wheelDelta st;
     positionMap := positionMap st; objectUrls := objectUrls st;
     imageRequests := imageRequests st; scheduledFrame := scheduledFrame st;
     nextHandle := nextHandle st |}.
Definition with_isPlaying x st :=
  {| seriesData := seriesData st; activeViewers := activeViewers st;
     imageCache := imageCache st;
     currentFrameIndex := currentFrameIndex st; currentPosition := currentPosition st;
     isPlaying := x; playInterval := playInterval st;
     playbackSpeed := playbackSpeed st; syncEnabled := syncEnabled st;
     syncMode := syncMode st; activeSeries := activeSeries st;
     lastWheelTime := lastWheelTime st; wheelDelta := wheelDelta st;
     positionMap := positionMap st; objectUrls := objectUrls st;
     imageRequests := imageRequests st; scheduledFrame := scheduledFrame st;
     nextHandle := nextHandle st |}.
Definition with_playInterval x st :=
  {| seriesData := seriesData st; activeViewers := activeViewers st;
     imageCache := imageCache st;
     currentFrameIndex := currentFrameIndex st; currentPosition := currentPosition st;
     isPlaying := isPlaying st; playInterval := x;
     playbackSpeed := playbackSpeed st; syncEnabled := syncEnabled st;
     syncMode := syncMode st; activeSeries := activeSeries st;
     lastWheelTime := lastWheelTime st; wheelDelta := wheelDelta st;
     positionMap := positionMap st; objectUrls := objectUrls st;
     imageRequests := imageRequests st; scheduledFrame := scheduledFrame st;
     nextHandle := nextHandle st |}.
Definition with_playbackSpeed x st :=
  {| seriesData := seriesData st; activeViewers := activeViewers st;
     imageCache := imageCache st;
     currentFrameIndex := currentFrameIndex st; currentPosition := currentPosition st;
     isPlaying := isPlaying st; playInterval := playInterval st;
     playbackSpeed := x; syncEnabled := syncEnabled st;
     syncMode := syncMode st; activeSeries := activeSeries st;
     lastWheelTime := lastWheelTime st; wheelDelta := wheelDelta st;
     positionMap := positionMap st; objectUrls := objectUrls st;
     imageRequests := imageRequests st; scheduledFrame := scheduledFrame st;
     nextHandle := nextHandle st |}.
Definition with_syncEnabled x st :=
  {| seriesData := seriesData st; activeViewers := activeViewers st;
     imageCache := imageCache st;
     currentFrameIndex := currentFrameIndex st; currentPosition := currentPosition st;
     isPlaying := isPlaying st; playInterval := playInterval st;
     playbackSpeed := playbackSpeed st; syncEnabled := x;
     syncMode := syncMode st; activeSeries := activeSeries st;
     lastWheelTime := lastWheelTime st; wheelDelta := wheelDelta st;
     positionMap := positionMap st; objectUrls := objectUrls st;
     imageRequests := imageRequests st; scheduledFrame := scheduledFrame st;
     nextHandle := nextHandle st |}.
Definition with_syncMode x st :=
  {| seriesData := seriesData st; activeViewers := activeViewers st;
     imageCache := imageCache st;
     currentFrameIndex := currentFrameIndex st; currentPosition := currentPosition st;
     isPlaying := isPlaying st; playInterval := playInterval st;
     playbackSpeed := playbackSpeed st; syncEnabled := syncEnabled st;
     syncMode := x; activeSeries := activeSeries st;
     lastWheelTime := lastWheelTime st; wheelDelta := wheelDelta st;
     positionMap := positionMap st; objectUrls := objectUrls st;
     imageRequests := imageRequests st; scheduledFrame := scheduledFrame st;
     nextHandle := nextHandle st |}.
Definition with_activeSeries x st :=
  {| seriesData := seriesData st; activeViewers := activeViewers st;
     imageCache := imageCache st;
     currentFrameIndex := currentFrameIndex st; currentPosition := currentPosition st;
     isPlaying := isPlaying st; playInterval := playInterval st;
     playbackSpeed := playbackSpeed st; syncEnabled := syncEnabled st;
     syncMode := syncMode st; activeSeries := x;
     lastWheelTime := lastWheelTime st; wheelDelta := wheelDelta st;
     positionMap := positionMap st; objectUrls := objectUrls st;
     imageRequests := imageRequests st; scheduledFrame := scheduledFrame st;
     nextHandle := nextHandle st |}.
Definition with_lastWheelTime x st :=
  {| seriesData := seriesData st; activeViewers := activeViewers st;
     imageCache := imageCache st;
     currentFrameIndex := currentFrameIndex st; currentPosition := currentPosition st;
     isPlaying := isPlaying st; playInterval := playInterval st;
     playbackSpeed := playbackSpeed st; syncEnabled := syncEnabled st;
     syncMode := syncMode st; activeSeries := activeSeries st;
     lastWheelTime := x; wheelDelta := wheelDelta st;
     positionMap := positionMap st; objectUrls := objectUrls st;
     imageRequests := imageRequests st; scheduledFrame := scheduledFrame st;
     nextHandle := nextHandle st |}.
Definition with_wheelDelta x st :=
  {| seriesData := seriesData st; activeViewers := activeViewers st;
     imageCache := imageCache st;
     currentFrameIndex := currentFrameIndex st; currentPosition := currentPosition st;
     isPlaying := isPlaying st; playInterval := playInterval st;
     playbackSpeed := playbackSpeed st; syncEnabled := syncEnabled st;
     syncMode := syncMode st; activeSeries := activeSeries st;
     lastWheelTime := lastWheelTime st; wheelDelta := x;
     positionMap := positionMap st; objectUrls := objectUrls st;
     imageRequests := imageRequests st; scheduledFrame := scheduledFrame st;
     nextHandle := nextHandle st |}.
Definition with_positionMap x st :=
  {| seriesData := seriesData st; activeViewers := activeViewers st;
     imageCache := imageCache st;
     currentFrameIndex := currentFrameIndex st; currentPosition := currentPosition st;
     isPlaying := isPlaying st; playInterval := playInterval st;
     playbackSpeed := playbackSpeed st; syncEnabled := syncEnabled st;
     syncMode := syncMode st; activeSeries := activeSeries st;
     lastWheelTime := lastWheelTime st; wheelDelta := wheelDelta st;
     positionMap := x; objectUrls := objectUrls st;
     imageRequests := imageRequests st; scheduledFrame := scheduledFrame st;
     nextHandle := nextHandle st |}.
Definition with_objectUrls x st :=
  {| seriesData := seriesData st; activeViewers := activeViewers st;
     imageCache := imageCache st;
     currentFrameIndex := currentFrameIndex st; currentPosition := currentPosition st;
     isPlaying := isPlaying st; playInterval := playInterval st;
     playbackSpeed := playbackSpeed st; syncEnabled := syncEnabled st;
     syncMode := syncMode st; activeSeries := activeSeries st;
     lastWheelTime := lastWheelTime st; wheelDelta := wheelDelta st;
     positionMap := positionMap st; objectUrls := x;
     imageRequests := imageRequests st; scheduledFrame := scheduledFrame st;
     nextHandle := nextHandle st |}.
Definition with_imageRequests x st :=
  {| seriesData := seriesData st; activeViewers := activeViewers st;
     imageCache := imageCache st;
     currentFrameIndex := currentFrameIndex st; currentPosition := currentPosition st;
     isPlaying := isPlaying st; playInterval := playInterval st;
     playbackSpeed := playbackSpeed st; syncEnabled := syncEnabled st;
     syncMode := syncMode st; activeSeries := activeSeries st;
     lastWheelTime := lastWheelTime st; wheelDelta := wheelDelta st;
     positionMap := positionMap st; objectUrls := objectUrls st;
     imageRequests := x; scheduledFrame := scheduledFrame st;
     nextHandle := nextHandle st |}.
Definition with_scheduledFrame x (h : nat) st :=
  {| seriesData := seriesData st; activeViewers := activeViewers st;
     imageCache := imageCache st;
     currentFrameIndex := currentFrameIndex st; currentPosition := currentPosition st;
     isPlaying := isPlaying st; playInterval := playInterval st;
     playbackSpeed := playbackSpeed st; syncEnabled := syncEnabled st;
     syncMode := syncMode st; activeSeries := activeSeries st;
     lastWheelTime := lastWheelTime st; wheelDelta := wheelDelta st;
     positionMap := positionMap st; objectUrls := objectUrls st;
     imageRequests := imageRequests st; scheduledFrame := x;
     nextHandle := h |}.

(** The view as its field initialisers leave it. *)
Definition initialView : MRViewerView :=
  {| seriesData := ∅; activeViewers := ∅; imageCache := ∅;
     currentFrameIndex := 0; currentPosition := Some 0;
     isPlaying := false; playInterval := None; playbackSpeed := 5%positive;
     syncEnabled := true; syncMode := FrameMode; activeSeries := None;
     lastWheelTime := 0; wheelDelta := 0;
     positionMap := {| PositionMap.positions := []; PositionMap.indexMap := ∅;
                       PositionMap.tables := ∅ |};
     objectUrls := []; imageRequests := []; scheduledFrame := None;
     nextHandle := 1%nat |}.

(** ** Position index ([createPositionMap]) *)

(** [[...new Set(xs)]]: the distinct values of [xs], each at its first
    occurrence. *)
Fixpoint set_of (seen xs : list Z) : list Z :=
  match xs with
  | [] => []
  | x :: xs' =>
      if bool_decide (x ∈ seen) then set_of seen xs'
      else x :: set_of (x :: seen) xs'
  end.

Fixpoint insert_sorted (x : Z) (xs : list Z) : list Z :=
  match xs with
  | [] => [x]
  | y :: xs' => if x <=? y then x :: xs else y :: insert_sorted x xs'
  end.

(** [xs.sort((a, b) => a - b)]. *)
Definition sort_numeric (xs : list Z) : list Z := foldr insert_sorted [] xs.

(** The loop [for (i = 0; i < positions.length; i++) table[positions[i]] = i],
    started at index [i] with [table]. *)
Fixpoint fill_table (i : Z) (positions : list Z) (table : gmap Z Z) : gmap Z Z :=
  match positions with
  | [] => table
  | p :: positions' => fill_table (i + 1) positions' (<[p := i]> table)
  end.

Definition positionTable (positions : list Z) : gmap Z Z :=
  fill_table 0 positions ∅.

Definition allPositions (series : gmap string SeriesData.t) : list Z :=
  map_fold (λ _ s acc, acc ++ SeriesData.positions s) [] series.

Definition createPositionMap (st : MRViewerView) : MRViewerView :=
  let uniquePositions := sort_numeric (set_of [] (allPositions (seriesData st))) in
  let tables :=
    map_fold (λ seriesName s tbls, <[seriesName := positionTable (SeriesData.positions s)]> tbls)
             (PositionMap.tables (positionMap st)) (seriesData st) in
  with_positionMap
    {| PositionMap.positions := uniquePositions;
       PositionMap.indexMap := ∅;
       PositionMap.tables := tables |} st.

(** ** Image cache ([preloadImage]) *)

(** How a promise ends. *)
Inductive Settled :=
  | Resolved
  | Rejected.

(** [this.imageCache[url] && this.imageCache[url].complete]. *)
Definition cacheReady (st : MRViewerView) (url : Url) : bool :=
  match imageCache st !! url with
  | Some img => Image.complete img
  | None => false
  end.

Definition preloadImage (url : Url) (st : MRViewerView) : MRViewerView * Settled :=
  if cacheReady st url then (st, Resolved)
  else
    let st := with_imageRequests (imageRequests st ++ [url]) st in
    match objectUrls st !! url with
    | Some Decodable =>
        let img := {| Image.src := url; Image.complete := true; Image.decoded := true |} in
        (with_imageCache (<[url := img]> (imageCache st)) st, Resolved)
    | Some Undecodable =>
        let img := {| Image.src := url; Image.complete := true; Image.decoded := false |} in
        (with_imageCache (<[url := img]> (imageCache st)) st, Resolved)
    | Some Unloadable | None => (st, Resolved)
    end.

(** ** Series catalogue ([processSeriesFiles], [handleFileSelect], [loadFile]) *)

Definition frameNumberOf (f : File.t) : Z :=
  match last_number (File.name f) with
  | Some digits => parseInt digits
  | None => 0
  end.

Fixpoint insert_by_number (x : File.t * Z) (xs : list (File.t * Z)) : list (File.t * Z) :=
  match xs with
  | [] => [x]
  | y :: xs' => if x.2 <=? y.2 then x :: xs else y :: insert_by_number x xs'
  end.

(** [framesWithNumbers.sort((a, b) => a.frameNumber - b.frameNumber)]:
    ascending and stable. *)
Definition sort_by_number (xs : list (File.t * Z)) : list (File.t * Z) :=
  foldr insert_by_number [] xs.

(** [URL.createObjectURL(file)]. *)
Definition createObjectURL (f : File.t) (st : MRViewerView) : Url * MRViewerView :=
  (length (objectUrls st), with_objectUrls (objectUrls st ++ [File.content f]) st).

(** One call of the callback of [framesWithNumbers.map] in
    [processSeriesFiles], with the [frames] pushed so far.  The source
    pushes [frame.position] onto [positions] with every frame;
    [processSeriesFiles] below takes [positions] from the frames. *)
Definition addFrame (acc : list SeriesFrame.t * MRViewerView) (x : File.t * Z)
  : list SeriesFrame.t * MRViewerView :=
  let '(frames, st) := acc in
  let '(url, st) := createObjectURL x.1 st in
  let frame := {| SeriesFrame.file := x.1;
                  SeriesFrame.name := File.name x.1;
                  SeriesFrame.url := url;
                  SeriesFrame.frameNumber := x.2;
                  SeriesFrame.position := Z.of_nat (length frames) * 5 |} in
  (frames ++ [frame], (preloadImage url st).1).

Definition processSeriesFiles (seriesName : string) (files : list File.t)
    (st : MRViewerView) : MRViewerView :=
  let framesWithNumbers := sort_by_number (map (λ f, (f, frameNumberOf f)) files) in
  let '(frames, st) := foldl addFrame ([], st) framesWithNumbers in
  let series := {| SeriesData.name := seriesName;
                   SeriesData.frames := frames;
                   SeriesData.sliceThickness := 5;
                   SeriesData.sliceSpacing := 5;
                   SeriesData.positions := map SeriesFrame.position frames |} in
  createPositionMap (with_seriesData (<[seriesName := series]> (seriesData st)) st).

(** [seriesGroups[name].push(file)], creating the group when it is new;
    groups stay in the order in which they were created. *)
Fixpoint group_push (seriesName : string) (f : File.t)
    (groups : list (string * list File.t)) : list (string * list File.t) :=
  match groups with
  | [] => [(seriesName, [f])]
  | g :: groups' =>
      if bool_decide (g.1 = seriesName) then (g.1, g.2 ++ [f]) :: groups'
      else g :: group_push seriesName f groups'
  end.

Definition groupFiles (files : list File.t) : list (string * list File.t) :=
  foldl (λ groups f, group_push (info_name (detectSeriesFromFileName (File.name f))) f groups)
        [] files.

(** ** Frame display ([updateSeriesFrame], [showFrame]) *)

(** What a handler asks of the renderer: a frame switch of one viewer, or
    nothing because the update threw (its promise rejects). *)
Inductive Effect :=
  | SwitchImage (seriesName : string) (frameUrl : Url) (currentActive nextActive : nat)
  | Threw (seriesName : string).

Definition is_switch (e : Effect) : bool :=
  match e with
  | SwitchImage _ _ _ _ => true
  | Threw _ => false
  end.

(** The number of frame transitions among [effects]. *)
Definition transitions (effects : list Effect) : nat :=
  length (filter (λ e, is_switch e = true) effects).

Definition Action := MRViewerView → MRViewerView * list Effect.

Definition andThen (a b : Action) : Action :=
  λ st, let '(st1, e1) := a st in
        let '(st2, e2) := b st1 in
        (st2, e1 ++ e2).

Definition skip : Action := λ st, (st, []).

(** The frame a viewer is to display, as [updateSeriesFrame] decides it. *)
Inductive Resolution :=
  | Display (displayFrameIndex : Z)
  | Keep
  | Throws.

Definition resolveFrameIndex (st : MRViewerView) (seriesName : string)
    (series : SeriesData.t) (frameIndex : Z) (forceUpdate : bool) : Resolution :=
  if syncEnabled st && bool_decide (syncMode st = PositionMode) then
    let position := js_index (PositionMap.positions (positionMap st)) frameIndex in
    match PositionMap.tables (positionMap st) !! seriesName with
    | None => Throws
    | Some table => Display (default 0 (position ≫= λ p, table !! p))
    end
  else if syncEnabled st then
    Display (Z.min frameIndex (Z.of_nat (length (SeriesData.frames series)) - 1))
  else if forceUpdate then
    Display (Z.min frameIndex (Z.of_nat (length (SeriesData.frames series)) - 1))
  else Keep.

Definition updateSeriesFrame (seriesName : string) (frameIndex : Z)
    (forceUpdate : bool) : Action := λ st,
  match activeViewers st !! seriesName, seriesData st !! seriesName with
  | Some viewer, Some series =>
      match resolveFrameIndex st seriesName series frameIndex forceUpdate with
      | Keep => (st, [])
      | Throws => (st, [Threw seriesName])
      | Display displayFrameIndex =>
          if negb forceUpdate && (ViewerData.currentFrame viewer =? displayFrameIndex)
          then (st, [])
          else
            let viewer :=
              ViewerData.with_currentPosition
                (default 0 (js_index (SeriesData.positions series) displayFrameIndex))
                (ViewerData.with_currentFrame displayFrameIndex viewer) in
            match js_index (SeriesData.frames series) displayFrameIndex with
            | None =>
                (with_activeViewers (<[seriesName := viewer]> (activeViewers st)) st,
                 [Threw seriesName])
            | Some frameObj =>
                let nextActive := ((ViewerData.currentActive viewer + 1) mod 2)%nat in
                let viewer :=
                  ViewerData.with_filenameDisplay (SeriesFrame.name frameObj) viewer in
                (with_activeViewers (<[seriesName := viewer]> (activeViewers st)) st,
                 [SwitchImage seriesName (SeriesFrame.url frameObj)
                              (ViewerData.currentActive viewer) nextActive])
            end
      end
  | _, _ => (st, [])
  end.

(** The index [showFrame] settles on: wrapped when [allowLoop], clamped
    otherwise. *)
Definition boundFrameIndex (frameIndex : JsNum) (allowLoop : bool) (maxFrames : Z) : Z :=
  if allowLoop then
    match frameIndex with
    | Num f => if f <? 0 then maxFrames - 1 else if f >=? maxFrames then 0 else f
    | Infinity => 0
    end
  else
    match frameIndex with
    | Num f => Z.max 0 (Z.min f (maxFrames - 1))
    | Infinity => Z.max 0 (maxFrames - 1)
    end.

(** A string used as a condition: [null] and the empty string are falsy. *)
Definition truthy (name : option string) : option string :=
  match name with
  | Some EmptyString => None
  | other => other
  end.

Definition showFrame (frameIndex : JsNum) (allowLoop : bool)
    (targetSeries : option string) : Action := λ st,
  let maxFrames := Z.of_nat (length (PositionMap.positions (positionMap st))) in
  let frameIndex := boundFrameIndex frameIndex allowLoop maxFrames in
  let st := with_cursor frameIndex
              (js_index (PositionMap.positions (positionMap st)) frameIndex) st in
  if syncEnabled st then
    map_fold (λ seriesName _ acc, andThen acc (updateSeriesFrame seriesName frameIndex false))
             skip (activeViewers st) st
  else
    match truthy targetSeries with
    | Some target => updateSeriesFrame target frameIndex true st
    | None => (st, [])
    end.

(** ** Double-buffered frame switch ([switchImage]) *)

(** The buffer swap at the end of a switch: the next buffer gets the image
    and becomes visible and active, the current one is hidden, and the
    viewer's active slot flips. *)
Definition swapBuffers (seriesName : string) (frameUrl : Url)
    (currentActive nextActive : nat) (st : MRViewerView) : MRViewerView :=
  let swap viewer :=
    let images := alter (Buffer.fade 0) currentActive
                    (alter (λ b, Buffer.fade 1 (Buffer.load frameUrl b)) nextActive
                       (ViewerData.images viewer)) in
    let images := alter (Buffer.classify true) nextActive
                    (alter (Buffer.classify false) currentActive images) in
    ViewerData.with_currentActive nextActive (ViewerData.with_images images viewer) in
  with_activeViewers (alter swap seriesName (activeViewers st)) st.

(** [switchImage]: swap when the image is ready, otherwise preload and try
    again.  [retries] bounds the number of preloads; [None] means the
    bound was reached before the swap. *)
Fixpoint switchImage (retries : nat) (seriesName : string) (frameUrl : Url)
    (currentActive nextActive : nat) (st : MRViewerView) : option MRViewerView :=
  if cacheReady st frameUrl
  then Some (swapBuffers seriesName frameUrl currentActive nextActive st)
  else
    match retries with
    | O => None
    | S retries' =>
        switchImage retries' seriesName frameUrl currentActive nextActive
                    (preloadImage frameUrl st).1
    end.

(** Carries out the requested switches after the synchronous part of a
    handler.  One retry decides a switch (see [switchImage_decided]); a
    switch that cannot complete leaves the view as its first preload does. *)
Definition runEffect (st : MRViewerView) (e : Effect) : MRViewerView :=
  match e with
  | SwitchImage seriesName frameUrl currentActive nextActive =>
      match switchImage 1 seriesName frameUrl currentActive nextActive st with
      | Some st' => st'
      | None => (preloadImage frameUrl st).1
      end
  | Threw _ => st
  end.

Definition settle (r : MRViewerView * list Effect) : MRViewerView :=
  foldl runEffect r.1 r.2.

(** ** Navigation ([showPreviousFrame], [showNextFrame]) *)

Definition showPreviousFrame (allowLoop : bool) (targetSeries : option string) : Action :=
  λ st,
  if syncEnabled st then
    let maxFrames := Z.of_nat (length (PositionMap.positions (positionMap st))) in
    let newIndex := currentFrameIndex st - 1 in
    let newIndex :=
      if allowLoop then (if newIndex <? 0 then maxFrames - 1 else newIndex)
      else Z.max 0 newIndex in
    showFrame newIndex allowLoop None st
  else
    match truthy targetSeries with
    | Some target =>
        match activeViewers st !! target, seriesData st !! target with
        | Some viewer, Some series =>
            let newIndex := ViewerData.currentFrame viewer - 1 in
            let newIndex :=
              if allowLoop
              then (if newIndex <? 0
                    then Z.of_nat (length (SeriesData.frames series)) - 1 else newIndex)
              else Z.max 0 newIndex in
            let st := with_cursor newIndex
                        (js_index (SeriesData.positions series) newIndex) st in
            updateSeriesFrame target newIndex true st
        | _, _ => (st, [])
        end
    | None => (st, [])
    end.

Definition showNextFrame (allowLoop : bool) (targetSeries : option string) : Action :=
  λ st,
  if syncEnabled st then
    let maxFrames := Z.of_nat (length (PositionMap.positions (positionMap st))) in
    let newIndex := currentFrameIndex st + 1 in
    let newIndex :=
      if allowLoop then (if newIndex >=? maxFrames then 0 else newIndex)
      else Z.min (maxFrames - 1) newIndex in
    showFrame newIndex allowLoop None st
  else
    match truthy targetSeries with
    | Some target =>
        match activeViewers st !! target, seriesData st !! target with
        | Some viewer, Some series =>
            let newIndex := ViewerData.currentFrame viewer + 1 in
            let newIndex :=
              if allowLoop
              then (if newIndex >=? Z.of_nat (length (SeriesData.frames series))
                    then 0 else newIndex)
              else Z.min (Z.of_nat (length (SeriesData.frames series)) - 1) newIndex in
            let st := with_cursor newIndex
                        (js_index (SeriesData.positions series) newIndex) st in
            updateSeriesFrame target newIndex true st
        | _, _ => (st, [])
        end
    | None => (st, [])
    end.

(** ** Viewers ([createSeriesViewers]) and loading *)

Definition newViewer (series : SeriesData.t) : ViewerData.t :=
  let first := head (SeriesData.frames series) in
  let front := {| Buffer.src := None; Buffer.opacity := None; Buffer.active := true |} in
  let back := {| Buffer.src := None; Buffer.opacity := None; Buffer.active := false |} in
  {| ViewerData.images :=
       [ match first with
         | Some firstFrame => Buffer.show (Some (SeriesFrame.url firstFrame)) front
         | None => front
         end; back ];
     ViewerData.currentActive := 0;
     ViewerData.currentFrame := 0;
     ViewerData.currentPosition := 0;
     ViewerData.filenameDisplay :=
       match first with
       | Some firstFrame => SeriesFrame.name firstFrame
       | None => EmptyString
       end |}.

(** One viewer per series (the source orders them by the first number in
    the series name, which only orders the grid), then [showFrame(0, false)]. *)
Definition createSeriesViewers : Action := λ st,
  let viewers :=
    map_fold (λ seriesName series av, <[seriesName := newViewer series]> av)
             (activeViewers st) (seriesData st) in
  showFrame 0 false None (with_activeViewers viewers st).

(** [handleFileSelect] for the chosen [files]. *)
Definition handleFileSelect (files : list File.t) : Action := λ st,
  match files with
  | [] => (st, [])
  | _ =>
      let st := with_activeSeries None
                  (with_imageCache ∅ (with_activeViewers ∅ (with_seriesData ∅ st))) in
      let st := foldl (λ st g, processSeriesFiles g.1 g.2 st) st (groupFiles files) in
      andThen createSeriesViewers (showFrame 0 false None) st
  end.

(** A file of the vault: its name and, when it can be read, its content. *)
Module TFile.
Record t := { name : string; data : option ImageContent }.
End TFile.

(** [loadFile]: a failed read is caught and leaves the view as it is. *)
Definition loadFile (f : TFile.t) : Action := λ st,
  match TFile.data f with
  | None => (st, [])
  | Some content =>
      let imageFile := {| File.name := TFile.name f; File.content := content |} in
      let '(url, st) := createObjectURL imageFile st in
      let frame := {| SeriesFrame.file := imageFile;
                      SeriesFrame.name := TFile.name f;
                      SeriesFrame.url := url;
                      SeriesFrame.frameNumber := 0;
                      SeriesFrame.position := 0 |} in
      let seriesName := info_name (detectSeriesFromFileName (TFile.name f)) in
      let series := {| SeriesData.name := seriesName;
                       SeriesData.frames := [frame];
                       SeriesData.sliceThickness := 5;
                       SeriesData.sliceSpacing := 5;
                       SeriesData.positions := [0] |} in
      let st := with_seriesData (<[seriesName := series]> (seriesData st)) st in
      andThen createSeriesViewers (showFrame 0 false None) st
  end.

(** ** Synchronisation options ([createSyncOptions]) and selection *)

Definition viewerValues {A} (f : ViewerData.t → A) (st : MRViewerView) : list A :=
  f <$> (map_to_list (activeViewers st)).*2.

(** [showFrame(n)] after the assignment [this.currentFrameIndex = n], which
    [showFrame] overwrites before anything reads it. *)
Definition showFrameAt (n : JsNum) : Action := showFrame n false None.

(** The [change] handler of the frame radio button (it fires when the
    button becomes checked). *)
Definition onFrameSyncChange : Action := λ st,
  let st := with_syncMode FrameMode st in
  if syncEnabled st
  then showFrameAt (js_min (viewerValues ViewerData.currentFrame st)) st
  else (st, []).

(** The [change] handler of the position radio button; its assignment to
    [this.currentPosition] is overwritten by [showFrame]. *)
Definition onPositionSyncChange : Action := λ st,
  let st := with_syncMode PositionMode st in
  if syncEnabled st
  then showFrame (currentFrameIndex st) false None st
  else (st, []).

(** The [change] handler of the synchronisation check box. *)
Definition onSyncEnableChange (checked : bool) : Action := λ st,
  let st := with_syncEnabled checked st in
  if syncEnabled st then
    let st := with_activeSeries None st in
    showFrameAt (js_min (viewerValues ViewerData.currentFrame st)) st
  else (st, []).

Definition handleSeriesSelect (seriesName : string) (st : MRViewerView) : MRViewerView :=
  if negb (syncEnabled st) then
    let st := with_activeSeries (Some seriesName) st in
    match activeViewers st !! seriesName with
    | Some viewer =>
        with_cursor (ViewerData.currentFrame viewer)
                    (Some (ViewerData.currentPosition viewer)) st
    | None => st
    end
  else st.

(** ** Wheel stepping ([handleWheelScroll])

    [now] is [Date.now()] in milliseconds; [deltaY] is taken as an integer. *)
Definition handleWheelScroll (now deltaY : Z) (seriesName : string) : Action := λ st,
  if now - lastWheelTime st <? 30 then (st, [])
  else
    let st := with_lastWheelTime now st in
    let st := with_wheelDelta (wheelDelta st + deltaY) st in
    if Z.abs (wheelDelta st) >? 30 then
      let '(st, effects) :=
        if wheelDelta st >? 0 then showNextFrame true (Some seriesName) st
        else showPreviousFrame true (Some seriesName) st in
      (with_wheelDelta 0 st, effects)
    else (st, []).

(** ** Playback ([togglePlayback], [startPlayback], [stopPlayback]) *)

(** [x % d] for [0 <= x] and [0 < d]. *)
Definition js_mod (x d : Q) : Q := (x - d * inject_Z (Qfloor (x / d)))%Q.

(** [requestAnimationFrame(framePlayback)] with the closure [c], and the
    assignment of its handle to [this.playInterval]. *)
Definition requestFrame (c : Playback.t) (st : MRViewerView) : MRViewerView :=
  with_playInterval (Some (nextHandle st))
    (with_scheduledFrame (Some c) (S (nextHandle st)) st).

(** [if (this.playInterval) cancelAnimationFrame(this.playInterval)]. *)
Definition cancelFrame (st : MRViewerView) : MRViewerView :=
  match playInterval st with
  | Some (S _) => with_scheduledFrame None (nextHandle st) st
  | _ => st
  end.

Definition stopPlayback (st : MRViewerView) : MRViewerView :=
  match playInterval st with
  | Some (S _) => with_playInterval None (cancelFrame st)
  | _ => st
  end.

(** [startPlayback] when [performance.now()] reads [now]. *)
Definition startPlayback (now : Q) (st : MRViewerView) : MRViewerView :=
  let st := cancelFrame st in
  let maxFrames := Z.of_nat (length (PositionMap.positions (positionMap st))) in
  if maxFrames =? 0 then stopPlayback st
  else
    requestFrame {| Playback.maxFrames := maxFrames;
                    Playback.delay := (1000 / inject_Z (Z.pos (playbackSpeed st)))%Q;
                    Playback.lastTime := now |} st.

Definition togglePlayback (now : Q) (st : MRViewerView) : MRViewerView :=
  let st := with_isPlaying (negb (isPlaying st)) st in
  if isPlaying st then startPlayback now st else stopPlayback st.

(** The pacing test of [framePlayback]: the callback at [time] fires when
    the time elapsed since [lastTime] has reached [delay]. *)
Definition fires (c : Playback.t) (time : Q) : bool :=
  Qle_bool (Playback.delay c) (time - Playback.lastTime c)%Q.

(** The closure after a callback at [time]: when it fires, [lastTime]
    becomes [time - (elapsed % delay)]. *)
Definition paced (c : Playback.t) (time : Q) : Playback.t :=
  if fires c time then
    let elapsed := (time - Playback.lastTime c)%Q in
    {| Playback.maxFrames := Playback.maxFrames c;
       Playback.delay := Playback.delay c;
       Playback.lastTime := (time - js_mod elapsed (Playback.delay c))%Q |}
  else c.

(** The frame advance of a callback that fires; [None] when it throws
    (the active series has no viewer). *)
Definition advance (c : Playback.t) (st : MRViewerView)
  : option (MRViewerView * list Effect) :=
  if syncEnabled st then
    if currentFrameIndex st >=? Playback.maxFrames c - 1
    then Some (showFrame 0 false None st)
    else Some (showNextFrame false None st)
  else
    match truthy (activeSeries st) with
    | Some active =>
        match activeViewers st !! active with
        | Some viewer =>
            if ViewerData.currentFrame viewer >=? Playback.maxFrames c - 1
            then Some (showFrame 0 false (Some active) st)
            else Some (showNextFrame false (Some active) st)
        | None => None
        end
    | None => Some (st, [])
    end.

(** The callback [framePlayback] of the closure [c], called at [time]. *)
Definition framePlayback (c : Playback.t) (time : Q) : Action := λ st,
  if negb (isPlaying st) then (st, [])
  else
    let result := if fires c time then advance c st else Some (st, []) in
    match result with
    | Some (st, effects) => (requestFrame (paced c time) st, effects)
    | None => (st, [])
    end.


(** ** Events *)

Inductive Event :=
  | FileSelect (files : list File.t)
  | LoadFile (f : TFile.t)
  | FrameSyncRadio
  | PositionSyncRadio
  | SyncCheckbox (checked : bool)
  | SeriesClick (seriesName : string)
  | Wheel (now deltaY : Z) (seriesName : string)
  | PreviousButton
  | NextButton
  | FrameSlider (value : Z)
  | SpeedSlider (value : positive) (now : Q)
  | PlayPauseButton (now : Q)
  | AnimationFrame (time : Q).

(** The target the buttons and arrow keys pass:
    [this.syncEnabled ? null : this.activeSeries]. *)
Definition buttonTarget (st : MRViewerView) : option string :=
  if syncEnabled st then None else activeSeries st.

Definition handle (e : Event) : Action := λ st,
  match e with
  | FileSelect files => handleFileSelect files st
  | LoadFile f => loadFile f st
  | FrameSyncRadio => onFrameSyncChange st
  | PositionSyncRadio => onPositionSyncChange st
  | SyncCheckbox checked => onSyncEnableChange checked st
  | SeriesClick seriesName => (handleSeriesSelect seriesName st, [])
  | Wheel now deltaY seriesName => handleWheelScroll now deltaY seriesName st
  | PreviousButton => showPreviousFrame true (buttonTarget st) st
  | NextButton => showNextFrame true (buttonTarget st) st
  | FrameSlider value => showFrame (value - 1) false None st
  | SpeedSlider value now =>
      let st := with_playbackSpeed value st in
      if isPlaying st then (startPlayback now (stopPlayback st), []) else (st, [])
  | PlayPauseButton now => (togglePlayback now st, [])
  | AnimationFrame time =>
      match scheduledFrame st with
      | Some c => framePlayback c time (with_scheduledFrame None (nextHandle st) st)
      | None => (st, [])
      end
  end.

Definition step (st : MRViewerView) (e : Event) : MRViewerView := settle (handle e st).

Definition run (events : list Event) : MRViewerView := foldl step initialView events.

(** The states the view can be in. *)
Definition reachable (st : MRViewerView) : Prop := ∃ events, st = run events.

(** ** Auxiliary definitions used by the statements and proofs *)

(** What [updateSeriesFrame] does to the viewer of [seriesName], given
    that viewer: the part of the function after the two look-ups. *)
Definition displayUpdate (st : MRViewerView) (seriesName : string) (frameIndex : Z)
    (forceUpdate : bool) (viewer : ViewerData.t) : ViewerData.t * list Effect :=
  match seriesData st !! seriesName with
  | None => (viewer, [])
  | Some series =>
      match resolveFrameIndex st seriesName series frameIndex forceUpdate with
      | Keep => (viewer, [])
      | Throws => (viewer, [Threw seriesName])
      | Display displayFrameIndex =>
          if negb forceUpdate && (ViewerData.currentFrame viewer =? displayFrameIndex)
          then (viewer, [])
          else
            let viewer' :=
              ViewerData.with_currentPosition
                (default 0 (js_index (SeriesData.positions series) displayFrameIndex))
                (ViewerData.with_currentFrame displayFrameIndex viewer) in
            match js_index (SeriesData.frames series) displayFrameIndex with
            | None => (viewer', [Threw seriesName])
            | Some frameObj =>
                (ViewerData.with_filenameDisplay (SeriesFrame.name frameObj) viewer',
                 [SwitchImage seriesName (SeriesFrame.url frameObj)
                    (ViewerData.currentActive viewer')
                    ((ViewerData.currentActive viewer' + 1) mod 2)%nat])
            end
      end
  end.

(** The loop of [showFrame] over the viewers [m] in synchronised mode. *)
Definition updateAll (frameIndex : Z) (m : gmap string ViewerData.t) : Action :=
  map_fold (λ seriesName _ acc, andThen acc (updateSeriesFrame seriesName frameIndex false))
           skip m.

(** The frame a viewer displays. *)
Definition displayedFrame (st : MRViewerView) (seriesName : string) : option Z :=
  ViewerData.currentFrame <$> activeViewers st !! seriesName.

(** The example of the specification: five T1 files and three T2 files
    selected together. *)
Definition jpg (name : string) : File.t :=
  {| File.name := name; File.content := Decodable |}.

Definition exampleFiles : list File.t :=
  jpg <$> ["T1_01.jpg"; "T1_02.jpg"; "T1_03.jpg"; "T1_04.jpg"; "T1_05.jpg";
           "T2_01.jpg"; "T2_02.jpg"; "T2_03.jpg"]%string.

Definition T1WI : string := "T1加权像 (T1WI)".
Definition T2WI : string := "T2加权像 (T2WI)".

(** Position mode chosen right after loading, then the slider moved to
    its fifth stop (global index 4). *)
Definition exampleBySlider : MRViewerView :=
  run [FileSelect exampleFiles; PositionSyncRadio; FrameSlider 5].



(** The number of global positions ([this.positionMap.positions.length]). *)
Definition globalCount (st : MRViewerView) : Z :=
  Z.of_nat (length (PositionMap.positions (positionMap st))).

(** Two states that differ in what a frame switch may touch only: the
    image cache, the log of image requests, and the buffers and active
    slot of the viewers. *)
Definition sameDisplay (st st' : MRViewerView) : Prop :=
  (∃ av cache requests,
     st' = with_activeViewers av (with_imageCache cache (with_imageRequests requests st))) ∧
  ∀ n, displayedFrame st' n = displayedFrame st n.

(** An action that moves the cursor and the viewers only. *)
Definition movesOnly (a : Action) : Prop :=
  ∀ st, ∃ av i p, (a st).1 = with_activeViewers av (with_cursor i p st).



(** The position index is up to date: rebuilding it from the present
    series would not change it. *)
Definition positionIndexCurrent (st : MRViewerView) : Prop :=
  positionMap (createPositionMap st) = positionMap st.

(** The [positions] of a series are the positions of its frames, in order. *)
Definition seriesConsistent (series : SeriesData.t) : Prop :=
  SeriesData.positions series = SeriesFrame.position <$> SeriesData.frames series.

(** Every series keeps [positions] equal to the positions of its frames. *)
Definition catalogueConsistent (st : MRViewerView) : Prop :=
  map_Forall (λ _ series, seriesConsistent series) (seriesData st).



(** Synchronisation switched off and the T1 series selected, after the
    example files were loaded. *)
Definition exampleUnsynced : MRViewerView :=
  run [FileSelect exampleFiles; SyncCheckbox false; SeriesClick T1WI].


(** A batch whose second image cannot be loaded. *)
Definition brokenFiles : list File.t :=
  [ jpg "T1_01.jpg"; {| File.name := "T1_02.jpg"; File.content := Unloadable |} ].

Definition brokenView : MRViewerView := run [FileSelect brokenFiles].

(** One file of the vault opened in a fresh view, and after the example
    batch. *)
Definition singleFile : TFile.t :=
  {| TFile.name := "T1_01.jpg"; TFile.data := Some Decodable |}.

Definition loadedAlone : MRViewerView := run [LoadFile singleFile].

Definition loadedAfterBatch : MRViewerView :=
  run [FileSelect exampleFiles; LoadFile singleFile].


(** A file of the vault whose image loads but cannot be decoded, opened
    in a fresh view ([loadFile] does not preload it). *)
Definition undecodableFile : TFile.t :=
  {| TFile.name := "T2_scan.jpg"; TFile.data := Some Undecodable |}.

Definition loadedUndecodable : MRViewerView := run [LoadFile undecodableFile].

(** ** Auxiliary definitions for the properties of the catalogue *)

(** [a] and [b] are the same text up to the case of ASCII letters. *)
Fixpoint same_ci (a b : string) : Prop :=
  match a, b with
  | EmptyString, EmptyString => True
  | String x a', String y b' => upper x = upper y ∧ same_ci a' b'
  | _, _ => False
  end.

(** [s] contains [pat] somewhere, up to the case of ASCII letters. *)
Definition contains_ci (pat s : string) : Prop :=
  ∃ pre mid post, s = pre +:+ mid +:+ post ∧ same_ci pat mid.

(** All characters of [s] satisfy [P]. *)
Fixpoint all_chars (P : ascii → Prop) (s : string) : Prop :=
  match s with
  | EmptyString => True
  | String c s' => P c ∧ all_chars P s'
  end.




(** The frame [processSeriesFiles] builds for the file [x] that is number
    [index] of the sorted list and gets the object URL [url]. *)
Definition frameAt (url index : nat) (x : File.t * Z) : SeriesFrame.t :=
  {| SeriesFrame.file := x.1;
     SeriesFrame.name := File.name x.1;
     SeriesFrame.url := url;
     SeriesFrame.frameNumber := x.2;
     SeriesFrame.position := Z.of_nat index * 5 |}.

(** The files of a series as [processSeriesFiles] orders them. *)
Definition sortedFiles (files : list File.t) : list (File.t * Z) :=
  sort_by_number (map (λ f, (f, frameNumberOf f)) files).

(** The series name detected for a file. *)
Definition seriesOf (f : File.t) : string :=
  info_name (detectSeriesFromFileName (File.name f)).


(** ** Statements about the viewers *)

Definition isLoadFile (e : Event) : bool :=
  match e with
  | LoadFile _ => true
  | _ => false
  end.

(** A series laid out as [processSeriesFiles] does: it has a frame, and
    the frame of index [i] lies at position [5 * i]. *)
Definition evenlySpaced (series : SeriesData.t) : Prop :=
  SeriesData.frames series ≠ [] ∧
  ∀ (i : nat) fr, SeriesData.frames series !! i = Some fr →
                  SeriesFrame.position fr = Z.of_nat i * 5.

(** The viewer stands on an existing frame of [series] and carries the
    file name and the position of that frame. *)
Definition showsFrameOf (series : SeriesData.t) (viewer : ViewerData.t) : Prop :=
  ∃ (i : nat) fr,
    ViewerData.currentFrame viewer = Z.of_nat i ∧
    SeriesData.frames series !! i = Some fr ∧
    ViewerData.filenameDisplay viewer = SeriesFrame.name fr ∧
    ViewerData.currentPosition viewer = SeriesFrame.position fr.

(** The viewers agree with the catalogue: the position index is up to
    date, the series are consistent and evenly spaced, every series has a
    viewer and every viewer a series, and each viewer stands on a frame of
    its series. *)
Definition viewersInStep (st : MRViewerView) : Prop :=
  positionIndexCurrent st ∧
  catalogueConsistent st ∧
  (∀ n, is_Some (activeViewers st !! n) ↔ is_Some (seriesData st !! n)) ∧
  (∀ n s, seriesData st !! n = Some s → evenlySpaced s) ∧
  (∀ n v s, activeViewers st !! n = Some v → seriesData st !! n = Some s →
            showsFrameOf s v).

(** Every effect is a switch of a viewer to the image of a frame of its
    series (none is a failed update). *)
Definition switchesToFrames (st : MRViewerView) (effects : list Effect) : Prop :=
  ∀ e, e ∈ effects →
    ∃ n s fr cur next,
      e = SwitchImage n (SeriesFrame.url fr) cur next ∧
      seriesData st !! n = Some s ∧ fr ∈ SeriesData.frames s.


(** Every series of the catalogue is filed under a name that
    [detectSeriesFromFileName] gives to some file name. *)
Definition namesDetected (st : MRViewerView) : Prop :=
  ∀ n, is_Some (seriesData st !! n) →
       ∃ fileName, n = info_name (detectSeriesFromFileName fileName).


(** ** Statements about playback and the wheel *)

(** The fields of the playback loop. *)
Definition playbackState (st : MRViewerView)
  : bool * option nat * option Playback.t * nat :=
  (isPlaying st, playInterval st, scheduledFrame st, nextHandle st).

(** The fields of the wheel throttle. *)
Definition wheelState (st : MRViewerView) : Z * Z := (lastWheelTime st, wheelDelta st).

Definition isPlaybackEvent (e : Event) : bool :=
  match e with
  | SpeedSlider _ _ | PlayPauseButton _ | AnimationFrame _ => true
  | _ => false
  end.

Definition isWheel (e : Event) : bool :=
  match e with
  | Wheel _ _ _ => true
  | _ => false
  end.

(** The playback loop is in order: handles are positive, a pending
    callback is the one whose handle [playInterval] holds (the last one
    handed out), and nothing is pending while paused. *)
Definition playbackInOrder (st : MRViewerView) : Prop :=
  (0 < nextHandle st)%nat ∧
  (is_Some (scheduledFrame st) →
   ∃ h, playInterval st = Some (S h) ∧ nextHandle st = S (S h)) ∧
  (isPlaying st = false → scheduledFrame st = None).


(** ** Statements about the image buffers *)

(** [P] holds of every viewer. *)
Definition allViewers (P : ViewerData.t → Prop) (st : MRViewerView) : Prop :=
  ∀ n v, activeViewers st !! n = Some v → P v.

(** The two buffers of a viewer are in order: there are two of them,
    [currentActive] designates one, and that one alone carries the class
    [active]. *)
Definition buffersInOrder (v : ViewerData.t) : Prop :=
  length (ViewerData.images v) = 2%nat ∧
  (ViewerData.currentActive v < 2)%nat ∧
  ∀ k b, ViewerData.images v !! k = Some b →
         Buffer.active b = bool_decide (k = ViewerData.currentActive v).

(** A switch goes from one of the two buffers to the other one. *)
Definition flipsBuffer (e : Effect) : Prop :=
  match e with
  | SwitchImage _ _ currentActive nextActive =>
      (currentActive < 2)%nat ∧ nextActive = ((currentActive + 1) mod 2)%nat
  | Threw _ => True
  end.


(** ** Statements about loading and the visible image *)

Definition isLoading (e : Event) : bool :=
  match e with
  | FileSelect (_ :: _) | LoadFile _ => true
  | _ => false
  end.

(** What only loading changes: the catalogue, the position index, and
    the object URLs. *)
Definition loaded (st : MRViewerView)
  : gmap string SeriesData.t * PositionMap.t * list ImageContent :=
  (seriesData st, positionMap st, objectUrls st).

(** What a handler proper leaves to the frame switch: the image cache and
    the image requests. *)
Definition imageStore (st : MRViewerView) : gmap Url Image.t * list Url :=
  (imageCache st, imageRequests st).

Definition loadableFile (f : File.t) : bool :=
  match File.content f with
  | Unloadable => false
  | _ => true
  end.

(** The event loads images through the file picker only, and only images
    that load. *)
Definition picksLoadable (e : Event) : bool :=
  match e with
  | FileSelect files => forallb loadableFile files
  | LoadFile _ => false
  | _ => true
  end.

(** Every cached image belongs to an object URL handed out before. *)
Definition cacheFresh (st : MRViewerView) : Prop :=
  ∀ url, cacheReady st url = true → (url < length (objectUrls st))%nat.

(** The image of every frame of the catalogue is that of its file and is
    in the cache. *)
Definition framesCached (st : MRViewerView) : Prop :=
  ∀ n s fr, seriesData st !! n = Some s → fr ∈ SeriesData.frames s →
    objectUrls st !! SeriesFrame.url fr = Some (File.content (SeriesFrame.file fr)) ∧
    cacheReady st (SeriesFrame.url fr) = true.

(** The image in the visible buffer of a viewer. *)
Definition activeSrc (v : ViewerData.t) : option Url :=
  ViewerData.images v !! ViewerData.currentActive v ≫= Buffer.src.

(** The image the viewer of [n] is to show: that of the frame it stands on. *)
Definition frameUrl (st : MRViewerView) (n : string) : option Url :=
  v ← activeViewers st !! n;
  s ← seriesData st !! n;
  SeriesFrame.url <$> js_index (SeriesData.frames s) (ViewerData.currentFrame v).

(** The image the viewer of [n] shows once the switches [effects] are
    carried out, when it shows [src] before. *)
Fixpoint shownAfter (n : string) (effects : list Effect) (src : option Url) : option Url :=
  match effects with
  | [] => src
  | SwitchImage m url _ _ :: effects' =>
      shownAfter n effects' (if bool_decide (m = n) then Some url else src)
  | Threw _ :: effects' => shownAfter n effects' src
  end.

(** Once the pending switches [effects] are carried out, every viewer
    shows the image of the frame it stands on. *)
Definition pendingShows (st : MRViewerView) (effects : list Effect) : Prop :=
  ∀ n v, activeViewers st !! n = Some v →
         shownAfter n effects (activeSrc v) = frameUrl st n.



(** ** Basic facts about the state setters and the update loop *)

Lemma with_activeViewers_id st : with_activeViewers (activeViewers st) st = st.
Proof. by destruct st. Qed.

(** [updateSeriesFrame] is [displayUpdate] on the viewer it looks up. *)
Lemma updateSeriesFrame_eq seriesName frameIndex forceUpdate st :
  updateSeriesFrame seriesName frameIndex forceUpdate st =
  match activeViewers st !! seriesName with
  | Some viewer =>
      let r := displayUpdate st seriesName frameIndex forceUpdate viewer in
      (with_activeViewers (<[seriesName := r.1]> (activeViewers st)) st, r.2)
  | None => (st, [])
  end.
Proof.
  unfold updateSeriesFrame, displayUpdate.
  destruct (activeViewers st !! seriesName) as [viewer|] eqn:Hv; [|done].
  assert (Hid : with_activeViewers (<[seriesName := viewer]> (activeViewers st)) st = st).
  { rewrite insert_id by done. apply with_activeViewers_id. }
  destruct (seriesData st !! seriesName) as [series|]; simpl; [|by rewrite Hid].
  destruct (resolveFrameIndex _ _ _ _ _); simpl; try by rewrite Hid.
  destruct (negb forceUpdate && _); simpl; [by rewrite Hid|].
  by destruct (js_index (SeriesData.frames series) _).
Qed.

(** The synchronised loop updates every viewer as [displayUpdate] says,
    touches nothing else, and asks only for what the updates ask. *)
Lemma updateAll_spec frameIndex (m : gmap string ViewerData.t) st :
  ∃ av effects,
    updateAll frameIndex m st = (with_activeViewers av st, effects) ∧
    (∀ n, av !! n =
          match m !! n with
          | Some _ => (λ v, (displayUpdate st n frameIndex false v).1) <$> activeViewers st !! n
          | None => activeViewers st !! n
          end) ∧
    (∀ e, e ∈ effects →
          ∃ n v, is_Some (m !! n) ∧ activeViewers st !! n = Some v ∧
                 e ∈ (displayUpdate st n frameIndex false v).2).
Proof.
  unfold updateAll. revert st.
  apply (map_fold_weak_ind
    (λ (acc : Action) (m : gmap string ViewerData.t), ∀ st, ∃ av effects,
      acc st = (with_activeViewers av st, effects) ∧
      (∀ n, av !! n =
          match m !! n with
          | Some _ => (λ v, (displayUpdate st n frameIndex false v).1) <$> activeViewers st !! n
          | None => activeViewers st !! n
          end) ∧
      (∀ e, e ∈ effects →
          ∃ n v, is_Some (m !! n) ∧ activeViewers st !! n = Some v ∧
                 e ∈ (displayUpdate st n frameIndex false v).2))).
  - intros st. exists (activeViewers st), []. split_and!.
    + by rewrite with_activeViewers_id.
    + intros n. by rewrite lookup_empty.
    + intros e He. by apply elem_of_nil in He.
  - intros i x m' acc Hi IH st.
    destruct (IH st) as (av & effects & Hacc & Hav & Heff).
    unfold andThen. rewrite Hacc, updateSeriesFrame_eq. simpl.
    pose proof (Hav i) as Havi. rewrite Hi in Havi.
    destruct (activeViewers st !! i) as [v|] eqn:Hv; rewrite Havi.
    + eexists _, _. split_and!; [done| |].
      * intros n. destruct (decide (i = n)) as [->|Hne].
        -- by rewrite !lookup_insert_eq, Hv.
        -- rewrite !lookup_insert_ne by done. apply Hav.
      * intros e [He|He]%elem_of_app.
        -- destruct (Heff e He) as (n & v' & [? Hn] & ? & ?).
           exists n, v'. split_and!; [|done..].
           destruct (decide (i = n)) as [->|Hne]; [by rewrite lookup_insert_eq|].
           by rewrite lookup_insert_ne.
        -- exists i, v. split_and!; [by rewrite lookup_insert_eq|done..].
    + exists av, effects. split_and!.
      * by rewrite app_nil_r.
      * intros n. destruct (decide (i = n)) as [->|Hne].
        -- by rewrite lookup_insert_eq, Hv, Hav, Hi, Hv.
        -- rewrite lookup_insert_ne by done. apply Hav.
      * intros e He. destruct (Heff e He) as (n & v' & [? Hn] & ? & ?).
        exists n, v'. split_and!; [|done..].
        destruct (decide (i = n)) as [->|Hne]; [by rewrite lookup_insert_eq|].
        by rewrite lookup_insert_ne.
Qed.

(** [showFrame] with synchronisation enabled. *)
Lemma showFrame_sync frameIndex allowLoop targetSeries st :
  syncEnabled st = true →
  let i := boundFrameIndex frameIndex allowLoop (globalCount st) in
  let st0 := with_cursor i (js_index (PositionMap.positions (positionMap st)) i) st in
  ∃ av effects,
    showFrame frameIndex allowLoop targetSeries st = (with_activeViewers av st0, effects) ∧
    (∀ n, av !! n = (λ v, (displayUpdate st n i false v).1) <$> activeViewers st !! n) ∧
    (∀ e, e ∈ effects →
          ∃ n v, activeViewers st !! n = Some v ∧ e ∈ (displayUpdate st n i false v).2).
Proof.
  intros Hsync i st0. unfold showFrame. fold (globalCount st). fold i. fold st0.
  replace (syncEnabled st0) with true by done.
  destruct (updateAll_spec i (activeViewers st0) st0) as (av & effects & Heq & Hav & Heff).
  exists av, effects. split_and!; [exact Heq| |].
  - intros n. rewrite Hav. change (activeViewers st0) with (activeViewers st).
    by destruct (activeViewers st !! n).
  - intros e He. destruct (Heff e He) as (n & v & _ & Hv & Hin). by exists n, v.
Qed.

(** Whatever the mode, [showFrame] moves the cursor and viewers only. *)
Lemma showFrame_shape frameIndex allowLoop targetSeries st :
  let i := boundFrameIndex frameIndex allowLoop (globalCount st) in
  ∃ av, (showFrame frameIndex allowLoop targetSeries st).1 =
        with_activeViewers av
          (with_cursor i (js_index (PositionMap.positions (positionMap st)) i) st).
Proof.
  intros i. destruct (syncEnabled st) eqn:Hsync.
  - destruct (showFrame_sync frameIndex allowLoop targetSeries st Hsync)
      as (av & effects & Heq & _). exists av. by rewrite Heq.
  - unfold showFrame. fold (globalCount st). fold i.
    set (st0 := with_cursor i _ st).
    replace (syncEnabled st0) with false by done.
    destruct (truthy targetSeries) as [target|].
    + rewrite updateSeriesFrame_eq.
      destruct (activeViewers st0 !! target); simpl; eauto.
    + exists (activeViewers st0). by rewrite with_activeViewers_id.
Qed.

Lemma showFrame_currentFrameIndex frameIndex allowLoop targetSeries st :
  currentFrameIndex (showFrame frameIndex allowLoop targetSeries st).1
  = boundFrameIndex frameIndex allowLoop (globalCount st).
Proof.
  destruct (showFrame_shape frameIndex allowLoop targetSeries st) as [av ->]. done.
Qed.

Lemma movesOnly_skip_state st :
  ∃ av i p, st = with_activeViewers av (with_cursor i p st).
Proof. exists (activeViewers st), (currentFrameIndex st), (currentPosition st). by destruct st. Qed.

Lemma showFrame_movesOnly frameIndex allowLoop targetSeries :
  movesOnly (showFrame frameIndex allowLoop targetSeries).
Proof. intros st. destruct (showFrame_shape frameIndex allowLoop targetSeries st); eauto. Qed.

Lemma updateSeriesFrame_movesOnly seriesName frameIndex forceUpdate i p st :
  ∃ av, (updateSeriesFrame seriesName frameIndex forceUpdate (with_cursor i p st)).1
        = with_activeViewers av (with_cursor i p st).
Proof.
  rewrite updateSeriesFrame_eq.
  destruct (activeViewers (with_cursor i p st) !! seriesName); simpl; eauto.
Qed.

Lemma showNextFrame_movesOnly allowLoop targetSeries :
  movesOnly (showNextFrame allowLoop targetSeries).
Proof.
  intros st. unfold showNextFrame. destruct (syncEnabled st); [apply showFrame_movesOnly|].
  destruct (truthy targetSeries) as [target|]; [|apply movesOnly_skip_state].
  destruct (activeViewers st !! target), (seriesData st !! target);
    try apply movesOnly_skip_state.
  edestruct updateSeriesFrame_movesOnly as [av ->]. eauto.
Qed.

Lemma showPreviousFrame_movesOnly allowLoop targetSeries :
  movesOnly (showPreviousFrame allowLoop targetSeries).
Proof.
  intros st. unfold showPreviousFrame. destruct (syncEnabled st); [apply showFrame_movesOnly|].
  destruct (truthy targetSeries) as [target|]; [|apply movesOnly_skip_state].
  destruct (activeViewers st !! target), (seriesData st !! target);
    try apply movesOnly_skip_state.
  edestruct updateSeriesFrame_movesOnly as [av ->]. eauto.
Qed.

Lemma andThen_fst a b st : (andThen a b st).1 = (b (a st).1).1.
Proof. unfold andThen. destruct (a st) as [st1 e1]. simpl. by destruct (b st1). Qed.

(** ** The image cache and the frame switch *)

Lemma preloadImage_shape url st :
  ∃ cache requests,
    (preloadImage url st).1 = with_imageCache cache (with_imageRequests requests st).
Proof.
  unfold preloadImage. destruct (cacheReady st url).
  - exists (imageCache st), (imageRequests st). by destruct st.
  - simpl. destruct (objectUrls st !! url) as [[]|]; simpl; eauto.
    all: eexists (imageCache st), _; by destruct st.
Qed.

Lemma preloadImage_loads url st :
  cacheReady st url = false →
  objectUrls st !! url = Some Decodable ∨ objectUrls st !! url = Some Undecodable →
  cacheReady (preloadImage url st).1 url = true.
Proof.
  intros Hc Hu. unfold preloadImage. rewrite Hc. simpl.
  destruct Hu as [-> | ->]; unfold cacheReady; simpl; by rewrite lookup_insert_eq.
Qed.

Lemma preloadImage_fails url st :
  cacheReady st url = false →
  objectUrls st !! url = Some Unloadable ∨ objectUrls st !! url = None →
  cacheReady (preloadImage url st).1 url = false ∧
  objectUrls (preloadImage url st).1 = objectUrls st.
Proof.
  intros Hc Hu. unfold preloadImage. rewrite Hc. simpl.
  by destruct Hu as [-> | ->].
Qed.

(** C5.  [preloadImage] always resolves and never rejects; it is memoised
    by locator: when the locator is cached and load-complete it resolves at
    once, leaving the view (and the network) untouched; when decoding fails
    it still stores the loaded image handle in the cache under the locator
    before resolving, as it does for an image that decodes; no other cache
    entry changes. *)
Theorem preload_never_rejects url st :
  (preloadImage url st).2 = Resolved ∧
  (cacheReady st url = true → preloadImage url st = (st, Resolved)) ∧
  (cacheReady st url = false → objectUrls st !! url = Some Undecodable →
     imageCache (preloadImage url st).1 !! url
     = Some {| Image.src := url; Image.complete := true; Image.decoded := false |}) ∧
  (cacheReady st url = false → objectUrls st !! url = Some Decodable →
     imageCache (preloadImage url st).1 !! url
     = Some {| Image.src := url; Image.complete := true; Image.decoded := true |}) ∧
  (∀ other, other ≠ url →
     imageCache (preloadImage url st).1 !! other = imageCache st !! other).
Proof.
  unfold preloadImage. split_and!.
  - destruct (cacheReady st url); [done|]. simpl.
    by destruct (objectUrls st !! url) as [[]|].
  - by intros ->.
  - intros -> Hu. simpl. rewrite Hu. simpl. by rewrite lookup_insert_eq.
  - intros -> Hu. simpl. rewrite Hu. simpl. by rewrite lookup_insert_eq.
  - intros other Hne. destruct (cacheReady st url); [done|]. simpl.
    destruct (objectUrls st !! url) as [[]|]; simpl; try done.
    all: by rewrite lookup_insert_ne.
Qed.

Lemma preload_never_rejects_witness :
  preloadImage 0%nat exampleBySlider = (exampleBySlider, Resolved) ∧
  imageCache (preloadImage 0%nat loadedUndecodable).1 !! 0%nat
  = Some {| Image.src := 0%nat; Image.complete := true; Image.decoded := false |}.
Proof.
  split.
  - apply (preload_never_rejects 0%nat exampleBySlider). vm_compute; reflexivity.
  - apply (preload_never_rejects 0%nat loadedUndecodable); vm_compute; reflexivity.
Defined.

(** A switch whose image cannot be loaded never reaches the swap. *)
Lemma switchImage_unloadable retries seriesName url cur next st :
  cacheReady st url = false →
  objectUrls st !! url = Some Unloadable ∨ objectUrls st !! url = None →
  switchImage retries seriesName url cur next st = None.
Proof.
  revert st. induction retries as [|retries IH]; intros st Hc Hu; simpl; rewrite Hc; [done|].
  destruct (preloadImage_fails url st Hc Hu) as [Hc' Hu'].
  apply IH; [done|]. by rewrite Hu'.
Qed.

(** A switch whose image loads swaps after at most one preload. *)
Lemma switchImage_loadable retries seriesName url cur next st :
  objectUrls st !! url = Some Decodable ∨ objectUrls st !! url = Some Undecodable →
  ∃ st', switchImage (S retries) seriesName url cur next st = Some st' ∧
         st' = swapBuffers seriesName url cur next
                 (if cacheReady st url then st else (preloadImage url st).1).
Proof.
  intros Hu. simpl. destruct (cacheReady st url) eqn:Hc; [eauto|].
  pose proof (preloadImage_loads url st Hc Hu) as Hc'.
  destruct retries; simpl; rewrite Hc'; eauto.
Qed.

(** One retry decides a switch. *)
Lemma switchImage_decided seriesName url cur next st :
  switchImage 1 seriesName url cur next st = None →
  ∀ retries, switchImage retries seriesName url cur next st = None.
Proof.
  intros H1 retries.
  destruct (cacheReady st url) eqn:Hc; [by simpl in H1; rewrite Hc in H1|].
  apply switchImage_unloadable; [done|].
  destruct (objectUrls st !! url) as [[]|] eqn:Hu; eauto.
  - destruct (switchImage_loadable 0 seriesName url cur next st) as (? & ? & _); [eauto|congruence].
  - destruct (switchImage_loadable 0 seriesName url cur next st) as (? & ? & _); [eauto|congruence].
Qed.

(** C6: the failing input.  In a batch whose second image cannot be
    loaded, stepping to that frame asks for a switch to its locator; the
    locator is not ready, [preloadImage] resolves without caching
    anything, and whatever the number of retries the switch does not
    reach the buffer swap. *)
Theorem switchImage_unloadable_never_swaps :
  (handle NextButton brokenView).2 = [SwitchImage T1WI 1%nat 0%nat 1%nat] ∧
  cacheReady (handle NextButton brokenView).1 1%nat = false ∧
  (preloadImage 1%nat (handle NextButton brokenView).1).2 = Resolved ∧
  ∀ retries,
    switchImage retries T1WI 1%nat 0%nat 1%nat (handle NextButton brokenView).1 = None.
Proof.
  split_and!; try (vm_compute; reflexivity).
  intros retries. apply switchImage_unloadable.
  - vm_compute; reflexivity.
  - left. vm_compute; reflexivity.
Qed.

(** ** Settling the requested switches *)

Lemma sameDisplay_refl st : sameDisplay st st.
Proof.
  split; [|done]. exists (activeViewers st), (imageCache st), (imageRequests st).
  by destruct st.
Qed.

Lemma sameDisplay_trans st1 st2 st3 :
  sameDisplay st1 st2 → sameDisplay st2 st3 → sameDisplay st1 st3.
Proof.
  intros [(av & c & q & ->) H1] [(av' & c' & q' & ->) H2]. split.
  - by exists av', c', q'.
  - intros n. by rewrite H2, H1.
Qed.

Lemma preloadImage_sameDisplay url st : sameDisplay st (preloadImage url st).1.
Proof.
  destruct (preloadImage_shape url st) as (c & q & ->). split; [|done].
  by exists (activeViewers st), c, q.
Qed.

Lemma swapBuffers_sameDisplay seriesName url cur next st :
  sameDisplay st (swapBuffers seriesName url cur next st).
Proof.
  split.
  - eexists _, (imageCache st), (imageRequests st). unfold swapBuffers. by destruct st.
  - intros n. unfold displayedFrame, swapBuffers. simpl.
    destruct (decide (seriesName = n)) as [->|Hne].
    + rewrite lookup_alter_eq. by destruct (activeViewers st !! n).
    + by rewrite lookup_alter_ne.
Qed.

Lemma runEffect_sameDisplay st e : sameDisplay st (runEffect st e).
Proof.
  destruct e as [seriesName url cur next|]; simpl; [|apply sameDisplay_refl].
  destruct (cacheReady st url); [apply swapBuffers_sameDisplay|].
  destruct (cacheReady (preloadImage url st).1 url).
  - eapply sameDisplay_trans; [apply preloadImage_sameDisplay|apply swapBuffers_sameDisplay].
  - apply preloadImage_sameDisplay.
Qed.

Lemma settle_sameDisplay r : sameDisplay r.1 (settle r).
Proof.
  destruct r as [st effects]. unfold settle. simpl. revert st.
  induction effects as [|e effects IH]; intros st; simpl; [apply sameDisplay_refl|].
  eapply sameDisplay_trans; [apply runEffect_sameDisplay|apply IH].
Qed.

Lemma sameDisplay_fields st st' :
  sameDisplay st st' →
  syncEnabled st' = syncEnabled st ∧ syncMode st' = syncMode st ∧
  positionMap st' = positionMap st ∧ seriesData st' = seriesData st ∧
  currentFrameIndex st' = currentFrameIndex st ∧ currentPosition st' = currentPosition st ∧
  activeSeries st' = activeSeries st ∧ wheelDelta st' = wheelDelta st ∧
  lastWheelTime st' = lastWheelTime st.
Proof. by intros [(av & c & q & ->) _]. Qed.

(** ** Navigation: repeated requests and wrap-around *)

Lemma transitions_none effects :
  (∀ e, e ∈ effects → is_switch e = false) → transitions effects = 0%nat.
Proof.
  intros H. unfold transitions. induction effects as [|e effects IH]; [done|].
  rewrite filter_cons. destruct (decide (is_switch e = true)) as [He|He].
  - rewrite H in He; [done|]. by left.
  - apply IH. intros e' He'. apply H. by right.
Qed.

(** An unforced update of a viewer that already displays what a previous
    update resolved asks for no switch. *)
Lemma displayUpdate_settled st n i v v' e :
  ViewerData.currentFrame v' = ViewerData.currentFrame (displayUpdate st n i false v).1 →
  e ∈ (displayUpdate st n i false v').2 → is_switch e = false.
Proof.
  unfold displayUpdate.
  destruct (seriesData st !! n) as [series|]; [|by intros _ ?%elem_of_nil].
  destruct (resolveFrameIndex st n series i false) as [d| |]; simpl.
  - destruct (ViewerData.currentFrame v =? d) eqn:Hvd; simpl.
    + intros ->. rewrite Hvd. by intros ?%elem_of_nil.
    + destruct (js_index (SeriesData.frames series) d); simpl; intros ->;
        rewrite Z.eqb_refl; by intros ?%elem_of_nil.
  - by intros _ ?%elem_of_nil.
  - by intros _ ->%list_elem_of_singleton.
Qed.

(** C4, as amended.  When synchronisation is enabled, or when no target
    series is named, issuing the same [showFrame(i, wrap = false)] twice
    (in particular [i] the current index, a navigation by 0) triggers no
    frame transition the second time: an unforced update of a binding that
    resolves to the frame index it already displays is skipped.  (With
    synchronisation off and a target named, the update is forced.) *)
Theorem repeated_showFrame_no_transition st (frameIndex : JsNum) targetSeries :
  syncEnabled st = true ∨ truthy targetSeries = None →
  transitions
    (showFrame frameIndex false targetSeries
       (settle (showFrame frameIndex false targetSeries st))).2 = 0%nat.
Proof.
  intros Hcase.
  pose proof (settle_sameDisplay (showFrame frameIndex false targetSeries st)) as Hsame.
  set (st1 := settle (showFrame frameIndex false targetSeries st)) in *.
  destruct (showFrame_shape frameIndex false targetSeries st) as [av0 Hshape].
  destruct (sameDisplay_fields _ _ Hsame) as (Hen & _ & Hpm & _).
  rewrite Hshape in Hen, Hpm. simpl in Hen, Hpm.
  destruct (syncEnabled st) eqn:Hsync.
  - destruct (showFrame_sync frameIndex false targetSeries st Hsync)
      as (av & effects & Heq & Hav & _).
    destruct (showFrame_sync frameIndex false targetSeries st1 Hen)
      as (av' & effects' & Heq' & _ & Heff').
    rewrite Heq'. simpl. apply transitions_none. intros e He.
    destruct (Heff' e He) as (n & v' & Hv' & Hin).
    assert (Hcount : globalCount st1 = globalCount st) by (unfold globalCount; by rewrite Hpm).
    rewrite Hcount in Hin.
    set (i := boundFrameIndex frameIndex false (globalCount st)) in *.
    destruct Hsame as [Hst1 Hdisp]. specialize (Hdisp n).
    rewrite Heq in Hdisp, Hst1. simpl in Hdisp, Hst1.
    unfold displayedFrame in Hdisp. simpl in Hdisp. rewrite Hv', Hav in Hdisp.
    destruct (activeViewers st !! n) as [v|] eqn:Hv; [|done].
    simpl in Hdisp. injection Hdisp as Hdisp.
    assert (Hdu : displayUpdate st1 n i false v' = displayUpdate st n i false v').
    { destruct Hst1 as (? & ? & ? & ->). done. }
    rewrite Hdu in Hin. by eapply displayUpdate_settled.
  - destruct Hcase as [?|Hnone]; [done|].
    unfold showFrame at 1. cbn [syncEnabled with_cursor]. by rewrite Hen, Hnone.
Qed.

Lemma repeated_showFrame_no_transition_witness :
  transitions
    (showFrame (currentFrameIndex exampleBySlider) false None
       (settle (showFrame (currentFrameIndex exampleBySlider) false None exampleBySlider))).2
  = 0%nat.
Proof.
  apply (repeated_showFrame_no_transition exampleBySlider).
  left. vm_compute; reflexivity.
Defined.

(** C4 as stated fails: with synchronisation off and a target series,
    [showFrame] forces the update, so the second of two identical
    navigations from a reachable state fires a transition again. *)
Lemma unsynced_target_repeats_transition :
  reachable exampleUnsynced ∧
  syncEnabled exampleUnsynced = false ∧
  ¬ (transitions
       (showFrame (currentFrameIndex exampleUnsynced) false (Some T1WI)
          (settle (showFrame (currentFrameIndex exampleUnsynced) false (Some T1WI)
                     exampleUnsynced))).2 = 0%nat).
Proof.
  split_and!.
  - by eexists.
  - vm_compute; reflexivity.
  - intros H. vm_compute in H. discriminate H.
Qed.

(** C3.  In synchronised mode, at the last global index stepping forward
    with wrap-around gives index 0 and without it leaves the index
    unchanged; at index 0 stepping backward with wrap-around gives the last
    index and without it leaves the index at 0. *)
Theorem wrap_around st targetSeries :
  syncEnabled st = true →
  0 < globalCount st →
  let last := globalCount st - 1 in
  (currentFrameIndex st = last →
     currentFrameIndex (settle (showNextFrame true targetSeries st)) = 0 ∧
     currentFrameIndex (settle (showNextFrame false targetSeries st)) = last) ∧
  (currentFrameIndex st = 0 →
     currentFrameIndex (settle (showPreviousFrame true targetSeries st)) = last ∧
     currentFrameIndex (settle (showPreviousFrame false targetSeries st)) = 0).
Proof.
  intros Hsync Hcount last.
  assert (Hsettle : ∀ r, currentFrameIndex (settle r) = currentFrameIndex r.1).
  { intros r. by destruct (sameDisplay_fields _ _ (settle_sameDisplay r)) as (_&_&_&_&->&_). }
  rewrite !Hsettle. unfold showNextFrame, showPreviousFrame. rewrite Hsync.
  rewrite !showFrame_currentFrameIndex. fold (globalCount st).
  unfold boundFrameIndex. subst last.
  split; intros ->; split.
  - replace (globalCount st - 1 + 1 >=? globalCount st) with true by lia.
    replace (0 <? 0) with false by done.
    by replace (0 >=? globalCount st) with false by lia.
  - lia.
  - replace (0 - 1 <? 0) with true by done.
    replace (globalCount st - 1 <? 0) with false by lia.
    by replace (globalCount st - 1 >=? globalCount st) with false by lia.
  - lia.
Qed.

Lemma wrap_around_witness :
  (currentFrameIndex (settle (showNextFrame true None exampleBySlider)) = 0 ∧
   currentFrameIndex (settle (showNextFrame false None exampleBySlider))
   = globalCount exampleBySlider - 1) ∧
  (currentFrameIndex (settle (showPreviousFrame true None brokenView))
   = globalCount brokenView - 1 ∧
   currentFrameIndex (settle (showPreviousFrame false None brokenView)) = 0).
Proof.
  split.
  - pose proof (wrap_around exampleBySlider None) as H.
    destruct H as [H _]; [vm_compute; reflexivity..|].
    apply H. vm_compute; reflexivity.
  - pose proof (wrap_around brokenView None) as H.
    destruct H as [_ H]; [vm_compute; reflexivity..|].
    apply H. vm_compute; reflexivity.
Defined.

(** ** Synchronisation flags along the handlers *)














Lemma foldl_min_spec x xs :
  foldl Z.min x xs ∈ x :: xs ∧ ∀ y, y ∈ x :: xs → foldl Z.min x xs ≤ y.
Proof.
  revert x. induction xs as [|z xs IH]; intros x; simpl.
  - split; [by left|]. intros y ->%list_elem_of_singleton. lia.
  - destruct (IH (Z.min x z)) as [Hin Hle]. split.
    + apply elem_of_cons in Hin as [Heq|Hin]; [|by right; right].
      rewrite Heq. destruct (Z.min_spec x z) as [[_ ->]|[_ ->]]; [by left|by right; left].
    + intros y Hy. apply elem_of_cons in Hy as [->|Hy].
      * specialize (Hle (Z.min x z) ltac:(by left)). lia.
      * apply elem_of_cons in Hy as [->|Hy].
        -- specialize (Hle (Z.min x z) ltac:(by left)). lia.
        -- apply Hle. by right.
Qed.

Lemma js_min_least xs m :
  m ∈ xs → (∀ y, y ∈ xs → m ≤ y) → js_min xs = Num m.
Proof.
  destruct xs as [|x xs]; [by intros ?%elem_of_nil|]. intros Hm Hle. simpl. f_equal.
  destruct (foldl_min_spec x xs) as [Hin Hmin].
  specialize (Hle _ Hin). specialize (Hmin _ Hm). lia.
Qed.

Lemma viewerValues_elem {A} (f : ViewerData.t → A) st x :
  x ∈ viewerValues f st ↔ ∃ n v, activeViewers st !! n = Some v ∧ f v = x.
Proof.
  unfold viewerValues. rewrite list_elem_of_fmap. split.
  - intros (v & -> & Hv). apply list_elem_of_fmap in Hv as ([n v'] & -> & Hv).
    apply elem_of_map_to_list in Hv. by exists n, v'.
  - intros (n & v & Hv & <-). exists v. split; [done|].
    apply list_elem_of_fmap. exists (n, v). split; [done|]. by apply elem_of_map_to_list.
Qed.



(** ** The position index *)

Lemma set_of_elem seen xs x : x ∈ set_of seen xs ↔ x ∈ xs ∧ x ∉ seen.
Proof.
  revert seen. induction xs as [|y xs IH]; intros seen; simpl.
  - split; [by intros ?%elem_of_nil|by intros [?%elem_of_nil _]].
  - case_bool_decide as Hy.
    + rewrite IH, elem_of_cons. split.
      * intros [Hx Hs]. split; [by right|done].
      * intros [[->|Hx] Hs]; [done|by split].
    + rewrite !elem_of_cons, IH, elem_of_cons. split.
      * intros [->|[Hx Hs]]; [split; [by left|done]|].
        split; [by right|]. intros Hin. apply Hs. by right.
      * intros [[->|Hx] Hs]; [by left|].
        destruct (decide (x = y)) as [->|Hne]; [by left|right].
        split; [done|]. by intros [?|?].
Qed.

Lemma set_of_NoDup seen xs : NoDup (set_of seen xs).
Proof.
  revert seen. induction xs as [|y xs IH]; intros seen; simpl; [constructor|].
  case_bool_decide; [apply IH|]. constructor; [|apply IH].
  rewrite set_of_elem, elem_of_cons. intros [_ Hn]. apply Hn. by left.
Qed.

Lemma insert_sorted_elem x xs z : z ∈ insert_sorted x xs ↔ z = x ∨ z ∈ xs.
Proof.
  induction xs as [|y xs IH]; simpl.
  - rewrite list_elem_of_singleton, elem_of_nil. tauto.
  - destruct (x <=? y); rewrite !elem_of_cons; [done|]. rewrite IH. tauto.
Qed.

Lemma insert_sorted_increasing x xs :
  StronglySorted Z.lt xs → x ∉ xs → StronglySorted Z.lt (insert_sorted x xs).
Proof.
  induction 1 as [|y xs Hs IH Hy]; intros Hx; simpl.
  - repeat constructor.
  - apply not_elem_of_cons in Hx as [Hxy Hx].
    destruct (x <=? y) eqn:Hle.
    + assert (x < y) by lia. constructor; [by constructor|].
      constructor; [done|]. eapply Forall_impl; [exact Hy|]. simpl. lia.
    + constructor; [by apply IH|].
      apply Forall_forall. intros z [->|Hz]%insert_sorted_elem; [lia|].
      by eapply Forall_forall in Hy.
Qed.

Lemma sort_numeric_elem xs z : z ∈ sort_numeric xs ↔ z ∈ xs.
Proof.
  unfold sort_numeric. induction xs as [|x xs IH]; simpl; [done|].
  rewrite insert_sorted_elem, elem_of_cons, IH. done.
Qed.

Lemma sort_numeric_increasing xs : NoDup xs → StronglySorted Z.lt (sort_numeric xs).
Proof.
  unfold sort_numeric. induction 1 as [|x xs Hx Hnd IH]; simpl; [constructor|].
  apply insert_sorted_increasing; [done|]. by rewrite (sort_numeric_elem xs x).
Qed.

Lemma allPositions_elem (series : gmap string SeriesData.t) p :
  p ∈ allPositions series ↔
  ∃ name s, series !! name = Some s ∧ p ∈ SeriesData.positions s.
Proof.
  unfold allPositions.
  apply (map_fold_weak_ind
    (λ (acc : list Z) (m : gmap string SeriesData.t),
       p ∈ acc ↔ ∃ name s, m !! name = Some s ∧ p ∈ SeriesData.positions s)).
  - split; [by intros ?%elem_of_nil|]. intros (n & s & Hn & _). by rewrite lookup_empty in Hn.
  - intros i x m acc Hi IH. rewrite elem_of_app, IH. split.
    + intros [(n & s & Hn & Hp)|Hp].
      * exists n, s. split; [|done]. rewrite lookup_insert_ne; [done|]. by intros ->; congruence.
      * exists i, x. by rewrite lookup_insert_eq.
    + intros (n & s & Hn & Hp). destruct (decide (i = n)) as [->|Hne].
      * rewrite lookup_insert_eq in Hn. right. by simplify_eq.
      * rewrite lookup_insert_ne in Hn by done. left. eauto.
Qed.

(** What [createPositionMap] leaves in [positionMap.positions]: the
    strictly increasing sequence of the positions of all series. *)
Lemma createPositionMap_positions st :
  let ps := PositionMap.positions (positionMap (createPositionMap st)) in
  StronglySorted Z.lt ps ∧
  ∀ p, p ∈ ps ↔ ∃ name s, seriesData st !! name = Some s ∧ p ∈ SeriesData.positions s.
Proof.
  simpl. split.
  - apply sort_numeric_increasing, set_of_NoDup.
  - intros p. rewrite sort_numeric_elem, set_of_elem, allPositions_elem.
    split; [by intros [H _]|]. intros H. split; [done|]. by intros ?%elem_of_nil.
Qed.

Lemma createPositionMap_tables st name :
  PositionMap.tables (positionMap (createPositionMap st)) !! name =
  match seriesData st !! name with
  | Some s => Some (positionTable (SeriesData.positions s))
  | None => PositionMap.tables (positionMap st) !! name
  end.
Proof.
  simpl.
  apply (map_fold_weak_ind
    (λ (acc : gmap string (gmap Z Z)) (m : gmap string SeriesData.t),
       acc !! name =
       match m !! name with
       | Some s => Some (positionTable (SeriesData.positions s))
       | None => PositionMap.tables (positionMap st) !! name
       end)).
  - by rewrite lookup_empty.
  - intros i x m acc Hi IH. destruct (decide (i = name)) as [->|Hne].
    + by rewrite !lookup_insert_eq.
    + by rewrite !lookup_insert_ne.
Qed.

Lemma createPositionMap_idempotent st : positionIndexCurrent (createPositionMap st).
Proof.
  unfold positionIndexCurrent.
  pose proof (createPositionMap_tables (createPositionMap st)) as H2.
  pose proof (createPositionMap_tables st) as H1.
  destruct (positionMap (createPositionMap (createPositionMap st))) as [ps im tb] eqn:E2.
  destruct (positionMap (createPositionMap st)) as [ps1 im1 tb1] eqn:E1.
  simpl in H1, H2.
  assert (ps = ps1 ∧ im = im1) as [-> ->].
  { unfold createPositionMap in E1, E2. simpl in E1, E2. by simplify_eq. }
  f_equal. apply map_eq. intros name. rewrite H2.
  change (seriesData (createPositionMap st)) with (seriesData st).
  destruct (seriesData st !! name) eqn:Hn; [|done]. by rewrite H1, Hn.
Qed.

Lemma positionIndexCurrent_table st name series :
  positionIndexCurrent st → seriesData st !! name = Some series →
  PositionMap.tables (positionMap st) !! name
  = Some (positionTable (SeriesData.positions series)).
Proof.
  intros Hcur Hn. rewrite <- Hcur, createPositionMap_tables. by rewrite Hn.
Qed.

(** The table of a series: a position that occurs is mapped to an index
    that holds it, any other position is absent. *)
Lemma fill_table_absent i ps table p :
  p ∉ ps → fill_table i ps table !! p = table !! p.
Proof.
  revert i table. induction ps as [|q ps IH]; intros i table Hp; simpl; [done|].
  apply not_elem_of_cons in Hp as [Hpq Hp]. rewrite IH by done.
  by rewrite lookup_insert_ne.
Qed.

Lemma fill_table_present i ps table p :
  p ∈ ps → ∃ j : nat, fill_table i ps table !! p = Some (i + Z.of_nat j) ∧ ps !! j = Some p.
Proof.
  revert i table. induction ps as [|q ps IH]; intros i table Hp; simpl.
  - by apply elem_of_nil in Hp.
  - destruct (decide (p ∈ ps)) as [Hin|Hnotin].
    + destruct (IH (i + 1) (<[q := i]> table) Hin) as (j & Hj & Hps).
      exists (S j). split; [|done]. rewrite Hj. f_equal. lia.
    + apply elem_of_cons in Hp as [->|?]; [|done].
      exists 0%nat. split; [|done]. rewrite fill_table_absent by done.
      rewrite lookup_insert_eq. f_equal. lia.
Qed.

Lemma positionTable_lookup ps p :
  match positionTable ps !! p with
  | Some j => 0 ≤ j ∧ ps !! Z.to_nat j = Some p
  | None => p ∉ ps
  end.
Proof.
  unfold positionTable. destruct (decide (p ∈ ps)) as [Hin|Hnotin].
  - destruct (fill_table_present 0 ps ∅ p Hin) as (j & -> & Hj).
    split; [lia|]. by replace (Z.to_nat (0 + Z.of_nat j)) with j by lia.
  - rewrite fill_table_absent by done. by rewrite lookup_empty.
Qed.

Lemma displayUpdate_currentFrame st n i v series d :
  seriesData st !! n = Some series →
  resolveFrameIndex st n series i false = Display d →
  ViewerData.currentFrame (displayUpdate st n i false v).1 = d.
Proof.
  intros Hs Hr. unfold displayUpdate. rewrite Hs, Hr. simpl.
  destruct (ViewerData.currentFrame v =? d) eqn:Hvd; simpl; [lia|].
  by destruct (js_index (SeriesData.frames series) d).
Qed.




(** ** Rebuilding the index: the batch path and [loadFile] *)

Lemma processSeriesFiles_current seriesName files st :
  positionIndexCurrent (processSeriesFiles seriesName files st).
Proof.
  unfold processSeriesFiles. destruct (foldl addFrame _ _) as [frames st'].
  apply createPositionMap_idempotent.
Qed.

Lemma group_push_nonempty seriesName f groups : group_push seriesName f groups ≠ [].
Proof. destruct groups as [|g groups]; simpl; [done|]. by case_bool_decide. Qed.

Lemma groupFiles_nonempty files : files ≠ [] → groupFiles files ≠ [].
Proof.
  unfold groupFiles. destruct files as [|f files _] using rev_ind; [done|].
  intros _. rewrite foldl_snoc. apply group_push_nonempty.
Qed.

Lemma positionIndexCurrent_moves st st' :
  seriesData st' = seriesData st → positionMap st' = positionMap st →
  positionIndexCurrent st → positionIndexCurrent st'.
Proof.
  unfold positionIndexCurrent, createPositionMap. simpl. intros -> ->. done.
Qed.

Lemma handleFileSelect_current files st :
  files ≠ [] → positionIndexCurrent (settle (handleFileSelect files st)).
Proof.
  intros Hne. pose proof (groupFiles_nonempty files Hne) as Hg.
  destruct (sameDisplay_fields _ _ (settle_sameDisplay (handleFileSelect files st)))
    as (_&_&Hpm&Hsd&_).
  eapply positionIndexCurrent_moves; [exact Hsd|exact Hpm|].
  unfold handleFileSelect. destruct files as [|f files]; [done|].
  set (fs := f :: files) in *. rewrite andThen_fst.
  set (st1 := foldl _ _ (groupFiles fs)).
  assert (Hcur : positionIndexCurrent st1).
  { subst st1. destruct (groupFiles fs) as [|g groups _] using rev_ind; [done|].
    rewrite foldl_snoc. apply processSeriesFiles_current. }
  destruct (showFrame_shape 0 false None (createSeriesViewers st1).1) as [av ->].
  unfold createSeriesViewers.
  destruct (showFrame_shape 0 false None
              (with_activeViewers
                 (map_fold (λ seriesName series av, <[seriesName := newViewer series]> av)
                           (activeViewers st1) (seriesData st1)) st1)) as [av' ->].
  eapply positionIndexCurrent_moves; [| |exact Hcur]; done.
Qed.

(** After a batch selection the global positions are the strictly
    increasing sequence of the positions of the loaded series. *)
Lemma handleFileSelect_positions files st :
  files ≠ [] →
  let st' := settle (handleFileSelect files st) in
  StronglySorted Z.lt (PositionMap.positions (positionMap st')) ∧
  ∀ p, p ∈ PositionMap.positions (positionMap st') ↔
       ∃ name s, seriesData st' !! name = Some s ∧ p ∈ SeriesData.positions s.
Proof.
  intros Hne st'. pose proof (handleFileSelect_current files st Hne) as Hcur.
  fold st' in Hcur. rewrite <- Hcur. apply createPositionMap_positions.
Qed.

(** C8: the failing inputs.  [loadFile] stores the new series without
    calling [createPositionMap].  In a fresh view the global positions
    stay empty although the series has a frame at position 0, and
    choosing position mode makes the update of its viewer throw.  After
    the example batch, loading one file replaces T1WI by a single frame,
    yet the global positions remain those of the five-frame series. *)
Theorem loadFile_leaves_index_stale :
  (SeriesData.positions <$> seriesData loadedAlone !! T1WI = Some [0] ∧
   PositionMap.positions (positionMap loadedAlone) = [] ∧
   PositionMap.positions (positionMap (createPositionMap loadedAlone)) = [0] ∧
   (handle PositionSyncRadio loadedAlone).2 = [Threw T1WI]) ∧
  (SeriesData.positions <$> seriesData loadedAfterBatch !! T1WI = Some [0] ∧
   SeriesData.positions <$> seriesData loadedAfterBatch !! T2WI = Some [0; 5; 10] ∧
   PositionMap.positions (positionMap loadedAfterBatch) = [0; 5; 10; 15; 20] ∧
   PositionMap.positions (positionMap (createPositionMap loadedAfterBatch)) = [0; 5; 10]) ∧
  ¬ positionIndexCurrent loadedAlone ∧
  ¬ positionIndexCurrent loadedAfterBatch.
Proof.
  split_and!; try (vm_compute; reflexivity).
  - intros H. vm_compute in H. discriminate H.
  - intros H. vm_compute in H. discriminate H.
Qed.

(** ** The catalogue along the handlers *)

Lemma movesOnly_seriesData a st : movesOnly a → seriesData (a st).1 = seriesData st.
Proof. intros Ha. by destruct (Ha st) as (av & i & p & ->). Qed.

Lemma addFrames_seriesData xs frames st :
  seriesData (foldl addFrame (frames, st) xs).2 = seriesData st.
Proof.
  revert frames st. induction xs as [|x xs IH]; intros frames st; [done|].
  simpl. rewrite IH. by destruct (preloadImage_shape (length (objectUrls st))
    (with_objectUrls (objectUrls st ++ [File.content x.1]) st)) as (c & q & ->).
Qed.

Lemma processSeriesFiles_consistent seriesName files st :
  catalogueConsistent st → catalogueConsistent (processSeriesFiles seriesName files st).
Proof.
  intros Hst. unfold processSeriesFiles.
  pose proof (addFrames_seriesData
                (sort_by_number (map (λ f, (f, frameNumberOf f)) files)) [] st) as H.
  destruct (foldl addFrame _ _) as [frames st']. simpl in H.
  unfold catalogueConsistent. simpl. rewrite H. by apply map_Forall_insert_2.
Qed.

Lemma processGroups_consistent groups st :
  catalogueConsistent st →
  catalogueConsistent (foldl (λ st g, processSeriesFiles g.1 g.2 st) st groups).
Proof.
  revert st. induction groups as [|g groups IH]; intros st Hst; [done|].
  simpl. by apply IH, processSeriesFiles_consistent.
Qed.

Lemma createSeriesViewers_seriesData st :
  seriesData (createSeriesViewers st).1 = seriesData st.
Proof. unfold createSeriesViewers. by rewrite movesOnly_seriesData by apply showFrame_movesOnly. Qed.

Lemma advance_seriesData c st r : advance c st = Some r → seriesData r.1 = seriesData st.
Proof.
  unfold advance. intros H.
  repeat case_match; simplify_eq; try done.
  all: first [ by apply movesOnly_seriesData, showFrame_movesOnly
             | by apply movesOnly_seriesData, showNextFrame_movesOnly ].
Qed.

Lemma startPlayback_seriesData now st : seriesData (startPlayback now st) = seriesData st.
Proof.
  unfold startPlayback, stopPlayback, cancelFrame, requestFrame.
  destruct (playInterval st) as [[|h]|] eqn:Hp; simpl.
  all: destruct (Z.of_nat _ =? 0); simpl; try rewrite Hp; done.
Qed.

Lemma stopPlayback_seriesData st : seriesData (stopPlayback st) = seriesData st.
Proof. unfold stopPlayback, cancelFrame. by destruct (playInterval st) as [[|h]|]. Qed.

Lemma handle_consistent e st :
  catalogueConsistent st → catalogueConsistent (handle e st).1.
Proof.
  intros Hinv.
  assert (Hkeep : ∀ st', seriesData st' = seriesData st → catalogueConsistent st').
  { intros st' H. unfold catalogueConsistent. by rewrite H. }
  destruct e; simpl.
  - unfold handleFileSelect. destruct files as [|f files]; [done|].
    rewrite andThen_fst. set (st1 := foldl _ _ _).
    assert (H1 : catalogueConsistent st1).
    { apply processGroups_consistent. unfold catalogueConsistent. simpl.
      apply map_Forall_empty. }
    unfold catalogueConsistent.
    rewrite movesOnly_seriesData by apply showFrame_movesOnly.
    by rewrite createSeriesViewers_seriesData.
  - unfold loadFile. destruct (TFile.data f); [|done]. simpl.
    rewrite andThen_fst. unfold catalogueConsistent.
    rewrite movesOnly_seriesData by apply showFrame_movesOnly.
    rewrite createSeriesViewers_seriesData. simpl.
    by apply map_Forall_insert_2.
  - apply Hkeep. unfold onFrameSyncChange. simpl. destruct (syncEnabled st); [|done].
    unfold showFrameAt. by rewrite movesOnly_seriesData by apply showFrame_movesOnly.
  - apply Hkeep. unfold onPositionSyncChange. simpl. destruct (syncEnabled st); [|done].
    by rewrite movesOnly_seriesData by apply showFrame_movesOnly.
  - apply Hkeep. unfold onSyncEnableChange. simpl. destruct checked; [|done].
    unfold showFrameAt. by rewrite movesOnly_seriesData by apply showFrame_movesOnly.
  - apply Hkeep. unfold handleSeriesSelect. destruct (negb (syncEnabled st)); [|done].
    simpl. by destruct (activeViewers st !! seriesName).
  - apply Hkeep. unfold handleWheelScroll. destruct (_ <? 30); [done|]. simpl.
    destruct (_ >? 30); [|done]. destruct (_ >? 0).
    + pose proof (movesOnly_seriesData _ (with_wheelDelta (wheelDelta st + deltaY)
         (with_lastWheelTime now st)) (showNextFrame_movesOnly true (Some seriesName))) as H.
      destruct (showNextFrame _ _ _) as [st' ?]. exact H.
    + pose proof (movesOnly_seriesData _ (with_wheelDelta (wheelDelta st + deltaY)
         (with_lastWheelTime now st)) (showPreviousFrame_movesOnly true (Some seriesName))) as H.
      destruct (showPreviousFrame _ _ _) as [st' ?]. exact H.
  - apply Hkeep, movesOnly_seriesData, showPreviousFrame_movesOnly.
  - apply Hkeep, movesOnly_seriesData, showNextFrame_movesOnly.
  - apply Hkeep, movesOnly_seriesData, showFrame_movesOnly.
  - apply Hkeep. destruct (isPlaying st); simpl; [|done].
    by rewrite startPlayback_seriesData, stopPlayback_seriesData.
  - apply Hkeep. unfold togglePlayback. simpl. destruct (negb (isPlaying st)).
    + by rewrite startPlayback_seriesData.
    + by rewrite stopPlayback_seriesData.
  - destruct (scheduledFrame st) as [c|]; [|done]. apply Hkeep.
    unfold framePlayback. simpl. destruct (negb (isPlaying st)); [done|].
    destruct (fires c time); simpl; [|done].
    destruct (advance c _) as [[st' effects]|] eqn:Hadv; [|done].
    by apply advance_seriesData in Hadv.
Qed.

(** In every reachable state the series are consistent with their frames. *)
Lemma reachable_consistent st : reachable st → catalogueConsistent st.
Proof.
  intros [events ->]. unfold run.
  induction events as [|e events IH] using rev_ind; [apply map_Forall_empty|].
  rewrite foldl_snoc. set (st := foldl step initialView events) in *.
  destruct (sameDisplay_fields _ _ (settle_sameDisplay (handle e st))) as (_&_&_&Hsd&_).
  unfold catalogueConsistent, step. rewrite Hsd. by apply handle_consistent.
Qed.

(** ** The example of the specification *)

Example detect_T1 :
  info_name (detectSeriesFromFileName "T1_01.jpg") = T1WI.
Proof. reflexivity. Qed.

Example detect_T2_lowercase :
  info_name (detectSeriesFromFileName "brain_t2_017.jpg") = T2WI.
Proof. reflexivity. Qed.

Example detect_series :
  detectSeriesFromFileName "brain_Series_ 12_007.jpg"
  = {| info_name := "序列 12"; info_number := 12 |}.
Proof. vm_compute. reflexivity. Qed.

Example last_number_ex : last_number "T1_01.jpg" = Some "01"%string.
Proof. reflexivity. Qed.




(** ** Wheel stepping *)

Lemma handleWheelScroll_accepted st now deltaY seriesName :
  30 ≤ now - lastWheelTime st →
  lastWheelTime (settle (handleWheelScroll now deltaY seriesName st)) = now.
Proof.
  intros Hacc.
  destruct (sameDisplay_fields _ _
              (settle_sameDisplay (handleWheelScroll now deltaY seriesName st)))
    as (_&_&_&_&_&_&_&_&->).
  unfold handleWheelScroll. replace (now - lastWheelTime st <? 30) with false by lia.
  cbn [wheelDelta with_wheelDelta with_lastWheelTime].
  set (st0 := with_wheelDelta _ (with_lastWheelTime now st)).
  destruct (Z.abs _ >? 30); [|done].
  destruct (_ >? 0).
  - destruct (showNextFrame_movesOnly true (Some seriesName) st0) as (av & i & p & H).
    destruct (showNextFrame _ _ st0) as [st' effects]. simpl in *. by rewrite H.
  - destruct (showPreviousFrame_movesOnly true (Some seriesName) st0) as (av & i & p & H).
    destruct (showPreviousFrame _ _ st0) as [st' effects]. simpl in *. by rewrite H.
Qed.

(** C10.  The throttle time stamp and the delta accumulator are one pair
    of fields of the view, shared by all series.  After a wheel event
    accepted at [now1] on [series1], an event on any series [series2]
    (the same or another) that comes less than 30 ms later is dropped;
    and when the first event left its delta in the accumulator, a later
    accepted event on any series adds to that same accumulator: the sum
    of both deltas is what is compared with the threshold of 30, and
    crossing it navigates once, on [series2], and resets the accumulator. *)
Theorem wheel_state_shared st now1 delta1 series1 now2 delta2 series2 :
  30 ≤ now1 - lastWheelTime st →
  let st1 := settle (handleWheelScroll now1 delta1 series1 st) in
  lastWheelTime st1 = now1 ∧
  (now2 - now1 < 30 → handleWheelScroll now2 delta2 series2 st1 = (st1, [])) ∧
  (Z.abs (wheelDelta st + delta1) ≤ 30 → 30 ≤ now2 - now1 →
     let total := wheelDelta st + delta1 + delta2 in
     let st2 := with_wheelDelta total (with_lastWheelTime now2 st1) in
     wheelDelta st1 = wheelDelta st + delta1 ∧
     handleWheelScroll now2 delta2 series2 st1 =
       if Z.abs total >? 30 then
         let r := if total >? 0 then showNextFrame true (Some series2) st2
                  else showPreviousFrame true (Some series2) st2 in
         (with_wheelDelta 0 r.1, r.2)
       else (st2, [])).
Proof.
  intros Hacc st1.
  pose proof (handleWheelScroll_accepted st now1 delta1 series1 Hacc) as Hlast.
  fold st1 in Hlast. split_and!.
  - exact Hlast.
  - intros Hdrop. unfold handleWheelScroll. rewrite Hlast.
    by replace (now2 - now1 <? 30) with true by lia.
  - intros Hsmall Hacc2 total st2.
    assert (Hst1 : st1 = with_wheelDelta (wheelDelta st + delta1) (with_lastWheelTime now1 st)).
    { subst st1. unfold handleWheelScroll.
      replace (now1 - lastWheelTime st <? 30) with false by lia.
      cbn [wheelDelta with_wheelDelta with_lastWheelTime].
      by replace (Z.abs (wheelDelta st + delta1) >? 30) with false by lia. }
    split; [by rewrite Hst1|].
    unfold handleWheelScroll. rewrite Hlast.
    replace (now2 - now1 <? 30) with false by lia.
    cbn [wheelDelta with_wheelDelta with_lastWheelTime].
    replace (wheelDelta st1 + delta2) with total by (subst total; by rewrite Hst1).
    fold st2. destruct (Z.abs total >? 30); [|done].
    destruct (total >? 0).
    + by destruct (showNextFrame true (Some series2) st2).
    + by destruct (showPreviousFrame true (Some series2) st2).
Qed.

Lemma wheel_state_shared_witness :
  handleWheelScroll 110 20 T2WI (settle (handleWheelScroll 100 20 T1WI exampleUnsynced))
  = (settle (handleWheelScroll 100 20 T1WI exampleUnsynced), []) ∧
  wheelDelta (settle (handleWheelScroll 100 20 T1WI exampleUnsynced)) = 20.
Proof.
  pose proof (wheel_state_shared exampleUnsynced 100 20 T1WI 110 20 T2WI) as H.
  destruct H as (_ & Hdrop & _); [by vm_compute|].
  pose proof (wheel_state_shared exampleUnsynced 100 20 T1WI 140 20 T2WI) as H.
  destruct H as (_ & _ & Hsum); [by vm_compute|].
  destruct Hsum as [Hsum _]; [by vm_compute..|].
  split; [apply Hdrop; by vm_compute|].
  rewrite Hsum. vm_compute; reflexivity.
Defined.

(** Two wheel events of 20 units each, the first over T1WI and the
    second, 40 ms later, over T2WI: neither series received more than 30
    units, yet the second event steps T2WI. *)
Example wheel_deltas_cross_series :
  let st1 := step exampleUnsynced (Wheel 100 20 T1WI) in
  let st2 := step st1 (Wheel 140 20 T2WI) in
  (displayedFrame st1 T1WI, displayedFrame st1 T2WI, wheelDelta st1) = (Some 0, Some 0, 20) ∧
  (displayedFrame st2 T1WI, displayedFrame st2 T2WI, wheelDelta st2) = (Some 0, Some 1, 0) ∧
  step st1 (Wheel 110 20 T2WI) = st1.
Proof. vm_compute. repeat split. Qed.

(** ** Playback pacing *)













(** ** File names: what the patterns match *)

Lemma append_cons a s t : String a s +:+ t = String a (s +:+ t).
Proof. done. Qed.

Lemma append_assoc s t u : (s +:+ t) +:+ u = s +:+ t +:+ u.
Proof. induction s as [|a s IH]; [done|]. by rewrite !append_cons, IH. Qed.

Lemma prefix_ci_spec pat s :
  prefix_ci pat s = true ↔ ∃ mid post, s = mid +:+ post ∧ same_ci pat mid.
Proof.
  revert s. induction pat as [|p pat IH]; intros s; simpl.
  - split; [intros _; by exists EmptyString, s|done].
  - destruct s as [|c s].
    + split; [done|]. intros (mid & post & Hs & Hm). destruct mid; [done|]. discriminate Hs.
    + rewrite andb_true_iff, IH. split.
      * intros [Hc (mid & post & -> & Hm)]. exists (String c mid), post.
        split; [done|]. simpl. split; [|done]. by apply Ascii.eqb_eq.
      * intros (mid & post & Hs & Hm). destruct mid as [|m mid]; [done|].
        simpl in Hs, Hm. injection Hs as -> ->. destruct Hm as [Hu Hm].
        split; [by apply Ascii.eqb_eq|]. by exists mid, post.
Qed.

Lemma test_ci_spec pat s : test_ci pat s = true ↔ contains_ci pat s.
Proof.
  unfold contains_ci. induction s as [|c s IH].
  - simpl. rewrite orb_false_r, prefix_ci_spec. split.
    + intros (mid & post & Hs & Hm). by exists EmptyString, mid, post.
    + intros (pre & mid & post & Hs & Hm). destruct pre; [|discriminate Hs]. by exists mid, post.
  - change (test_ci pat (String c s)) with (prefix_ci pat (String c s) || test_ci pat s).
    rewrite orb_true_iff, IH, prefix_ci_spec. split.
    + intros [(mid & post & Hs & Hm)|(pre & mid & post & -> & Hm)].
      * by exists EmptyString, mid, post.
      * by exists (String c pre), mid, post.
    + intros (pre & mid & post & Hs & Hm). destruct pre as [|c' pre].
      * left. by exists mid, post.
      * right. simpl in Hs. injection Hs as -> ->. by exists pre, mid, post.
Qed.

Lemma contains_ci_longer pat extra s : contains_ci (pat +:+ extra) s → contains_ci pat s.
Proof.
  intros (pre & mid & post & -> & Hm).
  assert (∃ m1 m2, mid = m1 +:+ m2 ∧ same_ci pat m1) as (m1 & m2 & -> & H1).
  { clear pre post. revert mid Hm. induction pat as [|p pat IH]; intros mid Hm.
    - by exists EmptyString, mid.
    - simpl in Hm. destruct mid as [|m mid]; [done|]. destruct Hm as [Hu Hm].
      destruct (IH mid Hm) as (m1 & m2 & -> & H1). by exists (String m m1), m2. }
  exists pre, m1, (m2 +:+ post). split; [|done]. by rewrite append_assoc.
Qed.

Lemma contains_ci_shorter pat s c :
  contains_ci (String c pat) s → contains_ci pat s.
Proof.
  intros (pre & mid & post & -> & Hm). destruct mid as [|m mid]; [done|].
  destruct Hm as [_ Hm]. exists (pre +:+ String m EmptyString), mid, post. split; [|done].
  by rewrite append_assoc.
Qed.

Lemma test_ci_T_alternatives d s :
  test_ci (String "T" (String d "")) s
  || test_ci (String "T" (String d "_")) s
  || test_ci (String "_" (String "T" (String d ""))) s
  = test_ci (String "T" (String d "")) s.
Proof.
  destruct (test_ci (String "T" (String d "")) s) eqn:H; [done|]. simpl.
  apply not_true_iff_false in H. rewrite test_ci_spec in H.
  apply orb_false_iff. split; apply not_true_iff_false; rewrite test_ci_spec; intros Hc; apply H.
  - by apply (contains_ci_longer (String "T" (String d "")) "_").
  - by apply (contains_ci_shorter _ _ "_"%char).
Qed.

(** X1.  The classification by file name is first-match-wins in the order
    T1, T2, FLAIR, DWI, SWI, ADC: a name is classified T1 exactly when it
    contains "t1" in any letter case, T2 exactly when it contains "t2" and
    no "t1", and so on down the list; the alternatives [T1_] and [_T1] of
    the source pattern add nothing. *)
Theorem detect_precedence fileName :
  let name := info_name (detectSeriesFromFileName fileName) in
  let has pat := contains_ci pat fileName in
  (name = T1WI ↔ has "T1") ∧
  (name = T2WI ↔ ¬ has "T1" ∧ has "T2") ∧
  (name = "FLAIR序列" ↔ ¬ has "T1" ∧ ¬ has "T2" ∧ has "FLAIR") ∧
  (name = "弥散加权像 (DWI)" ↔ ¬ has "T1" ∧ ¬ has "T2" ∧ ¬ has "FLAIR" ∧ has "DWI") ∧
  (name = "磁敏感加权成像 (SWI)" ↔
     ¬ has "T1" ∧ ¬ has "T2" ∧ ¬ has "FLAIR" ∧ ¬ has "DWI" ∧ has "SWI") ∧
  (name = "ADC图" ↔
     ¬ has "T1" ∧ ¬ has "T2" ∧ ¬ has "FLAIR" ∧ ¬ has "DWI" ∧ ¬ has "SWI" ∧ has "ADC").
Proof.
  intros name has. subst name has. unfold detectSeriesFromFileName.
  rewrite !test_ci_T_alternatives. rewrite <- !test_ci_spec.
  destruct (test_ci "T1" fileName), (test_ci "T2" fileName), (test_ci "FLAIR" fileName),
    (test_ci "DWI" fileName), (test_ci "SWI" fileName), (test_ci "ADC" fileName);
    cbn [orb info_name]; try destruct (series_pattern fileName); cbn [info_name].
  all: repeat split; intros; try discriminate; try done; try (exfalso; tauto).
Qed.

(** X2.  No detected series name is empty, ["positions"] or ["indexMap"]:
    used as a key of [positionMap], a series name never overwrites the
    fields of that object, and used as a condition ([if (targetSeries)])
    it is never falsy. *)
Theorem detect_name_not_reserved fileName :
  let name := info_name (detectSeriesFromFileName fileName) in
  name ≠ "" ∧ name ≠ "positions" ∧ name ≠ "indexMap" ∧ truthy (Some name) = Some name.
Proof.
  intros name. subst name. unfold detectSeriesFromFileName.
  repeat (match goal with |- context [if ?b then _ else _] => destruct b end;
          [by repeat split|]).
  by destruct (series_pattern fileName).
Qed.

(** ** Frame numbers *)

Lemma all_chars_app P s t : all_chars P (s +:+ t) ↔ all_chars P s ∧ all_chars P t.
Proof.
  induction s as [|c s IH]; [simpl; tauto|].
  rewrite append_cons. simpl. rewrite IH. tauto.
Qed.












(** ** Sorting by frame number *)

Lemma insert_by_number_perm x xs : insert_by_number x xs ≡ₚ x :: xs.
Proof.
  induction xs as [|y xs IH]; simpl; [done|].
  destruct (x.2 <=? y.2); [done|]. rewrite IH. apply Permutation_swap.
Qed.

Lemma insert_by_number_sorted x xs :
  StronglySorted (λ a b : File.t * Z, a.2 ≤ b.2) xs →
  StronglySorted (λ a b : File.t * Z, a.2 ≤ b.2) (insert_by_number x xs).
Proof.
  induction 1 as [|y xs Hs IH Hy]; simpl; [repeat constructor|].
  destruct (x.2 <=? y.2) eqn:Hle.
  - constructor; [by constructor|]. constructor; [lia|].
    eapply Forall_impl; [exact Hy|]. simpl. lia.
  - constructor; [done|]. rewrite insert_by_number_perm. constructor; [lia|done].
Qed.

Lemma insert_by_number_filter k x xs :
  filter (λ a : File.t * Z, a.2 = k) (insert_by_number x xs)
  = filter (λ a : File.t * Z, a.2 = k) (x :: xs).
Proof.
  induction xs as [|y xs IH]; simpl; [done|].
  destruct (x.2 <=? y.2) eqn:Hle; [done|].
  rewrite filter_cons, IH, !filter_cons.
  destruct (decide (y.2 = k)), (decide (x.2 = k)); try done. lia.
Qed.

Lemma sort_by_number_perm xs : sort_by_number xs ≡ₚ xs.
Proof.
  unfold sort_by_number. induction xs as [|x xs IH]; simpl; [done|].
  by rewrite insert_by_number_perm, IH.
Qed.

(** X4.  Sorting by frame number only reorders the files, puts the frame
    numbers in ascending order, and keeps files with equal frame numbers
    in the order in which they were selected. *)
Theorem sort_by_number_stable xs :
  sort_by_number xs ≡ₚ xs ∧
  StronglySorted (λ a b : File.t * Z, a.2 ≤ b.2) (sort_by_number xs) ∧
  ∀ k, filter (λ a : File.t * Z, a.2 = k) (sort_by_number xs)
       = filter (λ a : File.t * Z, a.2 = k) xs.
Proof.
  unfold sort_by_number. induction xs as [|x xs (Hp & Hs & Hf)]; simpl.
  - repeat split; constructor.
  - split_and!.
    + by rewrite insert_by_number_perm, Hp.
    + by apply insert_by_number_sorted.
    + intros k. by rewrite insert_by_number_filter, !filter_cons, Hf.
Qed.

Lemma sort_by_number_length xs : length (sort_by_number xs) = length xs.
Proof. apply Permutation_length, sort_by_number_perm. Qed.

Lemma sortedFiles_length files : length (sortedFiles files) = length files.
Proof. unfold sortedFiles. by rewrite sort_by_number_length, length_map. Qed.

(** ** Building a series *)

Lemma preloadImage_objectUrls url st :
  objectUrls (preloadImage url st).1 = objectUrls st.
Proof. by destruct (preloadImage_shape url st) as (c & q & ->). Qed.

(** The loop of [processSeriesFiles] in closed form. *)
Lemma addFrames_spec xs frames st :
  (foldl addFrame (frames, st) xs).1
  = frames ++ imap (λ j, frameAt (length (objectUrls st) + j) (length frames + j)) xs ∧
  objectUrls (foldl addFrame (frames, st) xs).2
  = objectUrls st ++ ((λ x : File.t * Z, File.content x.1) <$> xs).
Proof.
  revert frames st. induction xs as [|x xs IH]; intros frames st.
  - simpl. by rewrite !app_nil_r.
  - change (foldl addFrame (frames, st) (x :: xs))
      with (foldl addFrame (addFrame (frames, st) x) xs).
    unfold addFrame at 2 4. unfold createObjectURL.
    set (frame := {| SeriesFrame.file := x.1 |}).
    set (st1 := (preloadImage _ _).1).
    destruct (IH (frames ++ [frame]) st1) as [-> ->].
    assert (Hu : objectUrls st1 = objectUrls st ++ [File.content x.1]).
    { subst st1. by rewrite preloadImage_objectUrls. }
    rewrite Hu, !length_app. simpl. split.
    + rewrite <- app_assoc. f_equal. simpl. f_equal.
      * unfold frame, frameAt. by rewrite !Nat.add_0_r.
      * apply imap_ext. intros j y _. simpl. f_equal; lia.
    + by rewrite <- app_assoc.
Qed.

Lemma processSeriesFiles_lookup seriesName files st :
  seriesData (processSeriesFiles seriesName files st) !! seriesName
  = Some {| SeriesData.name := seriesName;
            SeriesData.frames :=
              imap (λ i, frameAt (length (objectUrls st) + i) i) (sortedFiles files);
            SeriesData.sliceThickness := 5;
            SeriesData.sliceSpacing := 5;
            SeriesData.positions :=
              SeriesFrame.position <$>
                imap (λ i, frameAt (length (objectUrls st) + i) i) (sortedFiles files) |}.
Proof.
  unfold processSeriesFiles. fold (sortedFiles files).
  destruct (addFrames_spec (sortedFiles files) [] st) as [Hf _].
  destruct (foldl addFrame ([], st) (sortedFiles files)) as [frames st1].
  simpl in Hf. subst frames. simpl. by rewrite lookup_insert_eq.
Qed.

Lemma processSeriesFiles_other seriesName files st other :
  other ≠ seriesName →
  seriesData (processSeriesFiles seriesName files st) !! other = seriesData st !! other.
Proof.
  intros Hne. unfold processSeriesFiles.
  pose proof (addFrames_seriesData (sort_by_number (map (λ f, (f, frameNumberOf f)) files))
                [] st) as Hsd.
  destruct (foldl addFrame _ _) as [frames st1]. simpl in *.
  by rewrite lookup_insert_ne, Hsd.
Qed.

Lemma processSeriesFiles_objectUrls seriesName files st :
  objectUrls (processSeriesFiles seriesName files st)
  = objectUrls st ++ ((λ x : File.t * Z, File.content x.1) <$> sortedFiles files).
Proof.
  unfold processSeriesFiles. fold (sortedFiles files).
  destruct (addFrames_spec (sortedFiles files) [] st) as [_ Hu].
  by destruct (foldl addFrame ([], st) (sortedFiles files)) as [frames st1].
Qed.

(** X5.  [processSeriesFiles] stores under the series name one frame per
    file, in ascending order of frame number; the frame of rank [i] gets
    position [5 * i] whatever its frame number is (gaps in the numbering
    leave no gaps in the positions), a fresh object URL registered with the
    content of its file, and the name of its file; no file is left out, and
    the other series are not touched. *)
Theorem processSeriesFiles_series seriesName files st :
  ∃ series,
    seriesData (processSeriesFiles seriesName files st) !! seriesName = Some series ∧
    length (SeriesData.frames series) = length files ∧
    SeriesData.positions series = (λ i, Z.of_nat i * 5) <$> seq 0 (length files) ∧
    (∀ i fr, SeriesData.frames series !! i = Some fr →
       ∃ x, sortedFiles files !! i = Some x ∧
            SeriesFrame.file fr = x.1 ∧ SeriesFrame.name fr = File.name x.1 ∧
            SeriesFrame.frameNumber fr = frameNumberOf x.1 ∧
            SeriesFrame.position fr = Z.of_nat i * 5 ∧
            SeriesFrame.url fr = (length (objectUrls st) + i)%nat ∧
            objectUrls (processSeriesFiles seriesName files st) !! SeriesFrame.url fr
            = Some (File.content x.1)) ∧
    (∀ other, other ≠ seriesName →
       seriesData (processSeriesFiles seriesName files st) !! other
       = seriesData st !! other).
Proof.
  eexists. split; [apply processSeriesFiles_lookup|]. simpl. split_and!.
  - by rewrite length_imap, sortedFiles_length.
  - rewrite <- (sortedFiles_length files). generalize (sortedFiles files). intros xs.
    apply list_eq. intros i. rewrite !list_lookup_fmap, list_lookup_imap.
    destruct (xs !! i) eqn:Hi; simpl.
    + by rewrite lookup_seq_lt by (by eapply lookup_lt_Some).
    + by rewrite lookup_seq_ge by (by apply lookup_ge_None).
  - intros i fr Hfr. rewrite list_lookup_imap in Hfr.
    destruct (sortedFiles files !! i) as [x|] eqn:Hx; [|done].
    simpl in Hfr. injection Hfr as <-. exists x. split_and!; try done.
    + unfold sortedFiles in Hx.
      assert (Hin : x ∈ map (λ f, (f, frameNumberOf f)) files).
      { rewrite <- (sort_by_number_perm _). by eapply list_elem_of_lookup_2. }
      apply list_elem_of_fmap in Hin as (f & -> & _). done.
    + rewrite processSeriesFiles_objectUrls. simpl.
      rewrite lookup_app_r by lia. rewrite list_lookup_fmap.
      replace (length (objectUrls st) + i - length (objectUrls st))%nat with i by lia.
      by rewrite Hx.
  - intros other Hne. by apply processSeriesFiles_other.
Qed.

(** ** Grouping the chosen files *)

Lemma group_push_names n f gs m :
  m ∈ (group_push n f gs).*1 ↔ m = n ∨ m ∈ gs.*1.
Proof.
  induction gs as [|[k h] gs IH]; simpl.
  - rewrite list_elem_of_singleton, elem_of_nil. tauto.
  - case_bool_decide as Hk; simpl in *.
    + subst k. rewrite !elem_of_cons. tauto.
    + rewrite !elem_of_cons, IH. tauto.
Qed.

Lemma group_push_spec n f gs :
  NoDup gs.*1 →
  NoDup (group_push n f gs).*1 ∧
  ∀ m g, (m, g) ∈ group_push n f gs ↔
    (m ≠ n ∧ (m, g) ∈ gs) ∨
    (m = n ∧ ∃ g0, g = g0 ++ [f] ∧ ((n, g0) ∈ gs ∨ (g0 = [] ∧ n ∉ gs.*1))).
Proof.
  induction gs as [|[k h] gs IH]; simpl; intros Hnd.
  - split; [apply NoDup_singleton|]. intros m g.
    rewrite list_elem_of_singleton. split.
    + intros [= -> ->]. right. split; [done|]. exists []. split; [done|].
      right. split; [done|]. apply not_elem_of_nil.
    + intros [[_ H]|(-> & g0 & -> & [H|[-> _]])]; try by apply elem_of_nil in H.
      done.
  - apply NoDup_cons in Hnd as [Hk Hnd]. case_bool_decide as Hkn; simpl in *.
    + subst k. split; [by apply NoDup_cons|]. intros m g.
      rewrite elem_of_cons. split.
      * intros [[= -> ->]|Hin].
        -- right. split; [done|]. exists h. split; [done|]. left. by left.
        -- left. split; [|by right]. intros ->. apply Hk.
           apply list_elem_of_fmap. by exists (n, g).
      * intros [[Hm Hin]|(-> & g0 & -> & [Hin|[_ Hno]])].
        -- apply elem_of_cons in Hin as [[= -> ->]|Hin]; [done|by right].
        -- apply elem_of_cons in Hin as [[= ->]|Hin]; [by left|].
           exfalso. apply Hk. apply list_elem_of_fmap. by exists (n, g0).
        -- exfalso. apply Hno. by left.
    + destruct (IH Hnd) as [IHnd IHm]. split.
      * apply NoDup_cons. split; [|done]. rewrite group_push_names.
        intros [->|H]; done.
      * intros m g. rewrite elem_of_cons, IHm. split.
        -- intros [[= -> ->]|[[Hm Hin]|(-> & g0 & -> & [Hin|[-> Hno]])]].
           ++ left. split; [done|]. by left.
           ++ left. split; [done|]. by right.
           ++ right. split; [done|]. exists g0. split; [done|]. left. by right.
           ++ right. split; [done|]. exists []. split; [done|]. right. split; [done|].
              rewrite not_elem_of_cons. done.
        -- intros [[Hm Hin]|(-> & g0 & -> & [Hin|[-> Hno]])].
           ++ apply elem_of_cons in Hin as [[= -> ->]|Hin]; [by left|].
              right. left. done.
           ++ apply elem_of_cons in Hin as [[= -> ->]|Hin]; [done|].
              right. right. split; [done|]. exists g0. split; [done|]. by left.
           ++ right. right. split; [done|]. exists []. split; [done|]. right.
              split; [done|]. apply not_elem_of_cons in Hno. tauto.
Qed.

Lemma groupFiles_snoc files f :
  groupFiles (files ++ [f]) = group_push (seriesOf f) f (groupFiles files).
Proof. unfold groupFiles. by rewrite foldl_snoc. Qed.

Lemma groupFiles_groups files :
  NoDup (groupFiles files).*1 ∧
  ∀ seriesName group,
    (seriesName, group) ∈ groupFiles files ↔
    group ≠ [] ∧ group = filter (λ f, seriesOf f = seriesName) files.
Proof.
  induction files as [|f files [IHnd IH]] using rev_ind.
  - split; [apply NoDup_nil_2|]. intros m g. change (groupFiles []) with (@nil (string * list File.t)).
    rewrite elem_of_nil. split; [done|]. by intros [H ->].
  - rewrite groupFiles_snoc.
    destruct (group_push_spec (seriesOf f) f (groupFiles files) IHnd) as [Hnd Hm].
    split; [done|]. intros m g. rewrite Hm, filter_app.
    assert (Hone : filter (λ f0, seriesOf f0 = m) [f]
                   = if decide (seriesOf f = m) then [f] else []).
    { rewrite filter_cons. by destruct (decide _). }
    rewrite Hone. clear Hone Hm. split.
    + intros [[Hne Hin]|(-> & g0 & -> & H)].
      * apply IH in Hin as [Hg ->]. rewrite decide_False by done.
        by rewrite app_nil_r.
      * rewrite decide_True by done. split; [by destruct g0|]. f_equal.
        destruct H as [Hin|[-> Hno]]; [by apply IH in Hin as [_ ->]|].
        destruct (filter _ files) as [|x xs] eqn:Hf; [done|]. exfalso. apply Hno.
        apply list_elem_of_fmap. exists (seriesOf f, x :: xs). split; [done|].
        apply IH. by rewrite Hf.
    + intros [Hg ->]. destruct (decide (seriesOf f = m)) as [<-|Hne].
      * right. split; [done|]. eexists. split; [done|].
        destruct (filter _ files) as [|x xs] eqn:Hf.
        -- right. split; [done|]. intros Hin.
           apply list_elem_of_fmap in Hin as ([m g'] & Hm & Hin). simpl in Hm. subst m.
           apply IH in Hin as [Hg' ->]. by rewrite Hf in Hg'.
        -- left. apply IH. by rewrite Hf.
      * left. split; [done|]. rewrite app_nil_r in *. by apply IH.
Qed.

(** X6.  [handleFileSelect] groups the chosen files by detected series:
    no series name occurs twice among the groups, and the group of a name
    consists of exactly the chosen files detected as that series, in the
    order in which they were chosen; a name none of the files is detected as
    has no group, so every group is non-empty. *)
Theorem groupFiles_partition files :
  NoDup (groupFiles files).*1 ∧
  (∀ seriesName group,
     (seriesName, group) ∈ groupFiles files ↔
     group ≠ [] ∧ group = filter (λ f, seriesOf f = seriesName) files) ∧
  (∀ f, f ∈ files → ∃ group, (seriesOf f, group) ∈ groupFiles files ∧ f ∈ group).
Proof.
  destruct (groupFiles_groups files) as [Hnd Hm]. split_and!; [done..|].
  intros f Hf. exists (filter (λ f0, seriesOf f0 = seriesOf f) files).
  assert (Hin : f ∈ filter (λ f0, seriesOf f0 = seriesOf f) files).
  { by apply list_elem_of_filter. }
  split; [|done]. apply Hm. split; [|done]. intros H. rewrite H in Hin.
  by apply elem_of_nil in Hin.
Qed.

(** ** The catalogue after a selection *)

Lemma frameAt_files u xs :
  SeriesFrame.file <$> imap (λ i, frameAt (u + i) i) xs = xs.*1.
Proof.
  apply list_eq. intros i. rewrite !list_lookup_fmap, list_lookup_imap.
  by destruct (xs !! i).
Qed.

Lemma frameAt_positions u xs :
  SeriesFrame.position <$> imap (λ i, frameAt (u + i) i) xs
  = (λ i, Z.of_nat i * 5) <$> seq 0 (length xs).
Proof.
  apply list_eq. intros i. rewrite !list_lookup_fmap, list_lookup_imap.
  destruct (xs !! i) eqn:Hi; simpl.
  - by rewrite lookup_seq_lt by (by eapply lookup_lt_Some).
  - by rewrite lookup_seq_ge by (by apply lookup_ge_None).
Qed.

(** The series [processSeriesFiles] stores for [files] when [u] object URLs
    were created before. *)
Lemma processGroups_lookup groups st seriesName :
  NoDup groups.*1 →
  let st' := foldl (λ st g, processSeriesFiles g.1 g.2 st) st groups in
  (∀ files, (seriesName, files) ∈ groups →
     ∃ u series, seriesData st' !! seriesName = Some series ∧
       SeriesData.name series = seriesName ∧
       SeriesData.frames series = imap (λ i, frameAt (u + i) i) (sortedFiles files) ∧
       SeriesData.positions series = SeriesFrame.position <$> SeriesData.frames series) ∧
  (seriesName ∉ groups.*1 → seriesData st' !! seriesName = seriesData st !! seriesName).
Proof.
  revert st. induction groups as [|[k h] groups IH]; intros st Hnd; simpl.
  - split; [|done]. intros files H. by apply elem_of_nil in H.
  - apply NoDup_cons in Hnd as [Hk Hnd].
    destruct (IH (processSeriesFiles k h st) Hnd) as [IHin IHout]. split.
    + intros files [[= -> ->]|Hin]%elem_of_cons; [|by apply IHin].
      rewrite (IHout Hk), processSeriesFiles_lookup.
      by eexists _, _.
    + intros [Hne Hno]%not_elem_of_cons. rewrite (IHout Hno).
      by apply processSeriesFiles_other.
Qed.

Lemma handleFileSelect_seriesData f files st :
  seriesData (settle (handleFileSelect (f :: files) st))
  = seriesData
      (foldl (λ st g, processSeriesFiles g.1 g.2 st)
         (with_activeSeries None
            (with_imageCache ∅ (with_activeViewers ∅ (with_seriesData ∅ st))))
         (groupFiles (f :: files))).
Proof.
  destruct (sameDisplay_fields _ _ (settle_sameDisplay (handleFileSelect (f :: files) st)))
    as (_&_&_&->&_).
  unfold handleFileSelect. rewrite andThen_fst.
  rewrite movesOnly_seriesData by apply showFrame_movesOnly.
  by rewrite createSeriesViewers_seriesData.
Qed.

(** X7.  Choosing a non-empty batch of files replaces the catalogue: a
    series exists afterwards exactly when one of the chosen files is
    detected as it (whatever was loaded before is dropped), and its frames
    are the chosen files of that series in ascending order of frame number
    (files with equal numbers in the order chosen), placed 5 units apart
    from position 0. *)
Theorem handleFileSelect_catalogue files st :
  files ≠ [] →
  let st' := settle (handleFileSelect files st) in
  (∀ seriesName,
     is_Some (seriesData st' !! seriesName) ↔ ∃ f, f ∈ files ∧ seriesOf f = seriesName) ∧
  (∀ seriesName series,
     seriesData st' !! seriesName = Some series →
     SeriesData.name series = seriesName ∧
     SeriesFrame.file <$> SeriesData.frames series
     = (sortedFiles (filter (λ f, seriesOf f = seriesName) files)).*1 ∧
     SeriesData.frames series ≠ [] ∧
     SeriesData.positions series
     = (λ i, Z.of_nat i * 5) <$> seq 0 (length (SeriesData.frames series))).
Proof.
  intros Hne st'. destruct files as [|f0 files]; [done|]. clear Hne.
  set (fs := f0 :: files) in *.
  assert (Hsd : seriesData st' = seriesData
      (foldl (λ st g, processSeriesFiles g.1 g.2 st)
         (with_activeSeries None
            (with_imageCache ∅ (with_activeViewers ∅ (with_seriesData ∅ st))))
         (groupFiles fs))) by apply handleFileSelect_seriesData.
  destruct (groupFiles_groups fs) as [Hnd Hgroups].
  assert (Hcases : ∀ seriesName,
    (∃ f, f ∈ fs ∧ seriesOf f = seriesName) ∨ seriesName ∉ (groupFiles fs).*1).
  { intros n. destruct (decide (n ∈ (groupFiles fs).*1)) as [Hin|Hno]; [left|by right].
    apply list_elem_of_fmap in Hin as ([m g] & -> & Hin). apply Hgroups in Hin as [Hg ->].
    destruct (filter _ fs) as [|x xs] eqn:Hf; [done|].
    assert (Hx : x ∈ filter (λ f, seriesOf f = m) fs) by (rewrite Hf; by left).
    apply list_elem_of_filter in Hx as [Hx1 Hx2]. by exists x. }
  assert (Hbuilt : ∀ seriesName f, f ∈ fs → seriesOf f = seriesName →
    ∃ u series, seriesData st' !! seriesName = Some series ∧
      SeriesData.name series = seriesName ∧
      SeriesData.frames series
      = imap (λ i, frameAt (u + i) i)
             (sortedFiles (filter (λ f, seriesOf f = seriesName) fs)) ∧
      SeriesData.positions series = SeriesFrame.position <$> SeriesData.frames series ∧
      filter (λ f, seriesOf f = seriesName) fs ≠ []).
  { intros n f Hf Hn.
    assert (Hg : filter (λ f, seriesOf f = n) fs ≠ []).
    { intros H. assert (Hin : f ∈ filter (λ f, seriesOf f = n) fs)
        by (by apply list_elem_of_filter).
      rewrite H in Hin. by apply elem_of_nil in Hin. }
    assert (Hin : (n, filter (λ f, seriesOf f = n) fs) ∈ groupFiles fs) by (by apply Hgroups).
    destruct (processGroups_lookup (groupFiles fs)
                (with_activeSeries None
                   (with_imageCache ∅ (with_activeViewers ∅ (with_seriesData ∅ st))))
                n Hnd) as [Hlook _].
    destruct (Hlook _ Hin) as (u & series & H1 & H2 & H3 & H4).
    exists u, series. rewrite Hsd. done. }
  split.
  - intros n. split.
    + intros Hsome. destruct (Hcases n) as [H|Hno]; [done|]. exfalso.
      destruct (processGroups_lookup (groupFiles fs)
                  (with_activeSeries None
                     (with_imageCache ∅ (with_activeViewers ∅ (with_seriesData ∅ st))))
                  n Hnd) as [_ Hout].
      rewrite Hsd, (Hout Hno) in Hsome. simpl in Hsome.
      rewrite lookup_empty in Hsome. by destruct Hsome.
    + intros (f & Hf & Hn). destruct (Hbuilt n f Hf Hn) as (u & series & -> & _). done.
  - intros n series Hs.
    destruct (Hcases n) as [(f & Hf & Hn)|Hno].
    + destruct (Hbuilt n f Hf Hn) as (u & series' & H1 & H2 & H3 & H4 & H5).
      rewrite Hs in H1. injection H1 as <-. split_and!.
      * done.
      * rewrite H3. apply frameAt_files.
      * rewrite H3. intros Himap. apply (f_equal length) in Himap.
        rewrite length_imap, sortedFiles_length in Himap. simpl in Himap.
        by apply length_zero_iff_nil in Himap.
      * rewrite H4, H3, frameAt_positions. by rewrite length_imap.
    + exfalso.
      destruct (processGroups_lookup (groupFiles fs)
                  (with_activeSeries None
                     (with_imageCache ∅ (with_activeViewers ∅ (with_seriesData ∅ st))))
                  n Hnd) as [_ Hout].
      rewrite Hsd, (Hout Hno) in Hs. simpl in Hs. by rewrite lookup_empty in Hs.
Qed.

Lemma handleFileSelect_catalogue_witness :
  exampleFiles ≠ [] ∧
  ∀ seriesName series,
    seriesData (settle (handleFileSelect exampleFiles initialView)) !! seriesName
    = Some series →
    SeriesData.positions series
    = (λ i, Z.of_nat i * 5) <$> seq 0 (length (SeriesData.frames series)).
Proof.
  split; [done|]. intros seriesName series Hs.
  destruct (handleFileSelect_catalogue exampleFiles initialView) as [_ H]; [done|].
  by destruct (H seriesName series Hs) as (_ & _ & _ & Hp).
Defined.

(** ** The viewers along the handlers *)

Lemma frames_length_pos (s : SeriesData.t) :
  SeriesData.frames s ≠ [] → 0 < Z.of_nat (length (SeriesData.frames s)).
Proof. destruct (SeriesData.frames s); [done|]. simpl. lia. Qed.

Lemma resolveFrameIndex_range st n s i force :
  positionIndexCurrent st → seriesData st !! n = Some s → seriesConsistent s →
  SeriesData.frames s ≠ [] → 0 ≤ i →
  match resolveFrameIndex st n s i force with
  | Display d => 0 ≤ d < Z.of_nat (length (SeriesData.frames s))
  | Keep => True
  | Throws => False
  end.
Proof.
  intros Hcur Hs Hcons Hne Hi. pose proof (frames_length_pos s Hne) as Hlen.
  unfold resolveFrameIndex.
  destruct (syncEnabled st && bool_decide (syncMode st = PositionMode)).
  - rewrite (positionIndexCurrent_table st n s Hcur Hs).
    destruct (js_index (PositionMap.positions (positionMap st)) i) as [p|]; simpl; [|lia].
    pose proof (positionTable_lookup (SeriesData.positions s) p) as Ht.
    destruct (positionTable (SeriesData.positions s) !! p) as [j|]; simpl; [|lia].
    destruct Ht as [Hj Hlook]. apply lookup_lt_Some in Hlook.
    rewrite Hcons, length_fmap in Hlook. lia.
  - destruct (syncEnabled st); [lia|]. destruct force; [lia|done].
Qed.

Lemma displayUpdate_inv st n i force v s :
  positionIndexCurrent st → seriesData st !! n = Some s → seriesConsistent s →
  SeriesData.frames s ≠ [] → 0 ≤ i → showsFrameOf s v →
  showsFrameOf s (displayUpdate st n i force v).1 ∧
  ViewerData.currentActive (displayUpdate st n i force v).1 = ViewerData.currentActive v ∧
  ViewerData.images (displayUpdate st n i force v).1 = ViewerData.images v ∧
  ∀ e, e ∈ (displayUpdate st n i force v).2 →
    ∃ fr, fr ∈ SeriesData.frames s ∧
      e = SwitchImage n (SeriesFrame.url fr) (ViewerData.currentActive v)
            ((ViewerData.currentActive v + 1) mod 2)%nat.
Proof.
  intros Hcur Hs Hcons Hne Hi Hv.
  pose proof (resolveFrameIndex_range st n s i force Hcur Hs Hcons Hne Hi) as Hr.
  unfold displayUpdate. rewrite Hs.
  destruct (resolveFrameIndex st n s i force) as [d| |]; [|by split_and!; [done..|intros e ?%elem_of_nil]|done].
  destruct (negb force && (ViewerData.currentFrame v =? d));
    [by split_and!; [done..|intros e ?%elem_of_nil]|].
  assert (Hidx : ∀ A (l : list A), js_index l d = l !! Z.to_nat d).
  { intros A l. unfold js_index. by replace (d <? 0) with false by lia. }
  rewrite !Hidx.
  destruct (lookup_lt_is_Some_2 (SeriesData.frames s) (Z.to_nat d)) as [fr Hfr]; [lia|].
  rewrite Hfr. cbn [fst snd]. split_and!; [|done..|].
  - exists (Z.to_nat d), fr. split_and!; [simpl; lia|done|done|]. simpl.
    by rewrite Hcons, list_lookup_fmap, Hfr.
  - intros e ->%list_elem_of_singleton. exists fr. split; [|done].
    by eapply list_elem_of_lookup_2.
Qed.

Lemma viewersInStep_ext st st' :
  seriesData st' = seriesData st → positionMap st' = positionMap st →
  (∀ n, is_Some (activeViewers st' !! n) ↔ is_Some (activeViewers st !! n)) →
  (∀ n v s, activeViewers st' !! n = Some v → seriesData st !! n = Some s →
            showsFrameOf s v) →
  viewersInStep st → viewersInStep st'.
Proof.
  intros Hsd Hpm Hdom Hshow (Hcur & Hcons & Hvs & Hsp & _). split_and!.
  - by eapply positionIndexCurrent_moves.
  - unfold catalogueConsistent. by rewrite Hsd.
  - intros n. by rewrite Hdom, Hsd.
  - intros n s. rewrite Hsd. apply Hsp.
  - intros n v s Hv. rewrite Hsd. by apply Hshow.
Qed.

Lemma viewersInStep_same st st' :
  seriesData st' = seriesData st → positionMap st' = positionMap st →
  activeViewers st' = activeViewers st →
  viewersInStep st → viewersInStep st'.
Proof.
  intros Hsd Hpm Hav Hinv. apply (viewersInStep_ext st st'); try done.
  - intros n. by rewrite Hav.
  - intros n v s. rewrite Hav. destruct Hinv as (_&_&_&_&H). apply H.
Qed.

Lemma switchesToFrames_ext st st' effects :
  seriesData st' = seriesData st → switchesToFrames st effects →
  switchesToFrames st' effects.
Proof. unfold switchesToFrames. by intros ->. Qed.

Lemma switchesToFrames_nil st : switchesToFrames st [].
Proof. by intros e ?%elem_of_nil. Qed.

Lemma switchesToFrames_app st e1 e2 :
  switchesToFrames st e1 → switchesToFrames st e2 → switchesToFrames st (e1 ++ e2).
Proof. intros H1 H2 e [?|?]%elem_of_app; auto. Qed.

Lemma viewersInStep_globalCount st n v :
  viewersInStep st → activeViewers st !! n = Some v → 0 < globalCount st.
Proof.
  intros (Hcur & Hcons & Hvs & Hsp & _) Hv.
  destruct (proj1 (Hvs n)) as [s Hs]; [done|].
  destruct (Hsp n s Hs) as [Hne _].
  assert (Hp : ∃ p, p ∈ SeriesData.positions s).
  { rewrite (Hcons n s Hs). destruct (SeriesData.frames s) as [|fr frs]; [done|].
    exists (SeriesFrame.position fr). by left. }
  destruct Hp as [p Hp].
  assert (Hin : p ∈ PositionMap.positions (positionMap st)).
  { rewrite <- Hcur. apply createPositionMap_positions. by exists n, s. }
  unfold globalCount. destruct (PositionMap.positions (positionMap st)); [|simpl; lia].
  by apply elem_of_nil in Hin.
Qed.

Lemma boundFrameIndex_range frameIndex allowLoop maxFrames :
  0 < maxFrames → 0 ≤ boundFrameIndex frameIndex allowLoop maxFrames < maxFrames.
Proof.
  intros Hm. unfold boundFrameIndex. destruct allowLoop, frameIndex as [f|]; try lia.
  destruct (f <? 0) eqn:H1; [lia|]. destruct (f >=? maxFrames) eqn:H2; lia.
Qed.

Lemma updateSeriesFrame_inv n i force st :
  viewersInStep st → (is_Some (activeViewers st !! n) → 0 ≤ i) →
  viewersInStep (updateSeriesFrame n i force st).1 ∧
  switchesToFrames st (updateSeriesFrame n i force st).2.
Proof.
  intros Hinv Hi. rewrite updateSeriesFrame_eq.
  destruct (activeViewers st !! n) as [v|] eqn:Hv;
    [|split; [done|apply switchesToFrames_nil]].
  destruct Hinv as (Hcur & Hcons & Hvs & Hsp & Hshow).
  destruct (proj1 (Hvs n)) as [s Hs]; [by rewrite Hv|].
  destruct (displayUpdate_inv st n i force v s) as (H1 & _ & _ & H2);
    [done|done|by apply (Hcons n s)|by apply (Hsp n s)|by apply Hi|by apply (Hshow n v s)|].
  cbn [fst snd]. split.
  - apply (viewersInStep_ext st); [done|done| | |by split_and!].
    + intros m. simpl. destruct (decide (n = m)) as [->|Hne].
      * rewrite lookup_insert_eq, Hv. by split.
      * by rewrite lookup_insert_ne.
    + intros m v' s'. simpl. destruct (decide (n = m)) as [->|Hne].
      * rewrite lookup_insert_eq. intros [= <-] Hs'. by simplify_eq.
      * rewrite lookup_insert_ne by done. apply Hshow.
  - intros e He. destruct (H2 e He) as (fr & Hfr & ->). by eexists n, s, fr, _, _.
Qed.

Lemma viewersInStep_cursor i p st : viewersInStep st → viewersInStep (with_cursor i p st).
Proof. by apply viewersInStep_same. Qed.

Lemma showFrame_inv frameIndex allowLoop targetSeries st :
  viewersInStep st →
  viewersInStep (showFrame frameIndex allowLoop targetSeries st).1 ∧
  switchesToFrames st (showFrame frameIndex allowLoop targetSeries st).2.
Proof.
  intros Hinv. destruct (syncEnabled st) eqn:Hsync.
  - destruct (showFrame_sync frameIndex allowLoop targetSeries st Hsync)
      as (av & effects & -> & Hav & Heff). cbn [fst snd].
    set (i := boundFrameIndex frameIndex allowLoop (globalCount st)) in *.
    destruct Hinv as (Hcur & Hcons & Hvs & Hsp & Hshow).
    assert (Hupd : ∀ n v s, activeViewers st !! n = Some v → seriesData st !! n = Some s →
      showsFrameOf s (displayUpdate st n i false v).1 ∧
      ∀ e, e ∈ (displayUpdate st n i false v).2 →
        ∃ fr, fr ∈ SeriesData.frames s ∧
          e = SwitchImage n (SeriesFrame.url fr) (ViewerData.currentActive v)
                ((ViewerData.currentActive v + 1) mod 2)%nat).
    { intros n v s Hv Hs.
      assert (Hi : 0 ≤ i).
      { apply boundFrameIndex_range. eapply viewersInStep_globalCount; [|exact Hv].
        by split_and!. }
      destruct (displayUpdate_inv st n i false v s) as (H1 & _ & _ & H2);
        [done|done|by apply (Hcons n s)|by apply (Hsp n s)|done|by apply (Hshow n v s)|].
      done. }
    split.
    + apply (viewersInStep_ext st); [done|done| | |by split_and!].
      * intros n. simpl. rewrite Hav. by rewrite fmap_is_Some.
      * intros n v' s. simpl. rewrite Hav.
        destruct (activeViewers st !! n) as [v|] eqn:Hv; [|done]. simpl.
        intros [= <-] Hs. by apply (Hupd n v s).
    + intros e He. destruct (Heff e He) as (n & v & Hv & Hin).
      destruct (proj1 (Hvs n)) as [s Hs]; [by rewrite Hv|].
      destruct (Hupd n v s Hv Hs) as [_ H2]. destruct (H2 e Hin) as (fr & Hfr & ->).
      by eexists n, s, fr, _, _.
  - unfold showFrame. fold (globalCount st).
    set (i := boundFrameIndex frameIndex allowLoop (globalCount st)).
    set (st0 := with_cursor i _ st).
    replace (syncEnabled st0) with false by done.
    destruct (truthy targetSeries) as [target|].
    + destruct (updateSeriesFrame_inv target i true st0) as [H1 H2].
      * by apply viewersInStep_cursor.
      * intros [v Hv]. apply boundFrameIndex_range.
        by eapply viewersInStep_globalCount.
      * split; [done|]. by eapply switchesToFrames_ext; [|exact H2].
    + split; [by apply viewersInStep_cursor|apply switchesToFrames_nil].
Qed.

Lemma showsFrameOf_nonneg s v : showsFrameOf s v → 0 ≤ ViewerData.currentFrame v.
Proof. intros (i & fr & -> & _). lia. Qed.

Lemma showNextFrame_inv allowLoop targetSeries st :
  viewersInStep st →
  viewersInStep (showNextFrame allowLoop targetSeries st).1 ∧
  switchesToFrames st (showNextFrame allowLoop targetSeries st).2.
Proof.
  intros Hinv. unfold showNextFrame. destruct (syncEnabled st); [by apply showFrame_inv|].
  destruct (truthy targetSeries) as [target|]; [|split; [done|apply switchesToFrames_nil]].
  destruct (activeViewers st !! target) as [v|] eqn:Hv;
    [|split; [done|apply switchesToFrames_nil]].
  destruct (seriesData st !! target) as [s|] eqn:Hs;
    [|split; [done|apply switchesToFrames_nil]].
  pose proof Hinv as (_ & _ & _ & Hsp & Hshow).
  pose proof (showsFrameOf_nonneg s v (Hshow _ _ _ Hv Hs)) as Hnn.
  pose proof (frames_length_pos s (proj1 (Hsp _ _ Hs))) as Hlen.
  set (i := if allowLoop then _ else _).
  set (st0 := with_cursor i _ st).
  destruct (updateSeriesFrame_inv target i true st0) as [H1 H2].
  - by apply viewersInStep_cursor.
  - intros _. subst i. destruct allowLoop; [|lia]. destruct (_ >=? _); lia.
  - split; [done|]. by eapply switchesToFrames_ext; [|exact H2].
Qed.

Lemma showPreviousFrame_inv allowLoop targetSeries st :
  viewersInStep st →
  viewersInStep (showPreviousFrame allowLoop targetSeries st).1 ∧
  switchesToFrames st (showPreviousFrame allowLoop targetSeries st).2.
Proof.
  intros Hinv. unfold showPreviousFrame.
  destruct (syncEnabled st); [by apply showFrame_inv|].
  destruct (truthy targetSeries) as [target|]; [|split; [done|apply switchesToFrames_nil]].
  destruct (activeViewers st !! target) as [v|] eqn:Hv;
    [|split; [done|apply switchesToFrames_nil]].
  destruct (seriesData st !! target) as [s|] eqn:Hs;
    [|split; [done|apply switchesToFrames_nil]].
  pose proof Hinv as (_ & _ & _ & Hsp & Hshow).
  pose proof (showsFrameOf_nonneg s v (Hshow _ _ _ Hv Hs)) as Hnn.
  pose proof (frames_length_pos s (proj1 (Hsp _ _ Hs))) as Hlen.
  set (i := if allowLoop then _ else _).
  set (st0 := with_cursor i _ st).
  destruct (updateSeriesFrame_inv target i true st0) as [H1 H2].
  - by apply viewersInStep_cursor.
  - intros _. subst i. destruct allowLoop; [|lia]. destruct (_ <? _) eqn:E; lia.
  - split; [done|]. by eapply switchesToFrames_ext; [|exact H2].
Qed.

Lemma addFrames_shape xs frames st :
  ∃ cache requests urls,
    (foldl addFrame (frames, st) xs).2
    = with_imageCache cache (with_imageRequests requests (with_objectUrls urls st)).
Proof.
  revert frames st. induction xs as [|x xs IH]; intros frames st.
  - exists (imageCache st), (imageRequests st), (objectUrls st). by destruct st.
  - change (foldl addFrame (frames, st) (x :: xs))
      with (foldl addFrame (addFrame (frames, st) x) xs).
    unfold addFrame at 2. unfold createObjectURL.
    destruct (preloadImage_shape (length (objectUrls st))
                (with_objectUrls (objectUrls st ++ [File.content x.1]) st)) as (c & q & ->).
    edestruct IH as (c' & q' & u' & ->). by eexists _, _, _.
Qed.

Lemma processSeriesFiles_shape seriesName files st :
  ∃ cache requests urls series index,
    processSeriesFiles seriesName files st
    = with_positionMap index
        (with_seriesData series
           (with_imageCache cache (with_imageRequests requests (with_objectUrls urls st)))).
Proof.
  unfold processSeriesFiles.
  destruct (addFrames_shape (sort_by_number (map (λ f, (f, frameNumberOf f)) files)) [] st)
    as (c & q & u & H).
  destruct (foldl addFrame _ _) as [frames st']. simpl in H. subst st'.
  unfold createPositionMap. by eexists c, q, u, _, _.
Qed.

Lemma processGroups_shape groups st :
  ∃ cache requests urls series index,
    foldl (λ st g, processSeriesFiles g.1 g.2 st) st groups
    = with_positionMap index
        (with_seriesData series
           (with_imageCache cache (with_imageRequests requests (with_objectUrls urls st)))).
Proof.
  revert st. induction groups as [|g groups IH]; intros st.
  - exists (imageCache st), (imageRequests st), (objectUrls st), (seriesData st),
      (positionMap st). by destruct st.
  - simpl. destruct (processSeriesFiles_shape g.1 g.2 st) as (c & q & u & sd & pm & ->).
    edestruct IH as (c' & q' & u' & sd' & pm' & ->). by eexists _, _, _, _, _.
Qed.

Lemma processSeriesFiles_evenlySpaced seriesName files st :
  files ≠ [] →
  (∀ n s, seriesData st !! n = Some s → evenlySpaced s) →
  ∀ n s, seriesData (processSeriesFiles seriesName files st) !! n = Some s →
         evenlySpaced s.
Proof.
  intros Hne Hst n s. destruct (decide (n = seriesName)) as [->|Hn].
  - rewrite processSeriesFiles_lookup. intros [= <-]. split; simpl.
    + intros H. apply (f_equal length) in H.
      rewrite length_imap, sortedFiles_length in H. by destruct files.
    + intros i fr. rewrite list_lookup_imap.
      destruct (sortedFiles files !! i); [|done]. by intros [= <-].
  - rewrite processSeriesFiles_other by done. apply Hst.
Qed.

Lemma processGroups_evenlySpaced groups st :
  (∀ g, g ∈ groups → g.2 ≠ []) →
  (∀ n s, seriesData st !! n = Some s → evenlySpaced s) →
  ∀ n s, seriesData (foldl (λ st g, processSeriesFiles g.1 g.2 st) st groups) !! n = Some s →
         evenlySpaced s.
Proof.
  revert st. induction groups as [|g groups IH]; intros st Hg Hst; [done|].
  simpl. apply IH.
  - intros g' Hg'. apply Hg. by right.
  - apply processSeriesFiles_evenlySpaced; [|done]. apply Hg. by left.
Qed.

Lemma processGroups_current groups st :
  groups ≠ [] →
  positionIndexCurrent (foldl (λ st g, processSeriesFiles g.1 g.2 st) st groups).
Proof.
  destruct groups as [|g groups _] using rev_ind; [done|]. intros _.
  rewrite foldl_snoc. apply processSeriesFiles_current.
Qed.

Lemma newViewers_lookup (av : gmap string ViewerData.t) (series : gmap string SeriesData.t) n :
  map_fold (λ seriesName s av, <[seriesName := newViewer s]> av) av series !! n
  = match series !! n with
    | Some s => Some (newViewer s)
    | None => av !! n
    end.
Proof.
  apply (map_fold_weak_ind
    (λ (acc : gmap string ViewerData.t) (m : gmap string SeriesData.t),
       acc !! n = match m !! n with
                  | Some s => Some (newViewer s)
                  | None => av !! n
                  end)).
  - by rewrite lookup_empty.
  - intros i x m acc Hi IH. destruct (decide (i = n)) as [->|Hne].
    + by rewrite !lookup_insert_eq.
    + by rewrite !lookup_insert_ne.
Qed.

Lemma newViewer_shows s : evenlySpaced s → showsFrameOf s (newViewer s).
Proof.
  intros [Hne Hpos]. unfold newViewer.
  destruct (SeriesData.frames s) as [|fr frs] eqn:Hf; [done|]. simpl.
  exists 0%nat, fr. split_and!; [done|by rewrite Hf|done|].
  simpl. by rewrite (Hpos 0%nat fr).
Qed.

(** The viewers [createSeriesViewers] builds over a catalogue that the
    batch path has filled. *)
Lemma createSeriesViewers_inv st :
  positionIndexCurrent st → catalogueConsistent st →
  (∀ n s, seriesData st !! n = Some s → evenlySpaced s) →
  (∀ n, is_Some (activeViewers st !! n) → is_Some (seriesData st !! n)) →
  viewersInStep (createSeriesViewers st).1 ∧
  switchesToFrames st (createSeriesViewers st).2.
Proof.
  intros Hcur Hcons Hsp Hav. unfold createSeriesViewers.
  set (viewers := map_fold _ _ _).
  assert (Hlook : ∀ n, viewers !! n = newViewer <$> seriesData st !! n).
  { intros n. subst viewers. rewrite newViewers_lookup.
    destruct (seriesData st !! n) eqn:Hs; [done|]. simpl.
    destruct (activeViewers st !! n) eqn:Hv; [|done].
    destruct (Hav n) as [? ?]; [by rewrite Hv|congruence]. }
  destruct (showFrame_inv 0 false None (with_activeViewers viewers st)) as [H1 H2]; [|done].
  split_and!; try done.
  - intros n. simpl. by rewrite Hlook, fmap_is_Some.
  - intros n v s. simpl. rewrite Hlook. intros Hv Hs. rewrite Hs in Hv.
    injection Hv as <-. apply newViewer_shows. by eapply Hsp.
Qed.

Lemma handleFileSelect_inv f files st :
  viewersInStep (handleFileSelect (f :: files) st).1 ∧
  switchesToFrames (handleFileSelect (f :: files) st).1 (handleFileSelect (f :: files) st).2.
Proof.
  unfold handleFileSelect.
  set (st0 := with_activeSeries None _).
  set (st1 := foldl _ st0 _).
  assert (Hcur : positionIndexCurrent st1).
  { apply processGroups_current. by apply groupFiles_nonempty. }
  assert (Hcons : catalogueConsistent st1).
  { apply processGroups_consistent. apply map_Forall_empty. }
  assert (Hsp : ∀ n s, seriesData st1 !! n = Some s → evenlySpaced s).
  { apply processGroups_evenlySpaced.
    - intros [n g] Hg. by apply groupFiles_groups in Hg as [Hne _].
    - intros n s. simpl. by rewrite lookup_empty. }
  assert (Hav : ∀ n, is_Some (activeViewers st1 !! n) → is_Some (seriesData st1 !! n)).
  { intros n. subst st1.
    destruct (processGroups_shape (groupFiles (f :: files)) st0) as (c&q&u&sd&pm&->).
    simpl. rewrite lookup_empty. by intros [? ?]. }
  destruct (createSeriesViewers_inv st1 Hcur Hcons Hsp Hav) as [H1 H2].
  unfold andThen.
  pose proof (createSeriesViewers_seriesData st1) as Hsd1.
  destruct (createSeriesViewers st1) as [st2 e2]. simpl in H1, H2, Hsd1.
  destruct (showFrame_inv 0 false None st2 H1) as [H3 H4].
  pose proof (movesOnly_seriesData _ st2 (showFrame_movesOnly 0 false None)) as Hsd2.
  destruct (showFrame 0 false None st2) as [st3 e3]. simpl in *.
  split; [done|]. apply switchesToFrames_app.
  - eapply switchesToFrames_ext; [|exact H2]. by rewrite Hsd2.
  - by eapply switchesToFrames_ext; [|exact H4].
Qed.

Lemma startPlayback_view now st :
  seriesData (startPlayback now st) = seriesData st ∧
  positionMap (startPlayback now st) = positionMap st ∧
  activeViewers (startPlayback now st) = activeViewers st.
Proof.
  unfold startPlayback, stopPlayback, cancelFrame, requestFrame.
  destruct (playInterval st) as [[|h]|] eqn:Hp; simpl.
  all: destruct (Z.of_nat _ =? 0); simpl; try rewrite Hp; done.
Qed.

Lemma stopPlayback_view st :
  seriesData (stopPlayback st) = seriesData st ∧
  positionMap (stopPlayback st) = positionMap st ∧
  activeViewers (stopPlayback st) = activeViewers st.
Proof. unfold stopPlayback, cancelFrame. by destruct (playInterval st) as [[|h]|]. Qed.

Lemma startPlayback_inv now st : viewersInStep st → viewersInStep (startPlayback now st).
Proof. destruct (startPlayback_view now st) as (?&?&?). by apply viewersInStep_same. Qed.

Lemma stopPlayback_inv st : viewersInStep st → viewersInStep (stopPlayback st).
Proof. destruct (stopPlayback_view st) as (?&?&?). by apply viewersInStep_same. Qed.

Lemma advance_inv c st r :
  advance c st = Some r → viewersInStep st →
  viewersInStep r.1 ∧ switchesToFrames st r.2.
Proof.
  unfold advance. intros H Hinv.
  repeat case_match; simplify_eq; try (split; [done|apply switchesToFrames_nil]).
  all: first [ by apply showFrame_inv | by apply showNextFrame_inv ].
Qed.

(** What a finished frame switch leaves of a viewer. *)
Lemma runEffect_viewers st e n :
  seriesData (runEffect st e) = seriesData st ∧
  positionMap (runEffect st e) = positionMap st ∧
  match activeViewers st !! n with
  | Some v =>
      ∃ v', activeViewers (runEffect st e) !! n = Some v' ∧
            ViewerData.currentFrame v' = ViewerData.currentFrame v ∧
            ViewerData.filenameDisplay v' = ViewerData.filenameDisplay v ∧
            ViewerData.currentPosition v' = ViewerData.currentPosition v
  | None => activeViewers (runEffect st e) !! n = None
  end.
Proof.
  destruct (sameDisplay_fields _ _ (runEffect_sameDisplay st e)) as (_&_&Hpm&Hsd&_).
  split_and!; [done..|].
  assert (Hpre : ∀ url, activeViewers (preloadImage url st).1 = activeViewers st).
  { intros url. by destruct (preloadImage_shape url st) as (c & q & ->). }
  assert (Hswap : ∀ seriesName url cur next st0,
    activeViewers st0 = activeViewers st →
    match activeViewers st !! n with
    | Some v =>
        ∃ v', activeViewers (swapBuffers seriesName url cur next st0) !! n = Some v' ∧
              ViewerData.currentFrame v' = ViewerData.currentFrame v ∧
              ViewerData.filenameDisplay v' = ViewerData.filenameDisplay v ∧
              ViewerData.currentPosition v' = ViewerData.currentPosition v
    | None => activeViewers (swapBuffers seriesName url cur next st0) !! n = None
    end).
  { intros seriesName url cur next st0 H0. unfold swapBuffers. simpl. rewrite H0.
    destruct (decide (seriesName = n)) as [->|Hne].
    - rewrite lookup_alter_eq. destruct (activeViewers st !! n); [|done]. simpl. eauto.
    - rewrite lookup_alter_ne by done. destruct (activeViewers st !! n); eauto. }
  destruct e as [seriesName url cur next|]; simpl.
  - destruct (cacheReady st url); [by apply Hswap|].
    destruct (cacheReady (preloadImage url st).1 url); [by apply Hswap|].
    rewrite Hpre. destruct (activeViewers st !! n); eauto.
  - destruct (activeViewers st !! n); eauto.
Qed.

Lemma runEffect_inv st e : viewersInStep st → viewersInStep (runEffect st e).
Proof.
  intros Hinv. destruct (runEffect_viewers st e "") as (Hsd & Hpm & _).
  apply (viewersInStep_ext st); [done|done| | |done].
  - intros n. destruct (runEffect_viewers st e n) as (_ & _ & H).
    destruct (activeViewers st !! n) as [v|].
    + destruct H as (v' & -> & _). by split.
    + by rewrite H.
  - intros n v' s Hv' Hs. destruct (runEffect_viewers st e n) as (_ & _ & H).
    destruct (activeViewers st !! n) as [v|] eqn:Hv; [|congruence].
    destruct H as (v'' & Hv'' & H1 & H2 & H3). rewrite Hv' in Hv''. injection Hv'' as <-.
    destruct Hinv as (_&_&_&_&Hshow).
    destruct (Hshow n v s Hv Hs) as (i & fr & Hi & Hfr & Hname & Hpos).
    exists i, fr. split_and!; [congruence|done|congruence|congruence].
Qed.

Lemma settle_inv r : viewersInStep r.1 → viewersInStep (settle r).
Proof.
  destruct r as [st effects]. unfold settle. simpl. revert st.
  induction effects as [|e effects IH]; intros st Hinv; [done|].
  simpl. by apply IH, runEffect_inv.
Qed.

Lemma settle_seriesData r : seriesData (settle r) = seriesData r.1.
Proof. by destruct (sameDisplay_fields _ _ (settle_sameDisplay r)) as (_&_&_&->&_). Qed.

(** Every handler but [loadFile] keeps the viewers in step with the
    catalogue and asks only for switches to frames of the series. *)
Lemma handle_inv e st :
  isLoadFile e = false → viewersInStep st →
  viewersInStep (handle e st).1 ∧ switchesToFrames (handle e st).1 (handle e st).2.
Proof.
  intros He Hinv.
  assert (Hmove : ∀ (a : Action) st0,
    movesOnly a → viewersInStep (a st0).1 ∧ switchesToFrames st0 (a st0).2 →
    viewersInStep (a st0).1 ∧ switchesToFrames (a st0).1 (a st0).2).
  { intros a st0 Ha [H1 H2]. split; [done|].
    eapply switchesToFrames_ext; [|exact H2]. by apply movesOnly_seriesData. }
  destruct e; try done; simpl.
  - destruct files as [|f files]; [split; [done|apply switchesToFrames_nil]|].
    apply handleFileSelect_inv.
  - unfold onFrameSyncChange. simpl.
    destruct (syncEnabled st); [|split; [by apply (viewersInStep_same st)|apply switchesToFrames_nil]].
    unfold showFrameAt. apply Hmove; [apply showFrame_movesOnly|].
    apply showFrame_inv. by apply (viewersInStep_same st).
  - unfold onPositionSyncChange. simpl.
    destruct (syncEnabled st); [|split; [by apply (viewersInStep_same st)|apply switchesToFrames_nil]].
    apply Hmove; [apply showFrame_movesOnly|].
    apply showFrame_inv. by apply (viewersInStep_same st).
  - unfold onSyncEnableChange. simpl.
    destruct checked; [|split; [by apply (viewersInStep_same st)|apply switchesToFrames_nil]].
    unfold showFrameAt. apply Hmove; [apply showFrame_movesOnly|].
    apply showFrame_inv. by apply (viewersInStep_same st).
  - split; [|apply switchesToFrames_nil]. unfold handleSeriesSelect.
    destruct (negb (syncEnabled st)); [|done]. simpl.
    destruct (activeViewers st !! seriesName); by apply (viewersInStep_same st).
  - unfold handleWheelScroll. destruct (_ <? 30); [split; [done|apply switchesToFrames_nil]|].
    cbn [wheelDelta with_wheelDelta with_lastWheelTime].
    set (st0 := with_wheelDelta _ (with_lastWheelTime now st)).
    assert (H0 : viewersInStep st0) by (by apply (viewersInStep_same st)).
    destruct (Z.abs _ >? 30); [|split; [done|apply switchesToFrames_nil]].
    destruct (_ >? 0).
    + destruct (Hmove _ st0 (showNextFrame_movesOnly true (Some seriesName))
                  (showNextFrame_inv true (Some seriesName) st0 H0)) as [H1 H2].
      destruct (showNextFrame true (Some seriesName) st0) as [st' effects]. simpl in *.
      split; [by apply (viewersInStep_same st')|by eapply switchesToFrames_ext; [|exact H2]].
    + destruct (Hmove _ st0 (showPreviousFrame_movesOnly true (Some seriesName))
                  (showPreviousFrame_inv true (Some seriesName) st0 H0)) as [H1 H2].
      destruct (showPreviousFrame true (Some seriesName) st0) as [st' effects]. simpl in *.
      split; [by apply (viewersInStep_same st')|by eapply switchesToFrames_ext; [|exact H2]].
  - apply Hmove; [apply showPreviousFrame_movesOnly|by apply showPreviousFrame_inv].
  - apply Hmove; [apply showNextFrame_movesOnly|by apply showNextFrame_inv].
  - apply Hmove; [apply showFrame_movesOnly|by apply showFrame_inv].
  - split; [|destruct (isPlaying st); apply switchesToFrames_nil].
    destruct (isPlaying st); simpl; [|by apply (viewersInStep_same st)].
    apply startPlayback_inv, stopPlayback_inv. by apply (viewersInStep_same st).
  - split; [|apply switchesToFrames_nil]. unfold togglePlayback. simpl.
    destruct (negb (isPlaying st)).
    + apply startPlayback_inv. by apply (viewersInStep_same st).
    + apply stopPlayback_inv. by apply (viewersInStep_same st).
  - destruct (scheduledFrame st) as [c|]; [|split; [done|apply switchesToFrames_nil]].
    set (st0 := with_scheduledFrame None (nextHandle st) st).
    assert (H0 : viewersInStep st0) by (by apply (viewersInStep_same st)).
    unfold framePlayback. destruct (negb (isPlaying st0));
      [split; [done|apply switchesToFrames_nil]|].
    destruct (fires c time).
    + destruct (advance c st0) as [[st' effects]|] eqn:Hadv;
        [|split; [done|apply switchesToFrames_nil]].
      destruct (advance_inv c st0 _ Hadv H0) as [H1 H2].
      pose proof (advance_seriesData c st0 _ Hadv) as Hsd. simpl in *.
      split; [by apply (viewersInStep_same st')|].
      by eapply switchesToFrames_ext; [|exact H2].
    + simpl. split; [by apply (viewersInStep_same st0)|apply switchesToFrames_nil].
Qed.

Lemma initialView_inv : viewersInStep initialView.
Proof.
  split_and!.
  - reflexivity.
  - apply map_Forall_empty.
  - intros n. simpl. by rewrite !lookup_empty.
  - intros n s. simpl. by rewrite lookup_empty.
  - intros n v s. simpl. by rewrite lookup_empty.
Qed.

Lemma run_snoc events e : run (events ++ [e]) = step (run events) e.
Proof. unfold run. by rewrite foldl_snoc. Qed.

Lemma run_inv events :
  Forall (λ e, isLoadFile e = false) events → viewersInStep (run events).
Proof.
  induction events as [|e events IH] using rev_ind; intros Hev; [apply initialView_inv|].
  apply Forall_app in Hev as [Hev He]. rewrite Forall_singleton in He.
  rewrite run_snoc. unfold step. apply settle_inv.
  by destruct (handle_inv e (run events) He (IH Hev)) as [? _].
Qed.

(** X8.  As long as images are loaded through the file picker only (no
    single file is opened with [loadFile]), after any sequence of events
    the viewers agree with the catalogue: every series has a viewer and
    every viewer a series, each viewer stands on an existing frame of its
    series and carries the file name of that frame and its position, five
    times its index, and the position index is the one [createPositionMap]
    would build. *)
Theorem viewers_follow_catalogue events :
  Forall (λ e, isLoadFile e = false) events →
  let st := run events in
  (∀ n, is_Some (activeViewers st !! n) ↔ is_Some (seriesData st !! n)) ∧
  (∀ n v s, activeViewers st !! n = Some v → seriesData st !! n = Some s →
     ∃ (i : nat) fr,
       ViewerData.currentFrame v = Z.of_nat i ∧
       SeriesData.frames s !! i = Some fr ∧
       ViewerData.filenameDisplay v = SeriesFrame.name fr ∧
       ViewerData.currentPosition v = Z.of_nat i * 5) ∧
  positionIndexCurrent st.
Proof.
  intros Hev st. destruct (run_inv events Hev) as (Hcur & Hcons & Hvs & Hsp & Hshow).
  split_and!; [done| |done].
  intros n v s Hv Hs. destruct (Hshow n v s Hv Hs) as (i & fr & H1 & H2 & H3 & H4).
  exists i, fr. split_and!; [done..|].
  rewrite H4. by apply (Hsp n s Hs).
Qed.

Lemma viewers_follow_catalogue_witness :
  Forall (λ e, isLoadFile e = false)
         [FileSelect exampleFiles; PositionSyncRadio; FrameSlider 5] ∧
  positionIndexCurrent exampleBySlider.
Proof.
  assert (H : Forall (λ e, isLoadFile e = false)
                     [FileSelect exampleFiles; PositionSyncRadio; FrameSlider 5]).
  { by repeat constructor. }
  split; [exact H|]. by destruct (viewers_follow_catalogue _ H) as (_ & _ & ?).
Defined.

(** X9.  As long as images are loaded through the file picker only, no
    handler's update of a viewer throws: everything a handler asks of the
    renderer is a switch of a viewer to the image of a frame of that
    viewer's series. *)
Theorem updates_never_throw events e :
  Forall (λ e, isLoadFile e = false) events → isLoadFile e = false →
  let r := handle e (run events) in
  (∀ n, Threw n ∉ r.2) ∧
  (∀ n url cur next, SwitchImage n url cur next ∈ r.2 →
     ∃ s fr, seriesData r.1 !! n = Some s ∧ fr ∈ SeriesData.frames s ∧
             SeriesFrame.url fr = url).
Proof.
  intros Hev He r. destruct (handle_inv e (run events) He (run_inv events Hev)) as [_ H].
  fold r in H. split.
  - intros n Hin. by destruct (H _ Hin) as (?&?&?&?&?&?&_).
  - intros n url cur next Hin.
    destruct (H _ Hin) as (n' & s & fr & cur' & next' & Heq & Hs & Hfr).
    injection Heq as -> -> -> ->. by exists s, fr.
Qed.

Lemma updates_never_throw_witness :
  Forall (λ e, isLoadFile e = false) [FileSelect exampleFiles] ∧
  isLoadFile PositionSyncRadio = false ∧
  ∀ n, Threw n ∉ (handle PositionSyncRadio (run [FileSelect exampleFiles])).2.
Proof.
  assert (H : Forall (λ e, isLoadFile e = false) [FileSelect exampleFiles]).
  { by repeat constructor. }
  split_and!; [exact H|done|].
  by destruct (updates_never_throw [FileSelect exampleFiles] PositionSyncRadio H eq_refl).
Defined.

(** ** The global positions of a catalogue filled by the picker *)

Lemma increasing_unique (l1 l2 : list Z) :
  StronglySorted Z.lt l1 → StronglySorted Z.lt l2 →
  (∀ x, x ∈ l1 ↔ x ∈ l2) → l1 = l2.
Proof.
  intros H1. revert l2. induction H1 as [|x l1 H1 IH Hx]; intros l2 H2 Hel.
  - destruct l2 as [|y l2]; [done|]. exfalso.
    apply (not_elem_of_nil y). apply Hel. by left.
  - destruct H2 as [|y l2 H2 Hy].
    + exfalso. apply (not_elem_of_nil x). apply Hel. by left.
    + rewrite Forall_forall in Hx, Hy.
      assert (x = y) as <-.
      { assert (Hxin : x ∈ y :: l2) by (apply Hel; by left).
        assert (Hyin : y ∈ x :: l1) by (apply Hel; by left).
        apply elem_of_cons in Hxin as [?|Hxin]; [done|].
        apply elem_of_cons in Hyin as [?|Hyin]; [done|].
        specialize (Hx _ Hyin). specialize (Hy _ Hxin). lia. }
      f_equal. apply IH; [done|]. intros z. split; intros Hz.
      * assert (Hz' : z ∈ x :: l2) by (apply Hel; by right).
        apply elem_of_cons in Hz' as [->|?]; [|done]. specialize (Hx _ Hz). lia.
      * assert (Hz' : z ∈ x :: l1) by (apply Hel; by right).
        apply elem_of_cons in Hz' as [->|?]; [|done]. specialize (Hy _ Hz). lia.
Qed.

Lemma multiples_increasing a m :
  StronglySorted Z.lt ((λ i : nat, Z.of_nat i * 5) <$> seq a m).
Proof.
  revert a. induction m as [|m IH]; intros a; simpl; constructor; [apply IH|].
  apply Forall_forall. intros x (i & -> & Hi)%list_elem_of_fmap.
  apply elem_of_seq in Hi. lia.
Qed.

Lemma multiples_elem m p :
  p ∈ (λ i : nat, Z.of_nat i * 5) <$> seq 0 m ↔ ∃ j : nat, (j < m)%nat ∧ p = Z.of_nat j * 5.
Proof.
  rewrite list_elem_of_fmap. split.
  - intros (j & -> & Hj). apply elem_of_seq in Hj. exists j. split; [lia|done].
  - intros (j & Hj & ->). exists j. split; [done|]. apply elem_of_seq. lia.
Qed.

Lemma evenlySpaced_positions s :
  seriesConsistent s → evenlySpaced s →
  SeriesData.positions s
  = (λ i : nat, Z.of_nat i * 5) <$> seq 0 (length (SeriesData.frames s)).
Proof.
  intros Hcons [_ Hpos]. rewrite Hcons. apply list_eq. intros i.
  rewrite !list_lookup_fmap.
  destruct (SeriesData.frames s !! i) as [fr|] eqn:Hfr; simpl.
  - rewrite lookup_seq_lt by (by eapply lookup_lt_Some). simpl. f_equal. by apply Hpos.
  - by rewrite lookup_seq_ge by (by apply lookup_ge_None).
Qed.

(** The longest series of a catalogue. *)
Lemma longest_series (series : gmap string SeriesData.t) :
  ∃ m : nat,
    (∀ n s, series !! n = Some s → (length (SeriesData.frames s) ≤ m)%nat) ∧
    ((0 < m)%nat → ∃ n s, series !! n = Some s ∧ length (SeriesData.frames s) = m).
Proof.
  induction series as [|i x series Hi _ IH] using map_first_key_ind.
  - exists 0%nat. split; [|lia]. intros n s. by rewrite lookup_empty.
  - destruct IH as (m & Hle & Hmax).
    destruct (decide (length (SeriesData.frames x) ≤ m)%nat) as [Hx|Hx].
    + exists m. split.
      * intros n s. destruct (decide (i = n)) as [->|Hne].
        -- rewrite lookup_insert_eq. by intros [= <-].
        -- rewrite lookup_insert_ne by done. apply Hle.
      * intros Hm. destruct (Hmax Hm) as (n & s & Hn & Hs). exists n, s.
        split; [|done]. rewrite lookup_insert_ne; [done|]. intros ->. congruence.
    + exists (length (SeriesData.frames x)). split.
      * intros n s. destruct (decide (i = n)) as [->|Hne].
        -- rewrite lookup_insert_eq. by intros [= <-].
        -- rewrite lookup_insert_ne by done. intros Hn. specialize (Hle n s Hn). lia.
      * intros _. exists i, x. by rewrite lookup_insert_eq.
Qed.

Lemma viewersInStep_positions st :
  viewersInStep st →
  PositionMap.positions (positionMap st)
  = (λ i : nat, Z.of_nat i * 5) <$> seq 0 (Z.to_nat (globalCount st)) ∧
  (∀ n s, seriesData st !! n = Some s →
          Z.of_nat (length (SeriesData.frames s)) ≤ globalCount st) ∧
  (0 < globalCount st →
   ∃ n s, seriesData st !! n = Some s ∧
          Z.of_nat (length (SeriesData.frames s)) = globalCount st).
Proof.
  intros (Hcur & Hcons & _ & Hsp & _).
  destruct (longest_series (seriesData st)) as (m & Hle & Hmax).
  assert (Hps : PositionMap.positions (positionMap st)
                = (λ i : nat, Z.of_nat i * 5) <$> seq 0 m).
  { apply increasing_unique.
    - rewrite <- Hcur. apply createPositionMap_positions.
    - apply multiples_increasing.
    - intros p. rewrite multiples_elem. rewrite <- Hcur.
      rewrite (proj2 (createPositionMap_positions st) p). split.
      + intros (n & s & Hs & Hp).
        rewrite (evenlySpaced_positions s (Hcons n s Hs) (Hsp n s Hs)) in Hp.
        apply multiples_elem in Hp as (j & Hj & ->). exists j. split; [|done].
        specialize (Hle n s Hs). lia.
      + intros (j & Hj & ->). destruct Hmax as (n & s & Hs & Hlen); [lia|].
        exists n, s. split; [done|].
        rewrite (evenlySpaced_positions s (Hcons n s Hs) (Hsp n s Hs)).
        apply multiples_elem. exists j. split; [lia|done]. }
  assert (Hm : globalCount st = Z.of_nat m).
  { unfold globalCount. by rewrite Hps, length_fmap, length_seq. }
  rewrite Hm, Nat2Z.id. split_and!; [done| |].
  - intros n s Hs. specialize (Hle n s Hs). lia.
  - intros Hpos. destruct Hmax as (n & s & Hs & Hlen); [lia|]. exists n, s.
    split; [done|]. lia.
Qed.

(** X10.  As long as images are loaded through the file picker only, the
    global positions are [0, 5, 10, ...]: the global index [i] stands for
    position [5 * i], and the number of global positions (the range of the
    frame slider and of playback) is the number of frames of the longest
    series. *)
Theorem global_positions_of_picker events :
  Forall (λ e, isLoadFile e = false) events →
  let st := run events in
  PositionMap.positions (positionMap st)
  = (λ i : nat, Z.of_nat i * 5) <$> seq 0 (Z.to_nat (globalCount st)) ∧
  (∀ n s, seriesData st !! n = Some s →
          Z.of_nat (length (SeriesData.frames s)) ≤ globalCount st) ∧
  (0 < globalCount st →
   ∃ n s, seriesData st !! n = Some s ∧
          Z.of_nat (length (SeriesData.frames s)) = globalCount st).
Proof. intros Hev st. by apply viewersInStep_positions, run_inv. Qed.

Lemma global_positions_of_picker_witness :
  Forall (λ e, isLoadFile e = false) [FileSelect exampleFiles] ∧
  PositionMap.positions (positionMap (run [FileSelect exampleFiles]))
  = (λ i : nat, Z.of_nat i * 5)
      <$> seq 0 (Z.to_nat (globalCount (run [FileSelect exampleFiles]))).
Proof.
  assert (H : Forall (λ e, isLoadFile e = false) [FileSelect exampleFiles]).
  { by repeat constructor. }
  split; [exact H|]. by destruct (global_positions_of_picker _ H) as (? & _).
Defined.

(** ** What the synchronised viewers show *)

Lemma positionTable_multiples (len i : nat) :
  default 0 (positionTable ((λ k : nat, Z.of_nat k * 5) <$> seq 0 len) !! (Z.of_nat i * 5))
  = if Z.of_nat i <? Z.of_nat len then Z.of_nat i else 0.
Proof.
  pose proof (positionTable_lookup ((λ k : nat, Z.of_nat k * 5) <$> seq 0 len)
                (Z.of_nat i * 5)) as H.
  destruct (positionTable _ !! _) as [j|]; simpl.
  - destruct H as [Hj Hlook]. rewrite list_lookup_fmap in Hlook.
    destruct (seq 0 len !! Z.to_nat j) as [k|] eqn:Hk; [|done].
    apply lookup_seq in Hk as [-> Hlt]. simpl in Hlook. injection Hlook as Hlook.
    replace (Z.of_nat i <? Z.of_nat len) with true by lia. lia.
  - destruct (Z.of_nat i <? Z.of_nat len) eqn:Hlt; [|done]. exfalso. apply H.
    apply multiples_elem. exists i. split; [lia|done].
Qed.

(** What a synchronised [showFrame] at a valid global index makes a viewer
    display, over a catalogue filled by the picker. *)
Lemma showFrame_synced_display st (i : nat) n v s :
  viewersInStep st →
  syncEnabled st = true →
  activeViewers st !! n = Some v →
  seriesData st !! n = Some s →
  Z.of_nat i < globalCount st →
  displayedFrame (settle (showFrame (Z.of_nat i) false None st)) n
  = Some (match syncMode st with
          | FrameMode => Z.min (Z.of_nat i) (Z.of_nat (length (SeriesData.frames s)) - 1)
          | PositionMode =>
              if Z.of_nat i <? Z.of_nat (length (SeriesData.frames s))
              then Z.of_nat i else 0
          end).
Proof.
  intros Hinv Hsync Hv Hs Hi.
  destruct (viewersInStep_positions st Hinv) as (Hps & _ & _).
  destruct Hinv as (Hcur & Hcons & _ & Hsp & _).
  destruct (settle_sameDisplay (showFrame (Z.of_nat i) false None st)) as [_ ->].
  destruct (showFrame_sync (Z.of_nat i) false None st Hsync) as (av & effects & -> & Hav & _).
  assert (Hbound : boundFrameIndex (Z.of_nat i) false (globalCount st) = Z.of_nat i).
  { unfold boundFrameIndex. lia. }
  rewrite Hbound in Hav. unfold displayedFrame. cbn [fst activeViewers with_activeViewers].
  rewrite Hav, Hv. cbn [fmap option_fmap option_map]. f_equal.
  apply (displayUpdate_currentFrame st n (Z.of_nat i) v s _ Hs).
  unfold resolveFrameIndex. rewrite Hsync. cbn [andb].
  destruct (syncMode st) eqn:Hmode.
  - by rewrite bool_decide_eq_false_2.
  - rewrite bool_decide_eq_true_2 by done.
    rewrite (positionIndexCurrent_table st n s Hcur Hs).
    assert (Hp : js_index (PositionMap.positions (positionMap st)) (Z.of_nat i)
                 = Some (Z.of_nat i * 5)).
    { unfold js_index. replace (Z.of_nat i <? 0) with false by lia.
      rewrite Nat2Z.id, Hps, list_lookup_fmap, lookup_seq_lt by lia. done. }
    rewrite Hp. cbn [mbind option_bind]. f_equal.
    rewrite (evenlySpaced_positions s (Hcons n s Hs) (Hsp n s Hs)).
    apply positionTable_multiples.
Qed.

(** X11.  What the synchronised viewers show when images were loaded
    through the file picker only.  With synchronisation enabled, moving the
    frame slider to its stop [i + 1] (global index [i]) puts the viewer of
    every series of at least [i + 1] frames on frame [i] in both modes; a
    shorter series stays on its last frame in frame mode and goes back to
    its first frame in position mode. *)
Theorem synced_display_by_mode events (i : nat) n v s :
  Forall (λ e, isLoadFile e = false) events →
  let st := run events in
  syncEnabled st = true →
  activeViewers st !! n = Some v →
  seriesData st !! n = Some s →
  Z.of_nat i < globalCount st →
  displayedFrame (step st (FrameSlider (Z.of_nat i + 1))) n
  = Some (match syncMode st with
          | FrameMode => Z.min (Z.of_nat i) (Z.of_nat (length (SeriesData.frames s)) - 1)
          | PositionMode =>
              if Z.of_nat i <? Z.of_nat (length (SeriesData.frames s))
              then Z.of_nat i else 0
          end).
Proof.
  intros Hev st Hsync Hv Hs Hi.
  unfold step. cbn [handle]. replace (Z.of_nat i + 1 - 1) with (Z.of_nat i) by lia.
  apply (showFrame_synced_display st i n v s); [|done..]. by apply run_inv.
Qed.

Lemma example_T2_three_frames events :
  events = [PositionSyncRadio] ∨ events = [] →
  ∃ v s,
    activeViewers (run (FileSelect exampleFiles :: events)) !! T2WI = Some v ∧
    seriesData (run (FileSelect exampleFiles :: events)) !! T2WI = Some s ∧
    length (SeriesData.frames s) = 3%nat ∧
    syncEnabled (run (FileSelect exampleFiles :: events)) = true ∧
    globalCount (run (FileSelect exampleFiles :: events)) = 5.
Proof.
  intros [-> | ->]; eexists _, _; split_and!; vm_compute; reflexivity.
Qed.

Lemma synced_display_by_mode_witness :
  displayedFrame (step (run [FileSelect exampleFiles; PositionSyncRadio])
                       (FrameSlider (Z.of_nat 4 + 1))) T2WI = Some 0 ∧
  displayedFrame (step (run [FileSelect exampleFiles]) (FrameSlider (Z.of_nat 4 + 1))) T2WI
  = Some 2.
Proof.
  split.
  - destruct (example_T2_three_frames [PositionSyncRadio])
      as (v & s & Hv & Hs & Hlen & Hsync & Hcount); [by left|].
    rewrite (synced_display_by_mode [FileSelect exampleFiles; PositionSyncRadio] 4 T2WI v s);
      [|by repeat constructor|done|done|done|by rewrite Hcount].
    rewrite Hlen. reflexivity.
  - destruct (example_T2_three_frames [])
      as (v & s & Hv & Hs & Hlen & Hsync & Hcount); [by right|].
    rewrite (synced_display_by_mode [FileSelect exampleFiles] 4 T2WI v s);
      [|by repeat constructor|done|done|done|by rewrite Hcount].
    rewrite Hlen. reflexivity.
Defined.

(** ** The names of the series *)

(** Only the two loading handlers change the catalogue. *)
Lemma handle_seriesData e st :
  match e with
  | FileSelect (_ :: _) | LoadFile _ => True
  | _ => seriesData (handle e st).1 = seriesData st
  end.
Proof.
  destruct e; simpl; try done.
  - by destruct files.
  - unfold onFrameSyncChange. simpl. destruct (syncEnabled st); [|done].
    unfold showFrameAt. by rewrite movesOnly_seriesData by apply showFrame_movesOnly.
  - unfold onPositionSyncChange. simpl. destruct (syncEnabled st); [|done].
    by rewrite movesOnly_seriesData by apply showFrame_movesOnly.
  - unfold onSyncEnableChange. simpl. destruct checked; [|done].
    unfold showFrameAt. by rewrite movesOnly_seriesData by apply showFrame_movesOnly.
  - unfold handleSeriesSelect. destruct (negb (syncEnabled st)); [|done].
    simpl. by destruct (activeViewers st !! seriesName).
  - unfold handleWheelScroll. destruct (_ <? 30); [done|]. simpl.
    destruct (_ >? 30); [|done]. destruct (_ >? 0).
    + pose proof (movesOnly_seriesData _ (with_wheelDelta (wheelDelta st + deltaY)
         (with_lastWheelTime now st)) (showNextFrame_movesOnly true (Some seriesName))) as H.
      destruct (showNextFrame _ _ _) as [st' ?]. exact H.
    + pose proof (movesOnly_seriesData _ (with_wheelDelta (wheelDelta st + deltaY)
         (with_lastWheelTime now st)) (showPreviousFrame_movesOnly true (Some seriesName))) as H.
      destruct (showPreviousFrame _ _ _) as [st' ?]. exact H.
  - apply movesOnly_seriesData, showPreviousFrame_movesOnly.
  - apply movesOnly_seriesData, showNextFrame_movesOnly.
  - apply movesOnly_seriesData, showFrame_movesOnly.
  - destruct (isPlaying st); simpl; [|done].
    by rewrite startPlayback_seriesData, stopPlayback_seriesData.
  - unfold togglePlayback. simpl. destruct (negb (isPlaying st)).
    + by rewrite startPlayback_seriesData.
    + by rewrite stopPlayback_seriesData.
  - destruct (scheduledFrame st) as [c|]; [|done].
    unfold framePlayback. simpl. destruct (negb (isPlaying st)); [done|].
    destruct (fires c time); simpl; [|done].
    destruct (advance c _) as [[st' effects]|] eqn:Hadv; [|done].
    by apply advance_seriesData in Hadv.
Qed.

Lemma processGroups_names groups st n :
  is_Some (seriesData (foldl (λ st g, processSeriesFiles g.1 g.2 st) st groups) !! n) →
  n ∈ groups.*1 ∨ is_Some (seriesData st !! n).
Proof.
  revert st. induction groups as [|g groups IH]; intros st; simpl; [by right|].
  intros [H|H]%IH; [left; by right|].
  destruct (decide (n = g.1)) as [->|Hne]; [left; by left|].
  rewrite processSeriesFiles_other in H by done. by right.
Qed.

Lemma groupFiles_names files n :
  n ∈ (groupFiles files).*1 → ∃ f, f ∈ files ∧ seriesOf f = n.
Proof.
  intros ([m g] & -> & Hin)%list_elem_of_fmap.
  apply groupFiles_groups in Hin as [Hne ->].
  destruct (filter _ files) as [|x xs] eqn:Hf; [done|].
  assert (Hx : x ∈ filter (λ f, seriesOf f = m) files) by (rewrite Hf; by left).
  apply list_elem_of_filter in Hx as [Hx1 Hx2]. by exists x.
Qed.

Lemma handle_namesDetected e st : namesDetected st → namesDetected (handle e st).1.
Proof.
  intros Hinv. pose proof (handle_seriesData e st) as Hsd.
  destruct e; try (unfold namesDetected; by rewrite Hsd).
  - destruct files as [|f files]; [unfold namesDetected; by rewrite Hsd|].
    clear Hsd. simpl. unfold handleFileSelect. rewrite andThen_fst.
    intros n. rewrite movesOnly_seriesData by apply showFrame_movesOnly.
    rewrite createSeriesViewers_seriesData.
    intros [Hn|Hn]%processGroups_names.
    + apply groupFiles_names in Hn as (f0 & _ & <-). by eexists.
    + simpl in Hn. rewrite lookup_empty in Hn. by destruct Hn.
  - clear Hsd. simpl. unfold loadFile. destruct (TFile.data f); [|done]. simpl.
    rewrite andThen_fst. intros n.
    rewrite movesOnly_seriesData by apply showFrame_movesOnly.
    rewrite createSeriesViewers_seriesData. simpl.
    destruct (decide (info_name (detectSeriesFromFileName (TFile.name f)) = n)) as [<-|Hne].
    + by eexists.
    + rewrite lookup_insert_ne by done. apply Hinv.
Qed.

Lemma reachable_namesDetected st : reachable st → namesDetected st.
Proof.
  intros [events ->]. induction events as [|e events IH] using rev_ind.
  - intros n. unfold run. simpl. rewrite lookup_empty. by intros [? ?].
  - rewrite run_snoc. unfold step, namesDetected. rewrite settle_seriesData.
    by apply handle_namesDetected.
Qed.

Lemma detect_name_nonempty fileName :
  info_name (detectSeriesFromFileName fileName) ≠ "".
Proof.
  unfold detectSeriesFromFileName. repeat case_match; try done.
Qed.

(** ** Stepping one series *)

Lemma updateSeriesFrame_forced n i st v s m :
  syncEnabled st = false →
  activeViewers st !! n = Some v → seriesData st !! n = Some s →
  displayedFrame (updateSeriesFrame n i true st).1 m
  = if decide (m = n)
    then Some (Z.min i (Z.of_nat (length (SeriesData.frames s)) - 1))
    else displayedFrame st m.
Proof.
  intros Hsync Hv Hs. rewrite updateSeriesFrame_eq, Hv. cbn [fst].
  unfold displayedFrame. cbn [activeViewers with_activeViewers].
  destruct (decide (m = n)) as [->|Hne]; [|by rewrite lookup_insert_ne].
  rewrite lookup_insert_eq. cbn [fmap option_fmap option_map]. f_equal.
  unfold displayUpdate, resolveFrameIndex. rewrite Hs, Hsync. cbn [andb negb].
  by destruct (js_index (SeriesData.frames s) _).
Qed.

(** X12.  Stepping one series while synchronisation is off (images loaded
    through the file picker only).  With wrap-around (wheel, buttons and
    arrow keys) the viewer of the target series moves by one frame modulo
    the number of frames of that series, not of the global positions;
    without wrap-around it stops at the first and last frame of the series.
    No other viewer moves. *)
Theorem unsynced_step_wraps_in_series events n v s :
  Forall (λ e, isLoadFile e = false) events →
  let st := run events in
  syncEnabled st = false →
  activeViewers st !! n = Some v →
  seriesData st !! n = Some s →
  let len := Z.of_nat (length (SeriesData.frames s)) in
  let cur := ViewerData.currentFrame v in
  displayedFrame (settle (showNextFrame true (Some n) st)) n = Some ((cur + 1) mod len) ∧
  displayedFrame (settle (showPreviousFrame true (Some n) st)) n = Some ((cur - 1) mod len) ∧
  displayedFrame (settle (showNextFrame false (Some n) st)) n
  = Some (Z.min (len - 1) (cur + 1)) ∧
  displayedFrame (settle (showPreviousFrame false (Some n) st)) n
  = Some (Z.max 0 (cur - 1)) ∧
  ∀ allowLoop m, m ≠ n →
    displayedFrame (settle (showNextFrame allowLoop (Some n) st)) m = displayedFrame st m ∧
    displayedFrame (settle (showPreviousFrame allowLoop (Some n) st)) m
    = displayedFrame st m.
Proof.
  intros Hev st Hsync Hv Hs len cur.
  destruct (run_inv events Hev) as (_ & _ & _ & Hsp & Hshow). fold st in Hsp, Hshow.
  destruct (Hshow n v s Hv Hs) as (i & fr & Hi & Hfr & _).
  apply lookup_lt_Some in Hfr.
  assert (Hrange : 0 ≤ cur < len) by (subst cur len; lia).
  assert (Hname : truthy (Some n) = Some n).
  { destruct (reachable_namesDetected st) with (n := n) as [fileName Hn];
      [by exists events|by rewrite Hs|].
    pose proof (detect_name_nonempty fileName) as Hne. rewrite <- Hn in Hne.
    by destruct n. }
  assert (Hnext : ∀ allowLoop m,
    displayedFrame (settle (showNextFrame allowLoop (Some n) st)) m
    = if decide (m = n)
      then Some (if allowLoop then (cur + 1) mod len else Z.min (len - 1) (cur + 1))
      else displayedFrame st m).
  { intros allowLoop m.
    destruct (settle_sameDisplay (showNextFrame allowLoop (Some n) st)) as [_ ->].
    unfold showNextFrame. rewrite Hsync, Hname, Hv, Hs.
    rewrite (updateSeriesFrame_forced n _ _ v s m); [|done..].
    destruct (decide (m = n)); [|done]. f_equal. fold len cur.
    destruct allowLoop; [|lia].
    destruct (cur + 1 >=? len) eqn:E.
    - replace (cur + 1) with len by lia. rewrite Z_mod_same_full. lia.
    - rewrite Z.mod_small by lia. lia. }
  assert (Hprev : ∀ allowLoop m,
    displayedFrame (settle (showPreviousFrame allowLoop (Some n) st)) m
    = if decide (m = n)
      then Some (if allowLoop then (cur - 1) mod len else Z.max 0 (cur - 1))
      else displayedFrame st m).
  { intros allowLoop m.
    destruct (settle_sameDisplay (showPreviousFrame allowLoop (Some n) st)) as [_ ->].
    unfold showPreviousFrame. rewrite Hsync, Hname, Hv, Hs.
    rewrite (updateSeriesFrame_forced n _ _ v s m); [|done..].
    destruct (decide (m = n)); [|done]. f_equal. fold len cur.
    destruct allowLoop; [|lia].
    destruct (cur - 1 <? 0) eqn:E.
    - replace (cur - 1) with (-1 + 1 * len - 1 * len + 0) by lia.
      replace ((-1 + 1 * len - 1 * len + 0) mod len) with (len - 1); [lia|].
      replace (-1 + 1 * len - 1 * len + 0) with ((len - 1) + (-1) * len) by lia.
      rewrite Z_mod_plus_full. by rewrite Z.mod_small by lia.
    - rewrite Z.mod_small by lia. lia. }
  split_and!.
  - by rewrite Hnext, decide_True.
  - by rewrite Hprev, decide_True.
  - by rewrite Hnext, decide_True.
  - by rewrite Hprev, decide_True.
  - intros allowLoop m Hm. by rewrite Hnext, Hprev, !decide_False.
Qed.

Lemma example_unsynced_T1 :
  ∃ v s,
    activeViewers (run [FileSelect exampleFiles; SyncCheckbox false; SeriesClick T1WI])
      !! T1WI = Some v ∧
    seriesData (run [FileSelect exampleFiles; SyncCheckbox false; SeriesClick T1WI])
      !! T1WI = Some s ∧
    ViewerData.currentFrame v = 0 ∧ length (SeriesData.frames s) = 5%nat ∧
    syncEnabled (run [FileSelect exampleFiles; SyncCheckbox false; SeriesClick T1WI])
    = false.
Proof. eexists _, _. split_and!; vm_compute; reflexivity. Qed.

Lemma unsynced_step_wraps_in_series_witness :
  displayedFrame
    (settle (showPreviousFrame true (Some T1WI)
               (run [FileSelect exampleFiles; SyncCheckbox false; SeriesClick T1WI]))) T1WI
  = Some 4.
Proof.
  destruct example_unsynced_T1 as (v & s & Hv & Hs & Hcur & Hlen & Hsync).
  pose proof (unsynced_step_wraps_in_series
                [FileSelect exampleFiles; SyncCheckbox false; SeriesClick T1WI] T1WI v s) as H.
  destruct H as (_ & H & _).
  - repeat constructor.
  - exact Hsync.
  - exact Hv.
  - exact Hs.
  - etransitivity; [exact H|]. rewrite Hcur, Hlen. reflexivity.
Defined.

(** ** Fields a handler leaves alone *)

Lemma movesOnly_keeps {A} (g : MRViewerView → A) (a : Action) st :
  (∀ av i p st, g (with_activeViewers av (with_cursor i p st)) = g st) →
  movesOnly a → g (a st).1 = g st.
Proof. intros Hg Ha. destruct (Ha st) as (av & i & p & ->). apply Hg. Qed.

Lemma settle_keeps {A} (g : MRViewerView → A) r :
  (∀ av cache requests st,
     g (with_activeViewers av (with_imageCache cache (with_imageRequests requests st)))
     = g st) →
  g (settle r) = g r.1.
Proof.
  intros Hg. destruct (settle_sameDisplay r) as [(av & c & q & ->) _]. apply Hg.
Qed.

Lemma handleFileSelect_keeps {A} (g : MRViewerView → A) f files st :
  (∀ av i p st, g (with_activeViewers av (with_cursor i p st)) = g st) →
  (∀ cache requests urls series index st,
     g (with_positionMap index
          (with_seriesData series
             (with_imageCache cache
                (with_imageRequests requests (with_objectUrls urls st))))) = g st) →
  (∀ st, g (with_activeSeries None
              (with_imageCache ∅ (with_activeViewers ∅ (with_seriesData ∅ st)))) = g st) →
  g (handleFileSelect (f :: files) st).1 = g st.
Proof.
  intros Hmove Hload Hreset. unfold handleFileSelect. rewrite andThen_fst.
  rewrite (movesOnly_keeps g) by (done || apply showFrame_movesOnly).
  unfold createSeriesViewers.
  rewrite (movesOnly_keeps g) by (done || apply showFrame_movesOnly).
  set (st0 := with_activeSeries None _).
  destruct (processGroups_shape (groupFiles (f :: files)) st0) as (c & q & u & sd & pm & ->).
  set (st1 := with_positionMap pm _).
  transitivity (g st1);
    [exact (Hmove _ (currentFrameIndex st1) (currentPosition st1) st1)|].
  transitivity (g st0); [apply Hload|apply Hreset].
Qed.

Lemma loadFile_keeps {A} (g : MRViewerView → A) f st :
  (∀ av i p st, g (with_activeViewers av (with_cursor i p st)) = g st) →
  (∀ urls series st, g (with_seriesData series (with_objectUrls urls st)) = g st) →
  g (loadFile f st).1 = g st.
Proof.
  intros Hmove Hload. unfold loadFile. destruct (TFile.data f); [|done].
  cbn [createObjectURL]. rewrite andThen_fst.
  rewrite (movesOnly_keeps g) by (done || apply showFrame_movesOnly).
  unfold createSeriesViewers.
  rewrite (movesOnly_keeps g) by (done || apply showFrame_movesOnly).
  set (st1 := with_seriesData _ _).
  transitivity (g st1);
    [exact (Hmove _ (currentFrameIndex st1) (currentPosition st1) st1)|].
  apply Hload.
Qed.

Lemma playbackState_moves av i p st :
  playbackState (with_activeViewers av (with_cursor i p st)) = playbackState st.
Proof. done. Qed.

Lemma wheelState_moves av i p st :
  wheelState (with_activeViewers av (with_cursor i p st)) = wheelState st.
Proof. done. Qed.

Lemma advance_keeps {A} (g : MRViewerView → A) c st r :
  (∀ av i p st, g (with_activeViewers av (with_cursor i p st)) = g st) →
  advance c st = Some r → g r.1 = g st.
Proof.
  intros Hg. unfold advance. intros H.
  repeat case_match; simplify_eq; try done.
  all: first [ by apply movesOnly_keeps; [|apply showFrame_movesOnly]
             | by apply movesOnly_keeps; [|apply showNextFrame_movesOnly] ].
Qed.

(** Only the playback controls and the animation frame touch the playback
    loop. *)
Lemma handle_playbackState e st :
  isPlaybackEvent e = false → playbackState (handle e st).1 = playbackState st.
Proof.
  intros He. destruct e; try done; simpl.
  - destruct files as [|f files]; [done|]. by apply handleFileSelect_keeps.
  - by apply loadFile_keeps.
  - unfold onFrameSyncChange. simpl. destruct (syncEnabled st); [|done].
    unfold showFrameAt. by rewrite movesOnly_keeps by (done || apply showFrame_movesOnly).
  - unfold onPositionSyncChange. simpl. destruct (syncEnabled st); [|done].
    by rewrite movesOnly_keeps by (done || apply showFrame_movesOnly).
  - unfold onSyncEnableChange. simpl. destruct checked; [|done].
    unfold showFrameAt. by rewrite movesOnly_keeps by (done || apply showFrame_movesOnly).
  - unfold handleSeriesSelect. destruct (negb (syncEnabled st)); [|done].
    simpl. by destruct (activeViewers st !! seriesName).
  - unfold handleWheelScroll. destruct (_ <? 30); [done|]. simpl.
    destruct (_ >? 30); [|done]. destruct (_ >? 0).
    + pose proof (movesOnly_keeps playbackState _ (with_wheelDelta (wheelDelta st + deltaY)
         (with_lastWheelTime now st)) playbackState_moves
         (showNextFrame_movesOnly true (Some seriesName))) as H.
      destruct (showNextFrame _ _ _) as [st' ?]. exact H.
    + pose proof (movesOnly_keeps playbackState _ (with_wheelDelta (wheelDelta st + deltaY)
         (with_lastWheelTime now st)) playbackState_moves
         (showPreviousFrame_movesOnly true (Some seriesName))) as H.
      destruct (showPreviousFrame _ _ _) as [st' ?]. exact H.
  - by apply movesOnly_keeps; [|apply showPreviousFrame_movesOnly].
  - by apply movesOnly_keeps; [|apply showNextFrame_movesOnly].
  - by apply movesOnly_keeps; [|apply showFrame_movesOnly].
Qed.

Lemma startPlayback_wheelState now st : wheelState (startPlayback now st) = wheelState st.
Proof.
  unfold startPlayback, stopPlayback, cancelFrame, requestFrame.
  destruct (playInterval st) as [[|h]|] eqn:Hp; simpl.
  all: destruct (Z.of_nat _ =? 0); simpl; try rewrite Hp; done.
Qed.

Lemma stopPlayback_wheelState st : wheelState (stopPlayback st) = wheelState st.
Proof. unfold stopPlayback, cancelFrame. by destruct (playInterval st) as [[|h]|]. Qed.

(** Only the wheel touches the wheel throttle. *)
Lemma handle_wheelState e st :
  isWheel e = false → wheelState (handle e st).1 = wheelState st.
Proof.
  intros He. destruct e; try done; simpl.
  - destruct files as [|f files]; [done|]. by apply handleFileSelect_keeps.
  - by apply loadFile_keeps.
  - unfold onFrameSyncChange. simpl. destruct (syncEnabled st); [|done].
    unfold showFrameAt. by rewrite movesOnly_keeps by (done || apply showFrame_movesOnly).
  - unfold onPositionSyncChange. simpl. destruct (syncEnabled st); [|done].
    by rewrite movesOnly_keeps by (done || apply showFrame_movesOnly).
  - unfold onSyncEnableChange. simpl. destruct checked; [|done].
    unfold showFrameAt. by rewrite movesOnly_keeps by (done || apply showFrame_movesOnly).
  - unfold handleSeriesSelect. destruct (negb (syncEnabled st)); [|done].
    simpl. by destruct (activeViewers st !! seriesName).
  - by apply movesOnly_keeps; [|apply showPreviousFrame_movesOnly].
  - by apply movesOnly_keeps; [|apply showNextFrame_movesOnly].
  - by apply movesOnly_keeps; [|apply showFrame_movesOnly].
  - destruct (isPlaying st); simpl; [|done].
    by rewrite startPlayback_wheelState, stopPlayback_wheelState.
  - unfold togglePlayback. simpl. destruct (negb (isPlaying st)).
    + by rewrite startPlayback_wheelState.
    + by rewrite stopPlayback_wheelState.
  - destruct (scheduledFrame st) as [c|]; [|done].
    unfold framePlayback. simpl. destruct (negb (isPlaying st)); [done|].
    destruct (fires c time); simpl; [|done].
    destruct (advance c _) as [[st' effects]|] eqn:Hadv; [|done].
    by apply (advance_keeps wheelState) in Hadv.
Qed.

(** ** The playback loop *)

Lemma playbackInOrder_keeps st st' :
  playbackState st' = playbackState st → playbackInOrder st → playbackInOrder st'.
Proof. unfold playbackState, playbackInOrder. by intros [= -> -> -> ->]. Qed.

Lemma stopPlayback_inOrder st :
  playbackInOrder st →
  scheduledFrame (stopPlayback st) = None ∧
  nextHandle (stopPlayback st) = nextHandle st ∧
  isPlaying (stopPlayback st) = isPlaying st.
Proof.
  intros (Hh & Hs & _). unfold stopPlayback, cancelFrame.
  destruct (playInterval st) as [[|h]|] eqn:Hp; simpl; try rewrite Hp; try done.
  all: split; [|done].
  all: destruct (scheduledFrame st) eqn:Hc; [|done].
  all: destruct Hs as (h' & ? & _); [done|congruence].
Qed.

Lemma startPlayback_inOrder now st :
  (0 < nextHandle st)%nat →
  (is_Some (scheduledFrame st) → ∃ h, playInterval st = Some (S h)) →
  isPlaying st = true →
  playbackInOrder (startPlayback now st).
Proof.
  intros Hh Hs Hplay.
  assert (Hnone : (∀ h, playInterval st ≠ Some (S h)) → scheduledFrame st = None).
  { intros Hp. destruct (scheduledFrame st); [|done].
    destruct Hs as (h & Hh'); [done|]. by destruct (Hp h). }
  assert (Hnext : ∃ h, nextHandle st = S h).
  { destruct (nextHandle st) as [|h]; [lia|]. by exists h. }
  destruct Hnext as [h0 Hh0].
  unfold startPlayback, stopPlayback, cancelFrame, requestFrame, playbackInOrder.
  destruct (playInterval st) as [[|h]|] eqn:Hp; simpl.
  all: destruct (Z.of_nat _ =? 0); simpl; try rewrite Hp; simpl.
  all: rewrite ?Hplay, ?Hh0.
  all: split_and!; try lia; try done; try (by intros [? ?]); try (by intros _; eexists).
  all: intros Hsome; rewrite Hnone in Hsome by (intros ?; discriminate).
  all: by destruct Hsome.
Qed.

Lemma handle_inOrder e st : playbackInOrder st → playbackInOrder (handle e st).1.
Proof.
  intros Hinv. destruct (isPlaybackEvent e) eqn:He.
  - destruct e; try done; simpl.
    + set (st1 := with_playbackSpeed value st).
      assert (H1 : playbackInOrder st1) by (by apply (playbackInOrder_keeps st)).
      destruct (isPlaying st) eqn:Hplay; cbn [fst]; [|exact H1].
      destruct (stopPlayback_inOrder st1 H1) as (Hs & Hh & Hp).
      apply startPlayback_inOrder.
      * rewrite Hh. by destruct H1.
      * rewrite Hs. by intros [? ?].
      * by rewrite Hp.
    + unfold togglePlayback.
      set (st1 := with_isPlaying (negb (isPlaying st)) st).
      destruct (isPlaying st1) eqn:Hplay.
      * destruct Hinv as (Hh & Hs & _). apply startPlayback_inOrder; [done| |done].
        intros Hsome. destruct (Hs Hsome) as (h & ? & _). by exists h.
      * assert (H1 : (0 < nextHandle st1)%nat ∧
                     (is_Some (scheduledFrame st1) →
                      ∃ h, playInterval st1 = Some (S h) ∧ nextHandle st1 = S (S h))).
        { destruct Hinv as (Hh & Hs & _). by split. }
        destruct H1 as [Hh Hs].
        assert (Hnone : (∀ h, playInterval st1 ≠ Some (S h)) → scheduledFrame st1 = None).
        { intros Hp. destruct (scheduledFrame st1); [|done].
          destruct Hs as (h & Hh' & _); [done|]. by destruct (Hp h). }
        unfold stopPlayback, cancelFrame, playbackInOrder.
        destruct (playInterval st1) as [[|h]|] eqn:Hp; cbn -[st1]; try rewrite Hp.
        all: split_and!; try done; try (by intros [? ?]).
        all: try (intros _; apply Hnone; intros ?; discriminate).
        all: intros Hsome; rewrite Hnone in Hsome by (intros ?; discriminate).
        all: by destruct Hsome.
    + destruct (scheduledFrame st) as [c|] eqn:Hc; [|done].
      set (st0 := with_scheduledFrame None (nextHandle st) st).
      assert (H0 : playbackInOrder st0).
      { destruct Hinv as (Hh & _ & _). split_and!; [done|by intros [? ?]|done]. }
      unfold framePlayback. destruct (negb (isPlaying st0)) eqn:Hplay; [done|].
      assert (Hreq : ∀ c' st', playbackState st' = playbackState st0 →
                               playbackInOrder (requestFrame c' st')).
      { intros c' st' [= H1 H2 H3 H4]. unfold requestFrame, playbackInOrder.
        cbn -[st0]. rewrite H1, H4. destruct Hinv as (Hh & _ & _).
        destruct (nextHandle st) as [|h]; [lia|]. split_and!.
        - lia.
        - intros _. by exists h.
        - intros Hp. change (isPlaying st0) with (isPlaying st) in Hplay.
          by rewrite Hp in Hplay. }
      destruct (fires c time); simpl.
      * destruct (advance c st0) as [[st' effects]|] eqn:Hadv; [|done].
        apply Hreq. by apply (advance_keeps playbackState) in Hadv.
      * by apply Hreq.
  - apply (playbackInOrder_keeps st); [|done]. by apply handle_playbackState.
Qed.

Lemma reachable_inOrder st : reachable st → playbackInOrder st.
Proof.
  intros [events ->]. induction events as [|e events IH] using rev_ind.
  - split_and!; [simpl; lia|by intros [? ?]|done].
  - rewrite run_snoc. unfold step.
    apply (playbackInOrder_keeps (handle e (run events)).1); [|by apply handle_inOrder].
    by apply settle_keeps.
Qed.

(** X13.  In every state the view can reach, no animation-frame callback
    is pending while playback is paused, and a pending callback is the one
    whose handle [playInterval] holds, so that [cancelAnimationFrame] in
    [startPlayback] and [stopPlayback] cancels it. *)
Theorem paused_nothing_scheduled st :
  reachable st →
  (isPlaying st = false → scheduledFrame st = None) ∧
  (is_Some (scheduledFrame st) →
   ∃ h, playInterval st = Some (S h) ∧ nextHandle st = S (S h)) ∧
  scheduledFrame (stopPlayback st) = None.
Proof.
  intros Hr. pose proof (reachable_inOrder st Hr) as Hinv.
  destruct (stopPlayback_inOrder st Hinv) as (Hstop & _).
  by destruct Hinv as (_ & H2 & H3).
Qed.

Lemma paused_nothing_scheduled_witness :
  reachable (run [FileSelect exampleFiles; PlayPauseButton 0; PlayPauseButton 10]) ∧
  scheduledFrame
    (stopPlayback (run [FileSelect exampleFiles; PlayPauseButton 0; PlayPauseButton 10]))
  = None.
Proof.
  assert (H : reachable (run [FileSelect exampleFiles; PlayPauseButton 0; PlayPauseButton 10])).
  { by eexists. }
  split; [exact H|]. by destruct (paused_nothing_scheduled _ H) as (_ & _ & ?).
Defined.

(** X14.  Pressing play while no image is loaded (no global position)
    turns [isPlaying] on, so that the button reads pause, but starts
    nothing: no callback is scheduled, and choosing files afterwards does
    not start the loop either; playback stays off until the button is
    pressed twice more. *)
Theorem play_with_nothing_loaded st now files :
  reachable st → isPlaying st = false → globalCount st = 0 →
  let st1 := step st (PlayPauseButton now) in
  isPlaying st1 = true ∧ scheduledFrame st1 = None ∧
  isPlaying (step st1 (FileSelect files)) = true ∧
  scheduledFrame (step st1 (FileSelect files)) = None.
Proof.
  intros Hr Hpause Hcount st1.
  destruct (reachable_inOrder st Hr) as (Hh & Hs & Hidle).
  assert (H1 : isPlaying st1 = true ∧ scheduledFrame st1 = None).
  { subst st1. unfold step.
    rewrite (settle_keeps isPlaying), (settle_keeps scheduledFrame) by done.
    unfold globalCount in Hcount. cbn [handle fst].
    unfold togglePlayback, startPlayback, stopPlayback, cancelFrame.
    cbn [isPlaying with_isPlaying playInterval]. rewrite Hpause. cbn [negb].
    destruct (playInterval st) as [[|h]|] eqn:Hp; simpl; rewrite ?Hcount; simpl;
      rewrite ?Hp; simpl; (split; [done|]); try done; by apply Hidle. }
  split_and!; [apply H1..| |].
  - unfold step. rewrite (settle_keeps isPlaying) by done.
    pose proof (handle_playbackState (FileSelect files) st1 eq_refl) as Hk.
    injection Hk as Hk _ _ _. transitivity (isPlaying st1); [exact Hk|apply H1].
  - unfold step. rewrite (settle_keeps scheduledFrame) by done.
    pose proof (handle_playbackState (FileSelect files) st1 eq_refl) as Hk.
    injection Hk as _ _ Hk _. transitivity (scheduledFrame st1); [exact Hk|apply H1].
Qed.

Lemma play_with_nothing_loaded_witness :
  isPlaying (step (run []) (PlayPauseButton 0)) = true ∧
  scheduledFrame (step (run []) (PlayPauseButton 0)) = None ∧
  scheduledFrame (step (step (run []) (PlayPauseButton 0)) (FileSelect exampleFiles)) = None.
Proof.
  destruct (play_with_nothing_loaded (run []) 0 exampleFiles) as (H1 & H2 & _ & H4).
  - by exists [].
  - reflexivity.
  - reflexivity.
  - by split_and!.
Defined.





(** ** The wheel accumulator *)

Lemma handle_wheelDelta e st :
  Z.abs (wheelDelta st) ≤ 30 → Z.abs (wheelDelta (handle e st).1) ≤ 30.
Proof.
  intros Hinv. destruct (isWheel e) eqn:He.
  - destruct e; try done. simpl. unfold handleWheelScroll.
    destruct (_ <? 30); [done|]. cbn [wheelDelta with_wheelDelta with_lastWheelTime].
    destruct (Z.abs (wheelDelta st + deltaY) >? 30) eqn:Hbig; [|simpl; lia].
    destruct (_ >? 0).
    + by destruct (showNextFrame _ _ _).
    + by destruct (showPreviousFrame _ _ _).
  - pose proof (handle_wheelState e st He) as [= _ ->]. done.
Qed.

(** X16.  In every state the view can reach, the wheel accumulator is
    within the threshold: [|wheelDelta| <= 30].  An accepted wheel event
    that carries the accumulator over the threshold steps once and clears
    the accumulator, so the excess is dropped and one event never steps
    more than one frame. *)
Theorem wheel_accumulator_bounded st :
  reachable st →
  Z.abs (wheelDelta st) ≤ 30 ∧
  ∀ now deltaY seriesName,
    30 ≤ now - lastWheelTime st → Z.abs (wheelDelta st + deltaY) > 30 →
    wheelDelta (step st (Wheel now deltaY seriesName)) = 0.
Proof.
  intros [events ->]. split.
  - induction events as [|e events IH] using rev_ind; [done|].
    rewrite run_snoc. unfold step. rewrite (settle_keeps wheelDelta) by done.
    by apply handle_wheelDelta.
  - intros now deltaY seriesName Hacc Hbig. unfold step.
    rewrite (settle_keeps wheelDelta) by done. cbn [handle]. unfold handleWheelScroll.
    replace (now - lastWheelTime (run events) <? 30) with false by lia.
    cbn [wheelDelta with_wheelDelta with_lastWheelTime].
    replace (Z.abs (wheelDelta (run events) + deltaY) >? 30) with true by lia.
    destruct (_ >? 0).
    + by destruct (showNextFrame _ _ _).
    + by destruct (showPreviousFrame _ _ _).
Qed.

Lemma wheel_accumulator_bounded_witness :
  reachable (run [FileSelect exampleFiles; Wheel 100 20 T1WI]) ∧
  Z.abs (wheelDelta (run [FileSelect exampleFiles; Wheel 100 20 T1WI])) ≤ 30.
Proof.
  assert (H : reachable (run [FileSelect exampleFiles; Wheel 100 20 T1WI])) by (by eexists).
  split; [exact H|]. by destruct (wheel_accumulator_bounded _ H) as [? _].
Defined.

(** ** Properties of the viewers kept by every handler

    A property [P] of a viewer that a new viewer has, that an update keeps
    while asking only for effects that satisfy [E], and that a buffer swap
    asked by such an effect keeps, holds of every viewer in every state the
    view can reach. *)

Section ViewerInvariant.

Variable P : ViewerData.t → Prop.
Variable E : Effect → Prop.

Hypothesis P_new : ∀ series, P (newViewer series).

Hypothesis P_update : ∀ st n i force v,
  P v →
  P (displayUpdate st n i force v).1 ∧
  ∀ e, e ∈ (displayUpdate st n i force v).2 → E e.

Hypothesis P_swap : ∀ n url cur next st,
  E (SwitchImage n url cur next) → allViewers P st →
  allViewers P (swapBuffers n url cur next st).

Lemma allViewers_same st st' :
  activeViewers st' = activeViewers st → allViewers P st → allViewers P st'.
Proof. unfold allViewers. by intros ->. Qed.

Lemma updateSeriesFrame_all n i force st :
  allViewers P st →
  allViewers P (updateSeriesFrame n i force st).1 ∧
  ∀ e, e ∈ (updateSeriesFrame n i force st).2 → E e.
Proof.
  intros Hall. rewrite updateSeriesFrame_eq.
  destruct (activeViewers st !! n) as [v|] eqn:Hv; [|split; [done|by intros e ?%elem_of_nil]].
  destruct (P_update st n i force v (Hall n v Hv)) as [H1 H2]. cbn [fst snd].
  split; [|done]. intros m v'. simpl. destruct (decide (n = m)) as [->|Hne].
  - rewrite lookup_insert_eq. by intros [= <-].
  - rewrite lookup_insert_ne by done. apply Hall.
Qed.

Lemma showFrame_all frameIndex allowLoop targetSeries st :
  allViewers P st →
  allViewers P (showFrame frameIndex allowLoop targetSeries st).1 ∧
  ∀ e, e ∈ (showFrame frameIndex allowLoop targetSeries st).2 → E e.
Proof.
  intros Hall. destruct (syncEnabled st) eqn:Hsync.
  - destruct (showFrame_sync frameIndex allowLoop targetSeries st Hsync)
      as (av & effects & -> & Hav & Heff). cbn [fst snd]. split.
    + intros n v'. simpl. rewrite Hav.
      destruct (activeViewers st !! n) as [v|] eqn:Hv; [|done]. simpl. intros [= <-].
      by apply P_update, (Hall n).
    + intros e He. destruct (Heff e He) as (n & v & Hv & Hin).
      destruct (P_update st n (boundFrameIndex frameIndex allowLoop (globalCount st))
                  false v (Hall n v Hv)) as [_ H2].
      by apply H2.
  - unfold showFrame. set (i := boundFrameIndex _ _ _). set (st0 := with_cursor i _ st).
    replace (syncEnabled st0) with false by done.
    destruct (truthy targetSeries) as [target|].
    + by apply updateSeriesFrame_all.
    + split; [done|by intros e ?%elem_of_nil].
Qed.

Lemma showNextFrame_all allowLoop targetSeries st :
  allViewers P st →
  allViewers P (showNextFrame allowLoop targetSeries st).1 ∧
  ∀ e, e ∈ (showNextFrame allowLoop targetSeries st).2 → E e.
Proof.
  intros Hall. unfold showNextFrame. destruct (syncEnabled st); [by apply showFrame_all|].
  destruct (truthy targetSeries) as [target|]; [|split; [done|by intros e ?%elem_of_nil]].
  destruct (activeViewers st !! target) as [v|];
    [|split; [done|by intros e ?%elem_of_nil]].
  destruct (seriesData st !! target) as [s|];
    [|split; [done|by intros e ?%elem_of_nil]].
  by apply updateSeriesFrame_all.
Qed.

Lemma showPreviousFrame_all allowLoop targetSeries st :
  allViewers P st →
  allViewers P (showPreviousFrame allowLoop targetSeries st).1 ∧
  ∀ e, e ∈ (showPreviousFrame allowLoop targetSeries st).2 → E e.
Proof.
  intros Hall. unfold showPreviousFrame.
  destruct (syncEnabled st); [by apply showFrame_all|].
  destruct (truthy targetSeries) as [target|]; [|split; [done|by intros e ?%elem_of_nil]].
  destruct (activeViewers st !! target) as [v|];
    [|split; [done|by intros e ?%elem_of_nil]].
  destruct (seriesData st !! target) as [s|];
    [|split; [done|by intros e ?%elem_of_nil]].
  by apply updateSeriesFrame_all.
Qed.

Lemma createSeriesViewers_all st :
  allViewers P st →
  allViewers P (createSeriesViewers st).1 ∧
  ∀ e, e ∈ (createSeriesViewers st).2 → E e.
Proof.
  intros Hall. unfold createSeriesViewers. apply showFrame_all.
  intros n v. simpl. rewrite newViewers_lookup.
  destruct (seriesData st !! n) as [s|]; [by intros [= <-]|apply Hall].
Qed.

Lemma andThen_all (a b : Action) st :
  (∀ st, allViewers P st → allViewers P (a st).1 ∧ ∀ e, e ∈ (a st).2 → E e) →
  (∀ st, allViewers P st → allViewers P (b st).1 ∧ ∀ e, e ∈ (b st).2 → E e) →
  allViewers P st →
  allViewers P (andThen a b st).1 ∧ ∀ e, e ∈ (andThen a b st).2 → E e.
Proof.
  intros Ha Hb Hall. unfold andThen. destruct (Ha st Hall) as [H1 H2].
  destruct (a st) as [st1 e1]. destruct (Hb st1 H1) as [H3 H4].
  destruct (b st1) as [st2 e2]. simpl in *. split; [done|].
  intros e [?|?]%elem_of_app; auto.
Qed.

Lemma advance_all c st r :
  advance c st = Some r → allViewers P st →
  allViewers P r.1 ∧ ∀ e, e ∈ r.2 → E e.
Proof.
  unfold advance. intros H Hall.
  repeat case_match; simplify_eq; try (split; [done|by intros e ?%elem_of_nil]).
  all: first [ by apply showFrame_all | by apply showNextFrame_all ].
Qed.

Lemma handle_all e st :
  allViewers P st →
  allViewers P (handle e st).1 ∧ ∀ eff, eff ∈ (handle e st).2 → E eff.
Proof.
  intros Hall.
  assert (Hnil : ∀ st', allViewers P st' →
            allViewers P (st', @nil Effect).1 ∧ ∀ eff, eff ∈ (st', @nil Effect).2 → E eff).
  { intros st' H. split; [done|by intros eff ?%elem_of_nil]. }
  destruct e; simpl.
  - destruct files as [|f files]; [by apply Hnil|]. unfold handleFileSelect.
    apply andThen_all; [apply createSeriesViewers_all|intros; by apply showFrame_all|].
    set (st0 := with_activeSeries None _).
    destruct (processGroups_shape (groupFiles (f :: files)) st0) as (c & q & u & sd & pm & ->).
    intros n v. simpl. by rewrite lookup_empty.
  - unfold loadFile. destruct (TFile.data f); [|by apply Hnil]. cbn [createObjectURL].
    apply andThen_all; [apply createSeriesViewers_all|intros; by apply showFrame_all|].
    by apply (allViewers_same st).
  - unfold onFrameSyncChange. simpl. destruct (syncEnabled st); [|by apply Hnil].
    unfold showFrameAt. apply showFrame_all. by apply (allViewers_same st).
  - unfold onPositionSyncChange. simpl. destruct (syncEnabled st); [|by apply Hnil].
    apply showFrame_all. by apply (allViewers_same st).
  - unfold onSyncEnableChange. simpl. destruct checked; [|by apply Hnil].
    unfold showFrameAt. apply showFrame_all. by apply (allViewers_same st).
  - apply Hnil. unfold handleSeriesSelect. destruct (negb (syncEnabled st)); [|done].
    simpl. destruct (activeViewers st !! seriesName); by apply (allViewers_same st).
  - unfold handleWheelScroll. destruct (_ <? 30); [by apply Hnil|].
    cbn [wheelDelta with_wheelDelta with_lastWheelTime].
    set (st0 := with_wheelDelta _ (with_lastWheelTime now st)).
    assert (H0 : allViewers P st0) by (by apply (allViewers_same st)).
    destruct (Z.abs _ >? 30); [|by apply Hnil].
    destruct (_ >? 0).
    + destruct (showNextFrame_all true (Some seriesName) st0 H0) as [H1 H2].
      destruct (showNextFrame true (Some seriesName) st0) as [st' effects]. simpl in *.
      split; [by apply (allViewers_same st')|done].
    + destruct (showPreviousFrame_all true (Some seriesName) st0 H0) as [H1 H2].
      destruct (showPreviousFrame true (Some seriesName) st0) as [st' effects]. simpl in *.
      split; [by apply (allViewers_same st')|done].
  - by apply showPreviousFrame_all.
  - by apply showNextFrame_all.
  - by apply showFrame_all.
  - destruct (isPlaying st); apply Hnil; [|by apply (allViewers_same st)].
    apply (allViewers_same st); [|done].
    destruct (startPlayback_view now (stopPlayback (with_playbackSpeed value st)))
      as (_ & _ & ->).
    by destruct (stopPlayback_view (with_playbackSpeed value st)) as (_ & _ & ->).
  - apply Hnil. apply (allViewers_same st); [|done]. unfold togglePlayback. simpl.
    destruct (negb (isPlaying st)).
    + by destruct (startPlayback_view now (with_isPlaying true st)) as (_ & _ & ->).
    + by destruct (stopPlayback_view (with_isPlaying false st)) as (_ & _ & ->).
  - destruct (scheduledFrame st) as [c|]; [|by apply Hnil].
    set (st0 := with_scheduledFrame None (nextHandle st) st).
    assert (H0 : allViewers P st0) by (by apply (allViewers_same st)).
    unfold framePlayback. destruct (negb (isPlaying st0)); [by apply Hnil|].
    destruct (fires c time).
    + destruct (advance c st0) as [[st' effects]|] eqn:Hadv; [|by apply Hnil].
      destruct (advance_all c st0 _ Hadv H0) as [H1 H2]. simpl in *.
      split; [by apply (allViewers_same st')|done].
    + simpl. split; [by apply (allViewers_same st0)|by intros eff ?%elem_of_nil].
Qed.

Lemma runEffect_all st e : E e → allViewers P st → allViewers P (runEffect st e).
Proof.
  intros He Hall. destruct e as [n url cur next|]; simpl; [|done].
  assert (Hpre : allViewers P (preloadImage url st).1).
  { apply (allViewers_same st); [|done].
    by destruct (preloadImage_shape url st) as (c & q & ->). }
  destruct (cacheReady st url); [by apply P_swap|].
  destruct (cacheReady (preloadImage url st).1 url); [by apply P_swap|done].
Qed.

Lemma settle_all r :
  (∀ e, e ∈ r.2 → E e) → allViewers P r.1 → allViewers P (settle r).
Proof.
  destruct r as [st effects]. unfold settle. simpl. revert st.
  induction effects as [|e effects IH]; intros st He Hall; [done|].
  simpl. apply IH.
  - intros e' He'. apply He. by right.
  - apply runEffect_all; [|done]. apply He. by left.
Qed.

Lemma reachable_all st : reachable st → allViewers P st.
Proof.
  intros [events ->]. induction events as [|e events IH] using rev_ind.
  - intros n v. unfold run. simpl. by rewrite lookup_empty.
  - rewrite run_snoc. unfold step. destruct (handle_all e (run events) IH) as [H1 H2].
    by apply settle_all.
Qed.

End ViewerInvariant.

(** ** The two buffers of a viewer *)

Lemma displayUpdate_buffers st n i force v :
  ViewerData.images (displayUpdate st n i force v).1 = ViewerData.images v ∧
  ViewerData.currentActive (displayUpdate st n i force v).1 = ViewerData.currentActive v ∧
  ∀ e, e ∈ (displayUpdate st n i force v).2 →
    e = Threw n ∨
    ∃ url, e = SwitchImage n url (ViewerData.currentActive v)
                 ((ViewerData.currentActive v + 1) mod 2)%nat.
Proof.
  unfold displayUpdate.
  destruct (seriesData st !! n) as [s|]; [|by split_and!; [..|intros e ?%elem_of_nil]].
  destruct (resolveFrameIndex st n s i force) as [d| |].
  - destruct (negb force && _); [by split_and!; [..|intros e ?%elem_of_nil]|].
    destruct (js_index (SeriesData.frames s) d) as [fr|]; cbn [fst snd].
    + split_and!; [done..|]. intros e ->%list_elem_of_singleton. right. by eexists.
    + split_and!; [done..|]. intros e ->%list_elem_of_singleton. by left.
  - by split_and!; [..|intros e ?%elem_of_nil].
  - split_and!; [done..|]. intros e ->%list_elem_of_singleton. by left.
Qed.

Lemma newViewer_buffers series : buffersInOrder (newViewer series).
Proof.
  unfold newViewer, buffersInOrder. simpl. split_and!; [done|lia|].
  intros [|[|k]] b; simpl; [| |done].
  - destruct (head (SeriesData.frames series)); by intros [= <-].
  - by intros [= <-].
Qed.

Lemma displayUpdate_keeps_buffers st n i force v :
  buffersInOrder v →
  buffersInOrder (displayUpdate st n i force v).1 ∧
  ∀ e, e ∈ (displayUpdate st n i force v).2 → flipsBuffer e.
Proof.
  intros (Hlen & Hcur & Hact).
  destruct (displayUpdate_buffers st n i force v) as (Hi & Hc & He).
  split.
  - unfold buffersInOrder. by rewrite Hi, Hc.
  - intros e Hin. destruct (He e Hin) as [->|[url ->]]; simpl; done.
Qed.

Lemma swapBuffers_keeps_buffers n url cur next st :
  flipsBuffer (SwitchImage n url cur next) → allViewers buffersInOrder st →
  allViewers buffersInOrder (swapBuffers n url cur next st).
Proof.
  intros [Hcur ->] Hall m v'. unfold swapBuffers. cbn [activeViewers with_activeViewers].
  destruct (decide (n = m)) as [->|Hne]; [|rewrite lookup_alter_ne by done; apply Hall].
  rewrite lookup_alter_eq. destruct (activeViewers st !! m) as [v|] eqn:Hv; [|done].
  cbn [fmap option_fmap option_map]. intros [= <-].
  destruct (Hall m v Hv) as (Hlen & _ & _).
  destruct (ViewerData.images v) as [|b0 [|b1 [|b2 images]]] eqn:Himg; try done.
  unfold buffersInOrder.
  cbn [ViewerData.images ViewerData.currentActive ViewerData.with_images
       ViewerData.with_currentActive].
  rewrite ?Himg.
  destruct cur as [|[|cur]]; [| |lia].
  - split_and!; [done|simpl; lia|]. intros [|[|k]] b; simpl; [| |done]; by intros [= <-].
  - split_and!; [done|simpl; lia|]. intros [|[|k]] b; simpl; [| |done]; by intros [= <-].
Qed.

(** X17.  In every state the view can reach, every viewer has its two
    image buffers, [currentActive] designates one of them, and that buffer
    is the only one that carries the class [active]: a frame switch always
    goes from one buffer to the other. *)
Theorem buffers_in_order st :
  reachable st →
  ∀ n v, activeViewers st !! n = Some v →
    length (ViewerData.images v) = 2%nat ∧
    (ViewerData.currentActive v < 2)%nat ∧
    ∀ k b, ViewerData.images v !! k = Some b →
           Buffer.active b = bool_decide (k = ViewerData.currentActive v).
Proof.
  intros Hr n v Hv.
  apply (reachable_all buffersInOrder flipsBuffer newViewer_buffers
           displayUpdate_keeps_buffers swapBuffers_keeps_buffers st Hr n v Hv).
Qed.

Lemma buffers_in_order_witness :
  reachable (run [FileSelect exampleFiles; NextButton]) ∧
  ∀ n v, activeViewers (run [FileSelect exampleFiles; NextButton]) !! n = Some v →
         length (ViewerData.images v) = 2%nat.
Proof.
  assert (H : reachable (run [FileSelect exampleFiles; NextButton])) by (by eexists).
  split; [exact H|]. intros n v Hv. by destruct (buffers_in_order _ H n v Hv) as [? _].
Defined.

(** ** Loading: object URLs, requests and the cache *)

Lemma loaded_moves av i p st :
  loaded (with_activeViewers av (with_cursor i p st)) = loaded st.
Proof. done. Qed.

Lemma imageStore_moves av i p st :
  imageStore (with_activeViewers av (with_cursor i p st)) = imageStore st.
Proof. done. Qed.

Lemma startPlayback_keeps {A} (g : MRViewerView → A) now st :
  (∀ x st, g (with_playInterval x st) = g st) →
  (∀ x h st, g (with_scheduledFrame x h st) = g st) →
  g (startPlayback now st) = g st.
Proof.
  intros H1 H2. unfold startPlayback, stopPlayback, cancelFrame, requestFrame.
  destruct (playInterval st) as [[|h]|] eqn:Hp; simpl.
  all: destruct (Z.of_nat _ =? 0); simpl; try rewrite Hp; rewrite ?H1, ?H2; done.
Qed.

Lemma stopPlayback_keeps {A} (g : MRViewerView → A) st :
  (∀ x st, g (with_playInterval x st) = g st) →
  (∀ x h st, g (with_scheduledFrame x h st) = g st) →
  g (stopPlayback st) = g st.
Proof.
  intros H1 H2. unfold stopPlayback, cancelFrame.
  destruct (playInterval st) as [[|h]|]; rewrite ?H1, ?H2; done.
Qed.

(** A handler that does not load keeps whatever its setters and moves
    keep. *)
Lemma handle_keeps {A} (g : MRViewerView → A) e st :
  (∀ av i p st, g (with_activeViewers av (with_cursor i p st)) = g st) →
  (∀ x st, g (with_syncMode x st) = g st) →
  (∀ x st, g (with_syncEnabled x st) = g st) →
  (∀ x st, g (with_activeSeries x st) = g st) →
  (∀ x st, g (with_wheelDelta x st) = g st) →
  (∀ x st, g (with_lastWheelTime x st) = g st) →
  (∀ x st, g (with_playbackSpeed x st) = g st) →
  (∀ x st, g (with_isPlaying x st) = g st) →
  (∀ x st, g (with_playInterval x st) = g st) →
  (∀ x h st, g (with_scheduledFrame x h st) = g st) →
  isLoading e = false → g (handle e st).1 = g st.
Proof.
  intros Hmove Hmode Hen Hact Hwd Hwt Hspeed Hplay Hint Hsched He.
  assert (Hcur : ∀ i p st, g (with_cursor i p st) = g st).
  { intros i p st0.
    exact (Hmove (activeViewers st0) i p st0). }
  destruct e; try done; simpl.
  - by destruct files.
  - unfold onFrameSyncChange. simpl. destruct (syncEnabled st); [|apply Hmode].
    unfold showFrameAt. rewrite movesOnly_keeps by (done || apply showFrame_movesOnly).
    apply Hmode.
  - unfold onPositionSyncChange. simpl. destruct (syncEnabled st); [|apply Hmode].
    rewrite movesOnly_keeps by (done || apply showFrame_movesOnly). apply Hmode.
  - unfold onSyncEnableChange. simpl. destruct checked; [|apply Hen].
    unfold showFrameAt. rewrite movesOnly_keeps by (done || apply showFrame_movesOnly).
    by rewrite Hact, Hen.
  - unfold handleSeriesSelect. destruct (negb (syncEnabled st)); [|done].
    simpl. destruct (activeViewers st !! seriesName); by rewrite ?Hcur, Hact.
  - unfold handleWheelScroll. destruct (_ <? 30); [done|].
    cbn [wheelDelta with_wheelDelta with_lastWheelTime].
    set (st0 := with_wheelDelta _ (with_lastWheelTime now st)).
    assert (H0 : g st0 = g st) by (subst st0; by rewrite Hwd, Hwt).
    destruct (_ >? 30); [|done]. destruct (_ >? 0).
    + pose proof (movesOnly_keeps g _ st0 Hmove
                    (showNextFrame_movesOnly true (Some seriesName))) as H.
      destruct (showNextFrame _ _ _) as [st' ?]. simpl in *. by rewrite Hwd, H.
    + pose proof (movesOnly_keeps g _ st0 Hmove
                    (showPreviousFrame_movesOnly true (Some seriesName))) as H.
      destruct (showPreviousFrame _ _ _) as [st' ?]. simpl in *. by rewrite Hwd, H.
  - by apply movesOnly_keeps; [|apply showPreviousFrame_movesOnly].
  - by apply movesOnly_keeps; [|apply showNextFrame_movesOnly].
  - by apply movesOnly_keeps; [|apply showFrame_movesOnly].
  - destruct (isPlaying st); simpl; [|apply Hspeed].
    by rewrite startPlayback_keeps, stopPlayback_keeps, Hspeed.
  - unfold togglePlayback. simpl. destruct (negb (isPlaying st)).
    + by rewrite startPlayback_keeps, Hplay.
    + by rewrite stopPlayback_keeps, Hplay.
  - destruct (scheduledFrame st) as [c|]; [|done].
    set (st0 := with_scheduledFrame None (nextHandle st) st).
    assert (H0 : g st0 = g st) by apply Hsched.
    unfold framePlayback. destruct (negb (isPlaying st0)); [done|].
    destruct (fires c time); simpl.
    + destruct (advance c st0) as [[st' effects]|] eqn:Hadv; [|done].
      apply (advance_keeps g) in Hadv; [|done]. simpl in *.
      unfold requestFrame. by rewrite Hint, Hsched, Hadv.
    + unfold requestFrame. by rewrite Hint, Hsched.
Qed.

(** Only the two loading handlers change the catalogue, the position
    index and the object URLs, and none but [handleFileSelect] touches the
    image cache or asks for an image. *)
Lemma handle_loaded e st :
  isLoading e = false → loaded (handle e st).1 = loaded st.
Proof. by apply handle_keeps. Qed.

Lemma handle_imageStore e st :
  isLoading e = false → imageStore (handle e st).1 = imageStore st.
Proof. by apply handle_keeps. Qed.

Lemma cacheReady_insert url img (st : MRViewerView) u :
  Image.complete img = true →
  cacheReady (with_imageCache (<[url := img]> (imageCache st)) st) u
  = cacheReady st u || bool_decide (u = url).
Proof.
  intros Hc. unfold cacheReady. simpl. destruct (decide (u = url)) as [->|Hne].
  - rewrite lookup_insert_eq, Hc, bool_decide_eq_true_2 by done. by rewrite orb_true_r.
  - rewrite lookup_insert_ne, bool_decide_eq_false_2 by done. by rewrite orb_false_r.
Qed.

(** [preloadImage] in full: a ready image is left alone; otherwise the
    image is requested, and cached when it loads. *)
Lemma preloadImage_store url st :
  objectUrls (preloadImage url st).1 = objectUrls st ∧
  imageRequests (preloadImage url st).1
  = (if cacheReady st url then imageRequests st else imageRequests st ++ [url]) ∧
  ∀ u, cacheReady (preloadImage url st).1 u
       = cacheReady st u ||
         (bool_decide (u = url) &&
          match objectUrls st !! url with
          | Some Decodable | Some Undecodable => true
          | _ => false
          end).
Proof.
  unfold preloadImage. destruct (cacheReady st url) eqn:Hready.
  - split_and!; [done..|]. intros u. destruct (decide (u = url)) as [->|Hne].
    + by rewrite Hready.
    + by rewrite bool_decide_eq_false_2, orb_false_r.
  - cbn [objectUrls with_imageRequests].
    destruct (objectUrls st !! url) as [[]|]; cbn [fst]; split_and!; try done.
    + intros u. rewrite (cacheReady_insert url _ (with_imageRequests _ st) u) by done.
      by rewrite andb_true_r.
    + intros u. rewrite (cacheReady_insert url _ (with_imageRequests _ st) u) by done.
      by rewrite andb_true_r.
    + intros u. by rewrite andb_false_r, orb_false_r.
    + intros u. by rewrite andb_false_r, orb_false_r.
Qed.

Lemma addFrames_store xs frames st :
  cacheFresh st →
  let st' := (foldl addFrame (frames, st) xs).2 in
  cacheFresh st' ∧
  imageRequests st' = imageRequests st ++ seq (length (objectUrls st)) (length xs) ∧
  ∀ u, cacheReady st' u
       = cacheReady st u ||
         match xs !! (u - length (objectUrls st))%nat with
         | Some x => bool_decide (length (objectUrls st) ≤ u)%nat && loadableFile x.1
         | None => false
         end.
Proof.
  revert frames st. induction xs as [|x xs IH]; intros frames st Hfresh.
  - simpl. split_and!; [done|by rewrite app_nil_r|]. intros u. by rewrite orb_false_r.
  - set (u0 := length (objectUrls st)).
    set (st1 := with_objectUrls (objectUrls st ++ [File.content x.1]) st).
    assert (Hstep : addFrame (frames, st) x
      = (frames ++ [{| SeriesFrame.file := x.1;
                       SeriesFrame.name := File.name x.1;
                       SeriesFrame.url := u0;
                       SeriesFrame.frameNumber := x.2;
                       SeriesFrame.position := Z.of_nat (length frames) * 5 |}],
         (preloadImage u0 st1).1)) by reflexivity.
    change (foldl addFrame (frames, st) (x :: xs))
      with (foldl addFrame (addFrame (frames, st) x) xs).
    rewrite Hstep. clear Hstep.
    destruct (preloadImage_store u0 st1) as (Hurls & Hreq & Hcache).
    assert (Hnot : cacheReady st1 u0 = false).
    { destruct (cacheReady st1 u0) eqn:Hc; [|done].
      apply (Hfresh u0) in Hc. subst u0. lia. }
    rewrite Hnot in Hreq.
    assert (Hlook : @lookup Url _ _ _ u0 (objectUrls st1) = Some (File.content x.1)).
    { subst st1 u0. simpl. by rewrite lookup_app_r, Nat.sub_diag by lia. }
    assert (Hcache' : ∀ u, cacheReady (preloadImage u0 st1).1 u
                           = cacheReady st u || (bool_decide (u = u0) && loadableFile x.1)).
    { intros u. rewrite Hcache, Hlook. unfold loadableFile.
      by destruct (File.content x.1). }
    clear Hcache Hlook.
    set (st2 := (preloadImage u0 st1).1) in *.
    assert (Hlen2 : length (objectUrls st2) = S u0).
    { rewrite Hurls. subst st1 u0. simpl. rewrite length_app. simpl. lia. }
    assert (Hfresh2 : cacheFresh st2).
    { intros u. rewrite Hcache', Hlen2. intros [Hc|[Hu _]%andb_true_iff]%orb_true_iff.
      - apply (Hfresh u) in Hc. fold u0 in Hc. lia.
      - apply bool_decide_eq_true_1 in Hu. lia. }
    specialize (IH (frames ++ [{| SeriesFrame.file := x.1;
                                   SeriesFrame.name := File.name x.1;
                                   SeriesFrame.url := u0;
                                   SeriesFrame.frameNumber := x.2;
                                   SeriesFrame.position := Z.of_nat (length frames) * 5 |}])
                   st2 Hfresh2).
    destruct IH as (IH1 & IH2 & IH3). split_and!; [done| |].
    + rewrite IH2, Hreq, Hlen2. subst st1. simpl. by rewrite <- app_assoc.
    + intros u. rewrite IH3, Hcache', Hlen2. rewrite <- orb_assoc. f_equal.
      destruct (decide (u = u0)) as [->|Hne].
      * rewrite bool_decide_eq_true_2 by done.
        rewrite Nat.sub_diag. simpl.
        replace (u0 - S u0)%nat with 0%nat by lia.
        rewrite (bool_decide_eq_true_2 (u0 ≤ u0)%nat) by lia.
        rewrite (bool_decide_eq_false_2 (S u0 ≤ u0)%nat) by lia.
        destruct (loadableFile x.1); simpl; [done|]. by destruct (xs !! 0%nat).
      * rewrite bool_decide_eq_false_2 by done. rewrite andb_false_l, orb_false_l.
        destruct (decide (u0 < u)%nat) as [Hlt|Hge].
        -- replace (u - u0)%nat with (S (u - S u0)) by lia. simpl.
           destruct (xs !! _); [|done].
           by rewrite (bool_decide_eq_true_2 (S u0 ≤ u)%nat),
             (bool_decide_eq_true_2 (u0 ≤ u)%nat) by lia.
        -- replace (u - u0)%nat with 0%nat by lia.
           replace (u - S u0)%nat with 0%nat by lia. simpl.
           rewrite (bool_decide_eq_false_2 (u0 ≤ u)%nat) by lia.
           rewrite (bool_decide_eq_false_2 (S u0 ≤ u)%nat) by lia.
           by destruct (xs !! 0%nat).
Qed.

Lemma processSeriesFiles_store seriesName files st :
  cacheFresh st →
  let st' := processSeriesFiles seriesName files st in
  cacheFresh st' ∧
  imageRequests st' = imageRequests st ++ seq (length (objectUrls st)) (length files) ∧
  ∀ u, cacheReady st' u
       = cacheReady st u ||
         match sortedFiles files !! (u - length (objectUrls st))%nat with
         | Some x => bool_decide (length (objectUrls st) ≤ u)%nat && loadableFile x.1
         | None => false
         end.
Proof.
  intros Hfresh. unfold processSeriesFiles. fold (sortedFiles files).
  destruct (addFrames_store (sortedFiles files) [] st Hfresh) as (H1 & H2 & H3).
  destruct (foldl addFrame ([], st) (sortedFiles files)) as [frames st1].
  rewrite sortedFiles_length in H2. by split_and!.
Qed.

Lemma processSeriesFiles_urls_length seriesName files st :
  length (objectUrls (processSeriesFiles seriesName files st))
  = (length (objectUrls st) + length files)%nat.
Proof.
  by rewrite processSeriesFiles_objectUrls, length_app, length_fmap, sortedFiles_length.
Qed.

Lemma processGroups_store groups st :
  cacheFresh st →
  let st' := foldl (λ st g, processSeriesFiles g.1 g.2 st) st groups in
  let total := sum_list_with (λ g : string * list File.t, length g.2) groups in
  cacheFresh st' ∧
  imageRequests st' = imageRequests st ++ seq (length (objectUrls st)) total ∧
  length (objectUrls st') = (length (objectUrls st) + total)%nat.
Proof.
  revert st. induction groups as [|g groups IH]; intros st Hfresh.
  - simpl. split_and!; [done|by rewrite app_nil_r|lia].
  - destruct (processSeriesFiles_store g.1 g.2 st Hfresh) as (H1 & H2 & _).
    destruct (IH _ H1) as (IH1 & IH2 & IH3). simpl. split_and!; [done| |].
    + rewrite IH2, H2, processSeriesFiles_urls_length, <- app_assoc. f_equal.
      by rewrite seq_app.
    + rewrite IH3, processSeriesFiles_urls_length. lia.
Qed.

Lemma group_push_total n f gs :
  sum_list_with (λ g : string * list File.t, length g.2) (group_push n f gs)
  = S (sum_list_with (λ g : string * list File.t, length g.2) gs).
Proof.
  induction gs as [|g gs IH]; simpl; [done|].
  case_bool_decide; simpl; [rewrite length_app; simpl; lia|]. rewrite IH. lia.
Qed.

Lemma groupFiles_total files :
  sum_list_with (λ g : string * list File.t, length g.2) (groupFiles files) = length files.
Proof.
  induction files as [|f files IH] using rev_ind; [done|].
  rewrite groupFiles_snoc, group_push_total, IH, length_app. simpl. lia.
Qed.

(** A viewer that stands on frame 0 is left alone by [showFrame(0)]. *)
Lemma displayUpdate_first st n v s :
  positionIndexCurrent st → seriesData st !! n = Some s →
  seriesConsistent s → evenlySpaced s →
  PositionMap.positions (positionMap st) !! 0%nat = Some 0 →
  ViewerData.currentFrame v = 0 →
  displayUpdate st n 0 false v = (v, []).
Proof.
  intros Hcur Hs Hcons Hsp Hp0 Hv. unfold displayUpdate. rewrite Hs.
  assert (Hres : resolveFrameIndex st n s 0 false = Display 0 ∨
                 resolveFrameIndex st n s 0 false = Keep).
  { unfold resolveFrameIndex.
    pose proof (frames_length_pos s (proj1 Hsp)) as Hlen.
    destruct (syncEnabled st); simpl; [|by right]. left. case_bool_decide.
    - rewrite (positionIndexCurrent_table st n s Hcur Hs).
      assert (Hj : js_index (PositionMap.positions (positionMap st)) 0 = Some 0)
        by exact Hp0.
      rewrite Hj. cbn [mbind option_bind]. f_equal.
      rewrite (evenlySpaced_positions s Hcons Hsp).
      rewrite (positionTable_multiples _ 0). by destruct (_ <? _).
    - f_equal. lia. }
  destruct Hres as [-> | ->]; [|done]. by rewrite Hv.
Qed.

Lemma showFrame_first st :
  viewersInStep st →
  (∀ n v, activeViewers st !! n = Some v → ViewerData.currentFrame v = 0) →
  (showFrame 0 false None st).2 = [] ∧
  activeViewers (showFrame 0 false None st).1 = activeViewers st.
Proof.
  intros Hinv Hzero. destruct (syncEnabled st) eqn:Hsync.
  - destruct (showFrame_sync 0 false None st Hsync) as (av & effects & -> & Hav & Heff).
    cbn [fst snd activeViewers with_activeViewers].
    assert (Hskip : ∀ n v, activeViewers st !! n = Some v →
      displayUpdate st n (boundFrameIndex 0 false (globalCount st)) false v = (v, [])).
    { intros n v Hv.
      pose proof (viewersInStep_globalCount st n v Hinv Hv) as Hcount.
      destruct (viewersInStep_positions st Hinv) as (Hps & _ & _).
      destruct Hinv as (Hcur & Hcons & Hvs & Hsp & _).
      destruct (proj1 (Hvs n)) as [s Hs]; [by rewrite Hv|].
      replace (boundFrameIndex 0 false (globalCount st)) with 0
        by (unfold boundFrameIndex; lia).
      apply (displayUpdate_first st n v s); [done|done|by apply (Hcons n s)|
        by apply (Hsp n s)| |by apply (Hzero n)].
      rewrite Hps, list_lookup_fmap, lookup_seq_lt by lia. done. }
    split.
    + destruct effects as [|e effects]; [done|]. exfalso.
      destruct (Heff e) as (n & v & Hv & Hin); [by left|].
      rewrite (Hskip n v Hv) in Hin. by apply elem_of_nil in Hin.
    + apply map_eq. intros n. rewrite Hav.
      destruct (activeViewers st !! n) as [v|] eqn:Hv; [|done].
      cbn [fmap option_fmap option_map]. by rewrite (Hskip n v Hv).
  - unfold showFrame. set (st0 := with_cursor _ _ st).
    replace (syncEnabled st0) with false by done. done.
Qed.

(** [handleFileSelect] asks for no frame switch: the first frames are put
    into the first buffers by [createSeriesViewers], and the viewers are
    left as [createSeriesViewers] builds them. *)
Lemma handleFileSelect_result f files st :
  (handleFileSelect (f :: files) st).2 = [] ∧
  ∀ n, activeViewers (handleFileSelect (f :: files) st).1 !! n
       = newViewer <$> seriesData (handleFileSelect (f :: files) st).1 !! n.
Proof.
  unfold handleFileSelect.
  set (st0 := with_activeSeries None _).
  set (st1 := foldl _ st0 _).
  assert (Hcur : positionIndexCurrent st1).
  { apply processGroups_current. by apply groupFiles_nonempty. }
  assert (Hcons : catalogueConsistent st1).
  { apply processGroups_consistent. apply map_Forall_empty. }
  assert (Hsp : ∀ n s, seriesData st1 !! n = Some s → evenlySpaced s).
  { apply processGroups_evenlySpaced.
    - intros [n g] Hg. by apply groupFiles_groups in Hg as [Hne _].
    - intros n s. simpl. by rewrite lookup_empty. }
  assert (Hav : activeViewers st1 = ∅).
  { subst st1. by destruct (processGroups_shape (groupFiles (f :: files)) st0)
      as (c&q&u&sd&pm&->). }
  unfold andThen, createSeriesViewers.
  set (viewers := map_fold _ _ _).
  set (st2 := with_activeViewers viewers st1).
  assert (Hlook : ∀ n, viewers !! n = newViewer <$> seriesData st1 !! n).
  { intros n. subst viewers. rewrite newViewers_lookup, Hav, lookup_empty.
    by destruct (seriesData st1 !! n). }
  assert (H2 : viewersInStep st2).
  { split_and!; try done.
    - intros n. simpl. by rewrite Hlook, fmap_is_Some.
    - intros n v s. simpl. rewrite Hlook. intros Hv Hs. rewrite Hs in Hv.
      injection Hv as <-. apply newViewer_shows. by eapply Hsp. }
  assert (Hz2 : ∀ n v, activeViewers st2 !! n = Some v → ViewerData.currentFrame v = 0).
  { intros n v. simpl. rewrite Hlook. destruct (seriesData st1 !! n); [|done].
    by intros [= <-]. }
  destruct (showFrame_first st2 H2 Hz2) as [He2 Hav2].
  destruct (showFrame_inv 0 false None st2 H2) as [H3 _].
  pose proof (movesOnly_seriesData _ st2 (showFrame_movesOnly 0 false None)) as Hsd2.
  destruct (showFrame 0 false None st2) as [st3 e2]. simpl in *. subst e2.
  assert (Hz3 : ∀ n v, activeViewers st3 !! n = Some v → ViewerData.currentFrame v = 0).
  { intros n v. rewrite Hav2. apply Hz2. }
  destruct (showFrame_first st3 H3 Hz3) as [He3 Hav3].
  pose proof (movesOnly_seriesData _ st3 (showFrame_movesOnly 0 false None)) as Hsd3.
  destruct (showFrame 0 false None st3) as [st4 e3]. simpl in *. subst e3.
  split; [done|]. intros n. by rewrite Hav3, Hav2, Hsd3, Hsd2, Hlook.
Qed.

Lemma handleFileSelect_no_switch f files st :
  (handleFileSelect (f :: files) st).2 = [].
Proof. by destruct (handleFileSelect_result f files st). Qed.

(** X18.  Choosing a non-empty batch of files creates one object URL per
    file and asks for the image of each of them exactly once, in the order
    of the URLs, whether the images load or not; it asks for no frame
    switch, the first frame of each series being put into the first buffer
    of its viewer; and nothing that was cached before stays in the cache. *)
Theorem selection_requests_each_image_once files st :
  files ≠ [] →
  let r := handleFileSelect files st in
  r.2 = [] ∧
  length (objectUrls (settle r)) = (length (objectUrls st) + length files)%nat ∧
  imageRequests (settle r)
  = imageRequests st ++ seq (length (objectUrls st)) (length files) ∧
  ∀ url, cacheReady (settle r) url = true → (length (objectUrls st) ≤ url)%nat.
Proof.
  intros Hne r. destruct files as [|f files]; [done|]. clear Hne.
  assert (Hr2 : r.2 = []) by apply handleFileSelect_no_switch.
  assert (Hsettle : settle r = r.1) by (unfold settle; by rewrite Hr2).
  rewrite Hsettle. split; [done|]. subst r. unfold handleFileSelect. rewrite andThen_fst.
  set (st0 := with_activeSeries None _).
  set (st1 := foldl _ st0 _).
  assert (Hshape : ∀ {A} (g : MRViewerView → A),
    (∀ av i p st, g (with_activeViewers av (with_cursor i p st)) = g st) →
    g (showFrame 0 false None (createSeriesViewers st1).1).1 = g st1).
  { intros A g Hg. rewrite movesOnly_keeps by (done || apply showFrame_movesOnly).
    unfold createSeriesViewers.
    rewrite movesOnly_keeps by (done || apply showFrame_movesOnly).
    exact (Hg _ (currentFrameIndex st1) (currentPosition st1) st1). }
  assert (Hfresh0 : cacheFresh st0).
  { intros url. unfold cacheReady. simpl. by rewrite lookup_empty. }
  destruct (processGroups_store (groupFiles (f :: files)) st0 Hfresh0) as (H1 & H2 & H3).
  fold st1 in H1, H2, H3. rewrite groupFiles_total in H2, H3.
  rewrite (Hshape _ objectUrls), (Hshape _ imageRequests) by done.
  split_and!; [done|done|]. intros url.
  rewrite (Hshape _ (λ st, cacheReady st url)) by done.
  intros Hready.
  assert (Hmono : ∀ groups st, cacheFresh st →
    cacheReady (foldl (λ st g, processSeriesFiles g.1 g.2 st) st groups) url = true →
    cacheReady st url = true ∨ (length (objectUrls st) ≤ url)%nat).
  { clear. induction groups as [|g groups IH]; intros st Hfresh; [by left|]. simpl.
    destruct (processSeriesFiles_store g.1 g.2 st Hfresh) as (Hf1 & _ & Hc).
    intros [H|H]%IH; [|right; rewrite processSeriesFiles_urls_length in H; lia|done].
    rewrite Hc in H. apply orb_true_iff in H as [H|H]; [by left|right].
    destruct (sortedFiles g.2 !! _); [|done].
    apply andb_true_iff in H as [H _]. by apply bool_decide_eq_true_1 in H. }
  destruct (Hmono _ _ Hfresh0 Hready) as [H|H]; [|done].
  unfold cacheReady in H. simpl in H. by rewrite lookup_empty in H.
Qed.

Lemma selection_requests_each_image_once_witness :
  exampleFiles ≠ [] ∧
  imageRequests (settle (handleFileSelect exampleFiles initialView))
  = imageRequests initialView ++ seq (length (objectUrls initialView)) (length exampleFiles).
Proof.
  split; [done|].
  by destruct (selection_requests_each_image_once exampleFiles initialView) as (_ & _ & ? & _).
Defined.

(** ** The cache after a selection of loadable images *)

Lemma processSeriesFiles_cached seriesName files st :
  cacheFresh st → framesCached st → forallb loadableFile files = true →
  framesCached (processSeriesFiles seriesName files st).
Proof.
  intros Hfresh Hcached Hload n s fr Hs Hfr.
  destruct (processSeriesFiles_store seriesName files st Hfresh) as (_ & _ & Hc).
  rewrite Hc, processSeriesFiles_objectUrls.
  destruct (decide (n = seriesName)) as [->|Hne].
  - rewrite processSeriesFiles_lookup in Hs. injection Hs as <-. simpl in Hfr.
    apply list_elem_of_lookup in Hfr as [i Hi]. rewrite list_lookup_imap in Hi.
    destruct (sortedFiles files !! i) as [x|] eqn:Hx; [|done].
    simpl in Hi. injection Hi as <-. simpl.
    assert (Hxl : loadableFile x.1 = true).
    { rewrite forallb_forall in Hload. apply Hload. apply list_elem_of_In.
      assert (Hin : x ∈ map (λ f, (f, frameNumberOf f)) files).
      { unfold sortedFiles in Hx. rewrite <- (sort_by_number_perm _).
        by eapply list_elem_of_lookup_2. }
      apply list_elem_of_fmap in Hin as (f & -> & Hf). done. }
    split.
    + rewrite lookup_app_r by lia. rewrite list_lookup_fmap.
      replace (length (objectUrls st) + i - length (objectUrls st))%nat with i by lia.
      by rewrite Hx.
    + replace (length (objectUrls st) + i - length (objectUrls st))%nat with i by lia.
      rewrite Hx, Hxl, bool_decide_eq_true_2 by lia. by rewrite orb_true_r.
  - rewrite processSeriesFiles_other in Hs by done.
    destruct (Hcached n s fr Hs Hfr) as [Hu Hr]. split.
    + by apply lookup_app_l_Some.
    + by rewrite Hr.
Qed.

Lemma processGroups_cached groups st :
  cacheFresh st → framesCached st →
  (∀ g, g ∈ groups → forallb loadableFile g.2 = true) →
  framesCached (foldl (λ st g, processSeriesFiles g.1 g.2 st) st groups).
Proof.
  revert st. induction groups as [|g groups IH]; intros st Hfresh Hcached Hload; [done|].
  simpl. apply IH.
  - by destruct (processSeriesFiles_store g.1 g.2 st Hfresh) as (? & _).
  - apply processSeriesFiles_cached; [done..|]. apply Hload. by left.
  - intros g' Hg'. apply Hload. by right.
Qed.

Lemma framesCached_keeps st st' :
  loaded st' = loaded st → imageCache st' = imageCache st →
  framesCached st → framesCached st'.
Proof.
  unfold loaded, framesCached, cacheReady. intros [= -> _ ->] ->. done.
Qed.

Lemma handleFileSelect_cached f files st :
  forallb loadableFile (f :: files) = true →
  framesCached (handleFileSelect (f :: files) st).1.
Proof.
  intros Hload. unfold handleFileSelect. rewrite andThen_fst.
  set (st0 := with_activeSeries None _).
  set (st1 := foldl _ st0 _).
  assert (H1 : framesCached st1).
  { apply processGroups_cached.
    - intros url. unfold cacheReady. simpl. by rewrite lookup_empty.
    - intros n s fr. simpl. by rewrite lookup_empty.
    - intros [n g] Hg. apply groupFiles_groups in Hg as [_ ->]. simpl.
      rewrite forallb_forall in Hload |- *. intros x Hx. apply Hload.
      apply list_elem_of_In in Hx. apply list_elem_of_In.
      by apply list_elem_of_filter in Hx as [_ ?]. }
  apply (framesCached_keeps st1); [| |done].
  - rewrite (movesOnly_keeps loaded) by (done || apply showFrame_movesOnly).
    unfold createSeriesViewers.
    rewrite (movesOnly_keeps loaded) by (done || apply showFrame_movesOnly). done.
  - rewrite (movesOnly_keeps imageCache) by (done || apply showFrame_movesOnly).
    unfold createSeriesViewers.
    rewrite (movesOnly_keeps imageCache) by (done || apply showFrame_movesOnly). done.
Qed.

(** Switches to cached images are carried out without the cache or the
    network. *)
Lemma settle_cached st effects :
  (∀ e, e ∈ effects →
     ∃ n url cur next, e = SwitchImage n url cur next ∧ cacheReady st url = true) →
  imageStore (settle (st, effects)) = imageStore st.
Proof.
  unfold settle. simpl. revert st.
  induction effects as [|e effects IH]; intros st He; [done|].
  destruct (He e) as (n & url & cur & next & -> & Hready); [by left|].
  simpl. rewrite Hready. rewrite IH; [done|].
  intros e' He'. destruct (He e') as (n' & url' & cur' & next' & -> & Hready'); [by right|].
  by exists n', url', cur', next'.
Qed.

Lemma switches_cached st effects :
  framesCached st → switchesToFrames st effects →
  ∀ e, e ∈ effects →
    ∃ n url cur next, e = SwitchImage n url cur next ∧ cacheReady st url = true.
Proof.
  intros Hcached Hsw e He.
  destruct (Hsw e He) as (n & s & fr & cur & next & -> & Hs & Hfr).
  exists n, (SeriesFrame.url fr), cur, next. split; [done|].
  by destruct (Hcached n s fr Hs Hfr).
Qed.

Lemma picksLoadable_noLoadFile events :
  Forall (λ e, picksLoadable e = true) events →
  Forall (λ e, isLoadFile e = false) events.
Proof. intros H. eapply Forall_impl; [exact H|]. by intros []. Qed.

Lemma run_cached events :
  Forall (λ e, picksLoadable e = true) events → framesCached (run events).
Proof.
  induction events as [|e events IH] using rev_ind; intros Hev.
  - intros n s fr. unfold run. simpl. by rewrite lookup_empty.
  - apply Forall_app in Hev as [Hev He]. rewrite Forall_singleton in He.
    specialize (IH Hev). rewrite run_snoc. unfold step.
    pose proof (run_inv events (picksLoadable_noLoadFile events Hev)) as Hinv.
    set (st := run events) in *.
    assert (Hload : isLoadFile e = false) by (by destruct e).
    destruct (handle_inv e st Hload Hinv) as [_ Hsw].
    assert (Hc : framesCached (handle e st).1).
    { destruct (isLoading e) eqn:Hl.
      - destruct e as [[|f files]| | | | | | | | | | | |]; try done.
        by apply handleFileSelect_cached.
      - apply (framesCached_keeps st); [by apply handle_loaded| |done].
        pose proof (handle_imageStore e st Hl) as [= -> _]. done. }
    apply (framesCached_keeps (handle e st).1); [by apply settle_keeps| |done].
    change (settle (handle e st)) with (settle ((handle e st).1, (handle e st).2)).
    pose proof (settle_cached _ _ (switches_cached _ _ Hc Hsw)) as [= -> _]. done.
Qed.

(** X19.  When only images that load are chosen, and only through the file
    picker, every image is in the cache from the selection on: no event
    other than a new selection requests an image or changes the cache, and
    every frame of the catalogue has the image of its file ready. *)
Theorem no_request_after_selection events e :
  Forall (λ e, picksLoadable e = true) events →
  picksLoadable e = true → isLoading e = false →
  let st := run events in
  imageRequests (step st e) = imageRequests st ∧
  imageCache (step st e) = imageCache st ∧
  ∀ n s fr, seriesData st !! n = Some s → fr ∈ SeriesData.frames s →
    objectUrls st !! SeriesFrame.url fr = Some (File.content (SeriesFrame.file fr)) ∧
    cacheReady st (SeriesFrame.url fr) = true.
Proof.
  intros Hev He Hl st.
  pose proof (run_cached events Hev) as Hc. fold st in Hc.
  pose proof (run_inv events (picksLoadable_noLoadFile events Hev)) as Hinv. fold st in Hinv.
  assert (Hload : isLoadFile e = false) by (by destruct e).
  destruct (handle_inv e st Hload Hinv) as [_ Hsw].
  assert (Hc' : framesCached (handle e st).1).
  { apply (framesCached_keeps st); [by apply handle_loaded| |done].
    pose proof (handle_imageStore e st Hl) as [= -> _]. done. }
  unfold step.
  change (settle (handle e st)) with (settle ((handle e st).1, (handle e st).2)).
  pose proof (settle_cached _ _ (switches_cached _ _ Hc' Hsw)) as [= H1 H2].
  pose proof (handle_imageStore e st Hl) as [= H3 H4].
  split_and!; [congruence|congruence|exact Hc].
Qed.

Lemma no_request_after_selection_witness :
  Forall (λ e, picksLoadable e = true) [FileSelect exampleFiles; PositionSyncRadio] ∧
  imageRequests (step (run [FileSelect exampleFiles; PositionSyncRadio]) (FrameSlider 5))
  = imageRequests (run [FileSelect exampleFiles; PositionSyncRadio]).
Proof.
  assert (H : Forall (λ e, picksLoadable e = true)
                     [FileSelect exampleFiles; PositionSyncRadio]).
  { repeat constructor. }
  split; [exact H|].
  by destruct (no_request_after_selection _ (FrameSlider 5) H eq_refl eq_refl) as [? _].
Defined.

(** ** The visible image *)

Lemma shownAfter_app n e1 e2 src :
  shownAfter n (e1 ++ e2) src = shownAfter n e2 (shownAfter n e1 src).
Proof.
  revert src. induction e1 as [|e e1 IH]; intros src; [done|].
  destruct e; simpl; apply IH.
Qed.

(** The effects of an update of the viewer of [n] concern that viewer only;
    when it moves without throwing, the switch it asks for is to the image
    of the new frame. *)
Lemma displayUpdate_shown_other st n i force v m src :
  n ≠ m → shownAfter m (displayUpdate st n i force v).2 src = src.
Proof.
  intros Hne. destruct (displayUpdate_buffers st n i force v) as (_ & _ & He).
  destruct ((displayUpdate st n i force v).2) as [|e es]; [done|].
  revert src He. generalize (e :: es). clear e es.
  induction l as [|e es IH]; intros src He; [done|].
  destruct (He e) as [->|[url ->]]; [by left| |]; simpl.
  - apply IH. intros e' He'. apply He. by right.
  - rewrite bool_decide_eq_false_2 by done. apply IH. intros e' He'. apply He. by right.
Qed.

Lemma displayUpdate_shown st n i force v src :
  (∀ e, e ∈ (displayUpdate st n i force v).2 → is_switch e = true) →
  shownAfter n (displayUpdate st n i force v).2 src
  = match (displayUpdate st n i force v).2 with
    | [] => src
    | _ => frameUrl (with_activeViewers
                       (<[n := (displayUpdate st n i force v).1]> (activeViewers st)) st) n
    end.
Proof.
  unfold displayUpdate, frameUrl. cbn [activeViewers seriesData with_activeViewers].
  rewrite lookup_insert_eq. cbn [mbind option_bind].
  destruct (seriesData st !! n) as [s|] eqn:Hs; [|done].
  destruct (resolveFrameIndex st n s i force) as [d| |]; [|done|].
  - destruct (negb force && _); [done|].
    destruct (js_index (SeriesData.frames s) d) as [fr|] eqn:Hfr; cbn [fst snd shownAfter].
    + intros _. rewrite bool_decide_eq_true_2 by done.
      cbn [ViewerData.currentFrame ViewerData.with_filenameDisplay
           ViewerData.with_currentPosition ViewerData.with_currentFrame
           mbind option_bind].
      by rewrite Hfr.
    + intros He. discriminate (He (Threw n)). by left.
  - cbn [snd]. intros He. discriminate (He (Threw n)). by left.
Qed.

Lemma displayUpdate_unchanged st n i force v :
  (displayUpdate st n i force v).2 = [] → (displayUpdate st n i force v).1 = v.
Proof.
  unfold displayUpdate.
  destruct (seriesData st !! n) as [s|]; [|done].
  destruct (resolveFrameIndex st n s i force) as [d| |]; [|done..].
  destruct (negb force && _); [done|].
  by destruct (js_index (SeriesData.frames s) d).
Qed.

Lemma frameUrl_ext st st' n :
  activeViewers st' !! n = activeViewers st !! n → seriesData st' = seriesData st →
  frameUrl st' n = frameUrl st n.
Proof. unfold frameUrl. by intros -> ->. Qed.

(** What an update of one viewer leaves pending. *)
Lemma updateSeriesFrame_pending n i force st e0 :
  pendingShows st e0 →
  (∀ v e, activeViewers st !! n = Some v →
          e ∈ (displayUpdate st n i force v).2 → is_switch e = true) →
  pendingShows (updateSeriesFrame n i force st).1
               (e0 ++ (updateSeriesFrame n i force st).2).
Proof.
  intros Hpend Hsw. rewrite updateSeriesFrame_eq.
  destruct (activeViewers st !! n) as [v|] eqn:Hv; [|by rewrite app_nil_r].
  cbn [fst snd]. intros m v'. cbn [activeViewers with_activeViewers].
  rewrite shownAfter_app.
  destruct (decide (n = m)) as [<-|Hne].
  - rewrite displayUpdate_shown by (intros e; by apply Hsw).
    rewrite lookup_insert_eq. intros [= <-].
    destruct ((displayUpdate st n i force v).2) as [|e es] eqn:He; [|done].
    rewrite (displayUpdate_unchanged st n i force v He).
    rewrite (Hpend n v Hv). symmetry. apply frameUrl_ext; [|done].
    simpl. by rewrite lookup_insert_eq.
  - rewrite displayUpdate_shown_other by done.
    rewrite lookup_insert_ne by done. intros Hv'.
    rewrite (Hpend m v' Hv'). symmetry. apply frameUrl_ext; [|done].
    simpl. by rewrite lookup_insert_ne.
Qed.

Lemma displayUpdate_switches st n i force v :
  viewersInStep st → activeViewers st !! n = Some v → 0 ≤ i →
  ∀ e, e ∈ (displayUpdate st n i force v).2 → is_switch e = true.
Proof.
  intros (Hcur & Hcons & Hvs & Hsp & Hshow) Hv Hi e He.
  destruct (proj1 (Hvs n)) as [s Hs]; [by rewrite Hv|].
  destruct (displayUpdate_inv st n i force v s) as (_ & _ & _ & H2);
    [done|done|by apply (Hcons n s)|by apply (Hsp n s)|done|by apply (Hshow n v s)|].
  by destruct (H2 e He) as (fr & _ & ->).
Qed.

Lemma displayUpdate_activeSrc st n i force v :
  activeSrc (displayUpdate st n i force v).1 = activeSrc v.
Proof.
  destruct (displayUpdate_buffers st n i force v) as (Hi & Hc & _).
  unfold activeSrc. by rewrite Hi, Hc.
Qed.

(** The synchronised loop, with what it leaves pending for each viewer. *)
Lemma updateAll_pending frameIndex (m : gmap string ViewerData.t) st :
  ∃ av effects,
    updateAll frameIndex m st = (with_activeViewers av st, effects) ∧
    (∀ n, av !! n =
          match m !! n with
          | Some _ => (λ v, (displayUpdate st n frameIndex false v).1) <$> activeViewers st !! n
          | None => activeViewers st !! n
          end) ∧
    (∀ n src, shownAfter n effects src =
          match m !! n, activeViewers st !! n with
          | Some _, Some v => shownAfter n (displayUpdate st n frameIndex false v).2 src
          | _, _ => src
          end).
Proof.
  unfold updateAll. revert st.
  apply (map_fold_weak_ind
    (λ (acc : Action) (m : gmap string ViewerData.t), ∀ st, ∃ av effects,
      acc st = (with_activeViewers av st, effects) ∧
      (∀ n, av !! n =
          match m !! n with
          | Some _ => (λ v, (displayUpdate st n frameIndex false v).1) <$> activeViewers st !! n
          | None => activeViewers st !! n
          end) ∧
      (∀ n src, shownAfter n effects src =
          match m !! n, activeViewers st !! n with
          | Some _, Some v => shownAfter n (displayUpdate st n frameIndex false v).2 src
          | _, _ => src
          end))).
  - intros st. exists (activeViewers st), []. split_and!.
    + by rewrite with_activeViewers_id.
    + intros n. by rewrite lookup_empty.
    + intros n src. by rewrite lookup_empty.
  - intros i x m' acc Hi IH st.
    destruct (IH st) as (av & effects & Hacc & Hav & Heff).
    unfold andThen. rewrite Hacc, updateSeriesFrame_eq. simpl.
    pose proof (Hav i) as Havi. rewrite Hi in Havi.
    destruct (activeViewers st !! i) as [v|] eqn:Hv; rewrite Havi.
    + eexists _, _. split_and!; [done| |].
      * intros n. destruct (decide (i = n)) as [->|Hne].
        -- by rewrite !lookup_insert_eq, Hv.
        -- rewrite !lookup_insert_ne by done. apply Hav.
      * intros n src. rewrite shownAfter_app, Heff.
        change (displayUpdate (with_activeViewers av st) i frameIndex false v)
          with (displayUpdate st i frameIndex false v).
        destruct (decide (i = n)) as [->|Hne].
        -- by rewrite lookup_insert_eq, Hi, Hv.
        -- rewrite lookup_insert_ne by done.
           by rewrite (displayUpdate_shown_other st i frameIndex false v n).
    + exists av, effects. split_and!.
      * by rewrite app_nil_r.
      * intros n. destruct (decide (i = n)) as [->|Hne].
        -- by rewrite lookup_insert_eq, Hv, Hav, Hi, Hv.
        -- rewrite lookup_insert_ne by done. apply Hav.
      * intros n src. rewrite Heff. destruct (decide (i = n)) as [->|Hne].
        -- by rewrite lookup_insert_eq, Hi, Hv.
        -- by rewrite lookup_insert_ne.
Qed.

Lemma showFrame_pending frameIndex allowLoop targetSeries st e0 :
  viewersInStep st → pendingShows st e0 →
  pendingShows (showFrame frameIndex allowLoop targetSeries st).1
               (e0 ++ (showFrame frameIndex allowLoop targetSeries st).2).
Proof.
  intros Hinv Hpend. unfold showFrame. fold (globalCount st).
  set (i := boundFrameIndex _ _ _). set (st0 := with_cursor i _ st).
  assert (H0 : pendingShows st0 e0) by exact Hpend.
  assert (Hinv0 : viewersInStep st0) by (by apply viewersInStep_cursor).
  assert (Hsw : ∀ n v e, activeViewers st0 !! n = Some v →
            ∀ force, e ∈ (displayUpdate st0 n i force v).2 → is_switch e = true).
  { intros n v e Hv force. apply displayUpdate_switches; [done..|].
    apply boundFrameIndex_range. by apply (viewersInStep_globalCount st n v). }
  destruct (syncEnabled st0).
  - fold (updateAll i (activeViewers st0)).
    destruct (updateAll_pending i (activeViewers st0) st0) as (av & effects & -> & Hav & Heff).
    cbn [fst snd]. intros n v'. cbn [activeViewers with_activeViewers].
    rewrite Hav, shownAfter_app, Heff.
    destruct (activeViewers st0 !! n) as [v|] eqn:Hv; [|done].
    cbn [fmap option_fmap option_map]. intros [= <-].
    rewrite displayUpdate_shown by (intros e; by apply Hsw).
    destruct ((displayUpdate st0 n i false v).2) as [|e es] eqn:He.
    + rewrite (displayUpdate_unchanged st0 n i false v He).
      rewrite (H0 n v Hv). symmetry. apply frameUrl_ext; [|done].
      cbn [activeViewers with_activeViewers]. rewrite Hav, Hv.
      cbn [fmap option_fmap option_map].
      by rewrite (displayUpdate_unchanged st0 n i false v He).
    + apply frameUrl_ext; [|done]. cbn [activeViewers with_activeViewers].
      by rewrite lookup_insert_eq, Hav, Hv.
  - destruct (truthy targetSeries) as [target|]; [|by rewrite app_nil_r].
    apply updateSeriesFrame_pending; [done|]. intros v e Hv. by apply Hsw.
Qed.

Lemma showNextFrame_pending allowLoop targetSeries st e0 :
  viewersInStep st → pendingShows st e0 →
  pendingShows (showNextFrame allowLoop targetSeries st).1
               (e0 ++ (showNextFrame allowLoop targetSeries st).2).
Proof.
  intros Hinv Hpend. unfold showNextFrame.
  destruct (syncEnabled st); [by apply showFrame_pending|].
  destruct (truthy targetSeries) as [target|]; [|by rewrite app_nil_r].
  destruct (activeViewers st !! target) as [v|] eqn:Hv; [|by rewrite app_nil_r].
  destruct (seriesData st !! target) as [s|] eqn:Hs; [|by rewrite app_nil_r].
  pose proof Hinv as (_ & _ & _ & Hsp & Hshow).
  pose proof (showsFrameOf_nonneg s v (Hshow _ _ _ Hv Hs)) as Hnn.
  pose proof (frames_length_pos s (proj1 (Hsp _ _ Hs))) as Hlen.
  set (i := if allowLoop then _ else _).
  apply updateSeriesFrame_pending; [done|]. intros v' e Hv'.
  apply displayUpdate_switches; [by apply viewersInStep_cursor|done|].
  subst i. destruct allowLoop; [|lia]. destruct (_ >=? _); lia.
Qed.

Lemma showPreviousFrame_pending allowLoop targetSeries st e0 :
  viewersInStep st → pendingShows st e0 →
  pendingShows (showPreviousFrame allowLoop targetSeries st).1
               (e0 ++ (showPreviousFrame allowLoop targetSeries st).2).
Proof.
  intros Hinv Hpend. unfold showPreviousFrame.
  destruct (syncEnabled st); [by apply showFrame_pending|].
  destruct (truthy targetSeries) as [target|]; [|by rewrite app_nil_r].
  destruct (activeViewers st !! target) as [v|] eqn:Hv; [|by rewrite app_nil_r].
  destruct (seriesData st !! target) as [s|] eqn:Hs; [|by rewrite app_nil_r].
  pose proof Hinv as (_ & _ & _ & Hsp & Hshow).
  pose proof (showsFrameOf_nonneg s v (Hshow _ _ _ Hv Hs)) as Hnn.
  pose proof (frames_length_pos s (proj1 (Hsp _ _ Hs))) as Hlen.
  set (i := if allowLoop then _ else _).
  apply updateSeriesFrame_pending; [done|]. intros v' e Hv'.
  apply displayUpdate_switches; [by apply viewersInStep_cursor|done|].
  subst i. destruct allowLoop; [|lia]. destruct (_ <? _) eqn:E; lia.
Qed.

Lemma pendingShows_same st st' effects :
  activeViewers st' = activeViewers st → seriesData st' = seriesData st →
  pendingShows st effects → pendingShows st' effects.
Proof.
  intros Hav Hsd Hpend n v. rewrite Hav. intros Hv. rewrite (Hpend n v Hv).
  symmetry. apply frameUrl_ext; [by rewrite Hav|done].
Qed.

Lemma advance_pending c st r :
  advance c st = Some r → viewersInStep st → pendingShows st [] → pendingShows r.1 r.2.
Proof.
  unfold advance. intros H Hinv Hpend.
  repeat case_match; simplify_eq; try done.
  all: first [ by apply (showFrame_pending _ _ _ _ [])
             | by apply (showNextFrame_pending _ _ _ []) ].
Qed.

Lemma newViewer_activeSrc s :
  activeSrc (newViewer s) = SeriesFrame.url <$> head (SeriesData.frames s).
Proof. unfold activeSrc, newViewer. simpl. by destruct (head (SeriesData.frames s)). Qed.

(** Every handler but [loadFile] leaves pending what makes every viewer
    show the frame it stands on. *)
Lemma handle_pending e st :
  isLoadFile e = false → viewersInStep st → pendingShows st [] →
  pendingShows (handle e st).1 (handle e st).2.
Proof.
  intros He Hinv Hpend.
  assert (Hsame : ∀ st', seriesData st' = seriesData st → positionMap st' = positionMap st →
            activeViewers st' = activeViewers st → viewersInStep st').
  { intros st' ? ? ?. by apply (viewersInStep_same st). }
  destruct e; try done; simpl.
  - destruct files as [|f files]; [done|].
    destruct (handleFileSelect_result f files st) as [-> Hav].
    intros n v. rewrite Hav. unfold frameUrl. rewrite Hav.
    destruct (seriesData _ !! n) as [s|]; [|done]. simpl. intros [= <-].
    rewrite newViewer_activeSrc. unfold js_index, newViewer. simpl.
    by destruct (SeriesData.frames s).
  - unfold onFrameSyncChange. simpl. destruct (syncEnabled st); [|done].
    unfold showFrameAt. apply (showFrame_pending _ _ _ _ []); [by apply Hsame|done].
  - unfold onPositionSyncChange. simpl. destruct (syncEnabled st); [|done].
    apply (showFrame_pending _ _ _ _ []); [by apply Hsame|done].
  - unfold onSyncEnableChange. simpl. destruct checked; [|done].
    unfold showFrameAt. apply (showFrame_pending _ _ _ _ []); [by apply Hsame|done].
  - unfold handleSeriesSelect. destruct (negb (syncEnabled st)); [|done].
    simpl. by destruct (activeViewers st !! seriesName).
  - unfold handleWheelScroll. destruct (_ <? 30); [done|].
    cbn [wheelDelta with_wheelDelta with_lastWheelTime].
    set (st0 := with_wheelDelta _ (with_lastWheelTime now st)).
    assert (H0 : pendingShows st0 []) by exact Hpend.
    assert (Hinv0 : viewersInStep st0) by (by apply Hsame).
    destruct (Z.abs _ >? 30); [|done].
    destruct (_ >? 0).
    + pose proof (showNextFrame_pending true (Some seriesName) st0 [] Hinv0 H0) as H.
      destruct (showNextFrame true (Some seriesName) st0) as [st' effects]. exact H.
    + pose proof (showPreviousFrame_pending true (Some seriesName) st0 [] Hinv0 H0) as H.
      destruct (showPreviousFrame true (Some seriesName) st0) as [st' effects]. exact H.
  - by apply (showPreviousFrame_pending _ _ _ []).
  - by apply (showNextFrame_pending _ _ _ []).
  - apply (showFrame_pending _ _ _ _ []); [by apply Hsame|done].
  - destruct (isPlaying st); simpl; [|done].
    apply (pendingShows_same st); [| |done].
    + destruct (startPlayback_view now (stopPlayback (with_playbackSpeed value st)))
        as (_ & _ & ->).
      by destruct (stopPlayback_view (with_playbackSpeed value st)) as (_ & _ & ->).
    + by rewrite startPlayback_seriesData, stopPlayback_seriesData.
  - apply (pendingShows_same st); [| |done]; unfold togglePlayback; simpl;
      destruct (negb (isPlaying st)).
    + by destruct (startPlayback_view now (with_isPlaying true st)) as (_ & _ & ->).
    + by destruct (stopPlayback_view (with_isPlaying false st)) as (_ & _ & ->).
    + by rewrite startPlayback_seriesData.
    + by rewrite stopPlayback_seriesData.
  - destruct (scheduledFrame st) as [c|]; [|done].
    set (st0 := with_scheduledFrame None (nextHandle st) st).
    assert (H0 : pendingShows st0 []) by exact Hpend.
    assert (Hinv0 : viewersInStep st0) by (by apply Hsame).
    unfold framePlayback. destruct (negb (isPlaying st0)); [done|].
    destruct (fires c time).
    + destruct (advance c st0) as [[st' effects]|] eqn:Hadv; [|done].
      exact (advance_pending c st0 _ Hadv Hinv0 H0).
    + exact H0.
Qed.

(** Carrying out the pending switches, all of them to cached images and
    each from one buffer to the other, leaves every viewer showing the
    frame it stands on. *)
Lemma settle_pending st effects :
  allViewers buffersInOrder st →
  (∀ e, e ∈ effects →
     flipsBuffer e ∧
     ∃ n url cur next, e = SwitchImage n url cur next ∧ cacheReady st url = true) →
  pendingShows st effects →
  pendingShows (settle (st, effects)) [].
Proof.
  unfold settle. simpl. revert st.
  induction effects as [|e effects IH]; intros st Hbuf He Hpend; [done|].
  destruct (He e) as (Hflip & n & url & cur & next & -> & Hready); [by left|].
  simpl. rewrite Hready. apply IH.
  - by apply swapBuffers_keeps_buffers.
  - intros e' He'. destruct (He e') as (Hflip' & n' & url' & cur' & next' & -> & Hr');
      [by right|].
    split; [done|]. by exists n', url', cur', next'.
  - intros m v'. unfold swapBuffers. cbn [activeViewers with_activeViewers].
    destruct (decide (n = m)) as [<-|Hne].
    + rewrite lookup_alter_eq.
      destruct (activeViewers st !! n) as [v|] eqn:Hv; [|done].
      cbn [fmap option_fmap option_map]. intros [= <-].
      pose proof (Hpend n v Hv) as Hp. simpl in Hp.
      rewrite bool_decide_eq_true_2 in Hp by done.
      assert (Hsrc : activeSrc
        (ViewerData.with_currentActive next
           (ViewerData.with_images
              (alter (Buffer.classify true) next
                 (alter (Buffer.classify false) cur
                    (alter (Buffer.fade 0) cur
                       (alter (λ b, Buffer.fade 1 (Buffer.load url b)) next
                          (ViewerData.images v))))) v)) = Some url).
      { destruct (Hbuf n v Hv) as (Hlen & _ & _). destruct Hflip as [Hcur ->].
        unfold activeSrc. cbn [ViewerData.images ViewerData.currentActive
          ViewerData.with_images ViewerData.with_currentActive].
        destruct (ViewerData.images v) as [|b0 [|b1 [|b2 images]]]; try done.
        by destruct cur as [|[|cur]]; [| |lia]. }
      rewrite Hsrc, Hp. unfold frameUrl. cbn [activeViewers seriesData with_activeViewers].
      by rewrite lookup_alter_eq, Hv.
    + rewrite lookup_alter_ne by done. intros Hv'.
      pose proof (Hpend m v' Hv') as Hp. simpl in Hp.
      rewrite bool_decide_eq_false_2 in Hp by done. rewrite Hp.
      unfold frameUrl. cbn [activeViewers seriesData with_activeViewers].
      by rewrite lookup_alter_ne.
Qed.

Lemma run_pending events :
  Forall (λ e, picksLoadable e = true) events → pendingShows (run events) [].
Proof.
  induction events as [|e events IH] using rev_ind; intros Hev.
  - intros n v. unfold run. simpl. by rewrite lookup_empty.
  - apply Forall_app in Hev as [Hev He]. rewrite Forall_singleton in He.
    specialize (IH Hev). rewrite run_snoc. unfold step.
    pose proof (run_inv events (picksLoadable_noLoadFile events Hev)) as Hinv.
    pose proof (run_cached (events ++ [e])) as Hc.
    rewrite run_snoc in Hc. unfold step in Hc.
    set (st := run events) in *.
    assert (Hload : isLoadFile e = false) by (by destruct e).
    destruct (handle_inv e st Hload Hinv) as [_ Hsw].
    assert (Hbuf : allViewers buffersInOrder st).
    { apply (reachable_all buffersInOrder flipsBuffer newViewer_buffers
               displayUpdate_keeps_buffers swapBuffers_keeps_buffers). by exists events. }
    destruct (handle_all buffersInOrder flipsBuffer newViewer_buffers
                displayUpdate_keeps_buffers e st Hbuf) as [Hbuf' Hflip].
    assert (Hc' : framesCached (handle e st).1).
    { destruct (isLoading e) eqn:Hl.
      - destruct e as [[|f files]| | | | | | | | | | | |]; try done.
        by apply handleFileSelect_cached.
      - apply (framesCached_keeps st); [by apply handle_loaded| |by apply run_cached].
        pose proof (handle_imageStore e st Hl) as [= -> _]. done. }
    change (settle (handle e st)) with (settle ((handle e st).1, (handle e st).2)).
    apply settle_pending; [done| |by apply handle_pending].
    intros eff Heff. split; [by apply Hflip|].
    by apply (switches_cached _ _ Hc' Hsw).
Qed.

(** X20.  When only images that load are chosen, and only through the file
    picker, after any sequence of events every viewer shows the frame it
    stands on: the buffer that [currentActive] designates carries the class
    [active] and holds the object URL of the frame of index [currentFrame]
    of the viewer's series, which is the URL created for the file of that
    frame. *)
Theorem visible_image_is_current_frame events n v s :
  Forall (λ e, picksLoadable e = true) events →
  let st := run events in
  activeViewers st !! n = Some v → seriesData st !! n = Some s →
  ∃ (i : nat) fr b,
    ViewerData.currentFrame v = Z.of_nat i ∧
    SeriesData.frames s !! i = Some fr ∧
    ViewerData.images v !! ViewerData.currentActive v = Some b ∧
    Buffer.active b = true ∧
    Buffer.src b = Some (SeriesFrame.url fr) ∧
    objectUrls st !! SeriesFrame.url fr = Some (File.content (SeriesFrame.file fr)).
Proof.
  intros Hev st Hv Hs.
  pose proof (run_pending events Hev n v Hv) as Hp. fold st in Hp.
  destruct (run_inv events (picksLoadable_noLoadFile events Hev))
    as (_ & _ & _ & _ & Hshow). fold st in Hshow.
  destruct (Hshow n v s Hv Hs) as (i & fr & Hi & Hfr & _).
  assert (Hbuf : buffersInOrder v).
  { apply (reachable_all buffersInOrder flipsBuffer newViewer_buffers
             displayUpdate_keeps_buffers swapBuffers_keeps_buffers st
             (ex_intro _ events eq_refl) n v Hv). }
  destruct Hbuf as (_ & _ & Hact).
  simpl in Hp. unfold frameUrl in Hp. rewrite Hv, Hs in Hp. simpl in Hp.
  unfold js_index in Hp. rewrite Hi in Hp.
  replace (Z.of_nat i <? 0) with false in Hp by lia. rewrite Nat2Z.id, Hfr in Hp.
  unfold activeSrc in Hp.
  destruct (ViewerData.images v !! ViewerData.currentActive v) as [b|] eqn:Hb; [|done].
  simpl in Hp. exists i, fr, b. split_and!; [done..| | |].
  - rewrite (Hact _ b Hb). by apply bool_decide_eq_true_2.
  - done.
  - destruct (run_cached events Hev n s fr Hs) as [Hu _]; [|done].
    by eapply list_elem_of_lookup_2.
Qed.

Lemma example_T1_viewer :
  ∃ v s,
    activeViewers (run [FileSelect exampleFiles; NextButton; NextButton]) !! T1WI = Some v ∧
    seriesData (run [FileSelect exampleFiles; NextButton; NextButton]) !! T1WI = Some s.
Proof. eexists _, _. split; vm_compute; reflexivity. Qed.

Lemma visible_image_is_current_frame_witness :
  ∃ v s (i : nat) fr b,
    activeViewers (run [FileSelect exampleFiles; NextButton; NextButton]) !! T1WI = Some v ∧
    seriesData (run [FileSelect exampleFiles; NextButton; NextButton]) !! T1WI = Some s ∧
    SeriesData.frames s !! i = Some fr ∧
    ViewerData.images v !! ViewerData.currentActive v = Some b ∧
    Buffer.src b = Some (SeriesFrame.url fr).
Proof.
  destruct example_T1_viewer as (v & s & Hv & Hs).
  destruct (visible_image_is_current_frame
              [FileSelect exampleFiles; NextButton; NextButton] T1WI v s)
    as (i & fr & b & _ & Hfr & Hb & _ & Hsrc & _).
  - repeat constructor.
  - exact Hv.
  - exact Hs.
  - exists v, s, i, fr, b. split_and!; assumption.
Defined.

(** ** Enabling synchronisation *)

(** X21.  Switching synchronisation on (images loaded through the file
    picker only) puts every viewer on the smallest frame index that any
    viewer displayed before, in frame mode and in position mode alike. *)
Theorem sync_enable_aligns_viewers events m n :
  Forall (λ e, isLoadFile e = false) events →
  let st := run events in
  (∃ n0 v0, activeViewers st !! n0 = Some v0 ∧ ViewerData.currentFrame v0 = m) →
  (∀ n' v', activeViewers st !! n' = Some v' → m ≤ ViewerData.currentFrame v') →
  is_Some (activeViewers st !! n) →
  displayedFrame (step st (SyncCheckbox true)) n = Some m.
Proof.
  intros Hev st Hm Hleast [v Hv].
  pose proof (run_inv events Hev) as Hinv. fold st in Hinv.
  set (st1 := with_activeSeries None (with_syncEnabled true st)).
  assert (Hinv1 : viewersInStep st1) by (by apply (viewersInStep_same st)).
  destruct (proj1 (proj1 (proj2 (proj2 Hinv)) n)) as [s Hs]; [by rewrite Hv|].
  destruct (viewersInStep_positions st Hinv) as (_ & Hle & _).
  specialize (Hle n s Hs).
  pose proof Hinv as (_ & _ & Hdom & _ & Hshow).
  destruct (Hshow n v s Hv Hs) as (i & fr & Hi & Hfr & _). apply lookup_lt_Some in Hfr.
  assert (Hmn : 0 ≤ m ≤ ViewerData.currentFrame v).
  { split; [|by apply (Hleast n)]. destruct Hm as (n0 & v0 & Hv0 & <-).
    destruct (proj1 (Hdom n0)) as [s0 Hs0]; [by rewrite Hv0|].
    by apply (showsFrameOf_nonneg s0), (Hshow n0). }
  assert (Hmin : js_min (viewerValues ViewerData.currentFrame st1) = Num m).
  { apply js_min_least.
    - apply viewerValues_elem. exact Hm.
    - intros y (n' & v' & Hv' & <-)%viewerValues_elem. by eapply Hleast. }
  unfold step. cbn [handle]. unfold onSyncEnableChange, showFrameAt.
  cbn [syncEnabled with_syncEnabled]. fold st1. rewrite Hmin.
  replace m with (Z.of_nat (Z.to_nat m)) by lia.
  rewrite (showFrame_synced_display st1 (Z.to_nat m) n v s); [|done..|].
  - f_equal. destruct (syncMode st1); [lia|].
    destruct (_ <? _) eqn:E; [done|]. apply Z.ltb_ge in E. lia.
  - change (globalCount st1) with (globalCount st). lia.
Qed.

Lemma example_apart_viewers :
  (∃ n0 v0, activeViewers (run [FileSelect exampleFiles; FrameSlider 3; SyncCheckbox false;
                                SeriesClick T1WI; NextButton]) !! n0 = Some v0 ∧
            ViewerData.currentFrame v0 = 2) ∧
  (∀ n' v', activeViewers (run [FileSelect exampleFiles; FrameSlider 3; SyncCheckbox false;
                                SeriesClick T1WI; NextButton]) !! n' = Some v' →
            2 ≤ ViewerData.currentFrame v') ∧
  is_Some (activeViewers (run [FileSelect exampleFiles; FrameSlider 3; SyncCheckbox false;
                               SeriesClick T1WI; NextButton]) !! T1WI).
Proof.
  split_and!.
  - exists T2WI. eexists. split; vm_compute; reflexivity.
  - change (map_Forall (λ _ v, 2 ≤ ViewerData.currentFrame v)
              (activeViewers (run [FileSelect exampleFiles; FrameSlider 3; SyncCheckbox false;
                                   SeriesClick T1WI; NextButton]))).
    apply map_Forall_to_list. vm_compute.
    repeat (constructor; [by intros H|]). constructor.
  - eexists. vm_compute. reflexivity.
Qed.

Lemma sync_enable_aligns_viewers_witness :
  displayedFrame
    (step (run [FileSelect exampleFiles; FrameSlider 3; SyncCheckbox false;
                SeriesClick T1WI; NextButton]) (SyncCheckbox true)) T1WI = Some 2.
Proof.
  destruct example_apart_viewers as (H1 & H2 & H3).
  apply (sync_enable_aligns_viewers
           [FileSelect exampleFiles; FrameSlider 3; SyncCheckbox false;
            SeriesClick T1WI; NextButton] 2 T1WI).
  - repeat constructor.
  - exact H1.
  - exact H2.
  - exact H3.
Defined.

(** ** Controls without effect while synchronisation is off *)

(** X22.  While synchronisation is off, the frame slider asks for no
    switch and moves no viewer, whether a series is selected or not (its
    handler names no target series); and as long as no series is selected,
    the previous and next buttons leave the whole view as it is. *)
Theorem unsynced_controls_inert st :
  syncEnabled st = false →
  (∀ value,
     (handle (FrameSlider value) st).2 = [] ∧
     ∀ n, activeViewers (step st (FrameSlider value)) !! n = activeViewers st !! n) ∧
  (activeSeries st = None → step st NextButton = st ∧ step st PreviousButton = st).
Proof.
  intros Hsync. split.
  - intros value.
    assert (H : handle (FrameSlider value) st
                = (with_cursor (boundFrameIndex (value - 1) false (globalCount st))
                     (js_index (PositionMap.positions (positionMap st))
                        (boundFrameIndex (value - 1) false (globalCount st))) st, [])).
    { cbn [handle]. unfold showFrame. fold (globalCount st).
      cbn [syncEnabled with_cursor]. by rewrite Hsync. }
    unfold step. by rewrite H.
  - intros Hnone. unfold step. cbn [handle]. unfold buttonTarget.
    rewrite Hsync, Hnone. unfold showNextFrame, showPreviousFrame. by rewrite Hsync.
Qed.

Lemma unsynced_controls_inert_witness :
  step (run [SyncCheckbox false]) NextButton = run [SyncCheckbox false].
Proof.
  destruct (unsynced_controls_inert (run [SyncCheckbox false])) as [_ H]; [reflexivity|].
  by destruct H as [H _].
Defined.

(** ** Playback never runs ahead *)





